(** * The acquisition scheme of microstruktur: a model and its properties

    This development follows [microstruktur/core/acquisition_scheme.py]:
    the input check [check_acquisition_scheme], the shell classifier
    [calculate_shell_bvalues_and_indices], the step table
    [get_sh_order_from_bval], the constructor of [MipyAcquisitionScheme]
    and the three functions [acquisition_scheme_from_*] that call it.

    Numbers.  Every finite binary64 value is a rational number, so the
    entries of the numpy arrays are modelled as [Q], compared with
    [Qle_bool], [Qeq_bool] and [Qcompare] (numeric comparison, as numpy
    does).  Arithmetic is exact: rounding, NaN and infinities are outside
    the model.

    Python exceptions are the constructors of [exn]; a computation that
    may raise returns a [result]. *)

From stdpp Require Import base gmap.
From Stdlib Require Import Rbase Rbasic_fun R_sqrt Qreals Lra.
From Stdlib Require Lqa.
From Stdlib Require Import String QArith Qabs Qminmax ZArith List Bool Arith
  Lia Permutation Sorted.
Import ListNotations.
Open Scope Q_scope.

(* ================================================================== *)
(** * Exceptions *)
(* ================================================================== *)

Inductive exn : Type :=
| ValueError (msg : string)
| TypeError (msg : string)
| IndexError (msg : string).

Inductive result (A : Type) : Type :=
| Return (a : A)
| Raise (e : exn).
Arguments Return {A} a.
Arguments Raise {A} e.

Definition bind {A B : Type} (m : result A) (k : A -> result B) : result B :=
  match m with
  | Return a => k a
  | Raise e => Raise e
  end.

Notation "'let*' p ':=' m 'in' k" := (bind m (fun p => k))
  (at level 10, p pattern, m at level 100, k at level 200).
Notation "m ;;; k" := (bind m (fun _ => k))
  (at level 100, right associativity).

(* ================================================================== *)
(** * Comparisons on rationals *)
(* ================================================================== *)

(** [x < y] as numpy evaluates it on finite values. *)
Definition Qlt_bool (x y : Q) : bool := negb (Qle_bool y x).

Definition Qsum (l : list Q) : Q := fold_right Qplus 0 l.

(** [np.mean] of a one-dimensional array. *)
Definition np_mean (l : list Q) : Q :=
  Qsum l / inject_Z (Z.of_nat (length l)).

(** Boolean-mask indexing [a[mask]] of two arrays of one length. *)
Fixpoint compress {A : Type} (mask : list bool) (a : list A) : list A :=
  match mask, a with
  | m :: mask', x :: a' =>
      if m then x :: compress mask' a' else compress mask' a'
  | _, _ => []
  end.

(* ================================================================== *)
(** * numpy arrays as the input check sees them *)
(* ================================================================== *)

(** An [ndarray] has a shape and its entries in row-major order; [ndim]
    is the number of axes.  A zero-dimensional array has shape [[]] and
    one entry. *)
Record ndarray : Type := mk_ndarray {
  shape : list nat;
  data : list Q
}.

Definition ndim (a : ndarray) : nat := length (shape a).

Definition wf_ndarray (a : ndarray) : bool :=
  (length (data a) =? fold_right Nat.mul 1 (shape a))%nat.

(** [np.array([x0, x1, ...])]. *)
Definition array1 (l : list Q) : ndarray := mk_ndarray [length l] l.

(** A two-dimensional array with [ncols] columns, from its rows. *)
Definition array2 (ncols : nat) (rows : list (list Q)) : ndarray :=
  mk_ndarray [length rows; ncols] (concat rows).

(** Python's [len(a)]: the first axis; unsized for a 0-d array. *)
Definition len (a : ndarray) : result nat :=
  match shape a with
  | [] => Raise (TypeError "len() of unsized object")
  | n :: _ => Return n
  end.

Definition Qmin_list (x : Q) (l : list Q) : Q := fold_left Qmin l x.

(** [np.min(a)]: the least entry; numpy raises on an empty array. *)
Definition np_min (a : ndarray) : result Q :=
  match data a with
  | [] => Raise (ValueError
      "zero-size array to reduction operation minimum which has no identity")
  | x :: l => Return (Qmin_list x l)
  end.

(** The rows of an array of shape (N, ncols). *)
Fixpoint chunks (fuel ncols : nat) (l : list Q) : list (list Q) :=
  match fuel with
  | O => []
  | S fuel' => firstn ncols l :: chunks fuel' ncols (skipn ncols l)
  end.

Definition rows (a : ndarray) : list (list Q) :=
  match shape a with
  | [n; c] => chunks n c (data a)
  | _ => []
  end.

Definition sum_squares (row : list Q) : Q :=
  Qsum (map (fun x => x * x) row).

(** [abs(np.linalg.norm(row) - 1.) < 0.001] is evaluated by numpy in
    binary64: the squares, their sum, the square root and the difference
    are rounded.  That rounding is not modelled, and neither is the order
    in which numpy adds the squares.  The test is a parameter of the
    model, [is_unit_vector]; two facts are assumed of it, for rows of
    three entries: it accepts a row whose norm is within 0.0009 of 1
    (squared norm between 0.9991^2 and 1.0009^2) and rejects a row whose
    norm is off by 0.0011 at least (squared norm at most 0.9989^2 or at
    least 1.0011^2).  Between these margins, where the rounding decides,
    nothing is assumed. *)
Class UnitNormTest : Type := {
  is_unit_vector : list Q -> bool;
  unit_norm_accepts : forall row : list Q,
    length row = 3%nat ->
    0.99820081 <= sum_squares row -> sum_squares row <= 1.00180081 ->
    is_unit_vector row = true;
  unit_norm_rejects : forall row : list Q,
    length row = 3%nat ->
    sum_squares row <= 0.99780121 \/ 1.00220121 <= sum_squares row ->
    is_unit_vector row = false
}.

(** The test without rounding: [|sqrt s - 1| < 1/1000] for the squared
    norm [s >= 0] is [(999/1000)^2 < s < (1001/1000)^2].
    [is_unit_vector_norm] below proves the two forms equivalent over the
    real numbers.  It is used to run examples. *)
Definition is_unit_vector_exact (row : list Q) : bool :=
  Qlt_bool 0.998001 (sum_squares row) && Qlt_bool (sum_squares row) 1.002001.

(* ================================================================== *)
(** * check_acquisition_scheme *)
(* ================================================================== *)

Definition msg_bqg_ndim : string :=
  "b/q/G input must be a one-dimensional array. ".
Definition msg_len_directions : string :=
  "b/q/G input and gradient_directions must have the same length. ".
Definition msg_len_delta : string :=
  "b/q/G input, delta and Delta must have the same length. ".
Definition msg_delta_ndim : string :=
  "delta and Delta must be one-dimensional arrays. ".
Definition msg_delta_sign : string :=
  "delta and Delta must be zero or positive. ".
Definition msg_directions_shape : string :=
  "gradient_directions n must be two dimensional array of shape ".
Definition msg_bqg_sign : string :=
  "b/q/G input must be zero or positive. ".
Definition msg_unit_norm : string :=
  "gradient orientations n are not unit vectors. ".

(** Python's [a or b] on two tests that may raise: [b] is evaluated only
    when [a] is false. *)
Definition or_else (a : result bool) (b : result bool) : result bool :=
  let* x := a in if x then Return true else b.

Section Check.
Context `{UN : UnitNormTest}.

(** The eight tests of the source, in its order.  A message is the first
    sentence of the source's message; the values that the source formats
    into it are evaluated where the source evaluates them, because [len]
    and [np.min] can raise there too. *)
Definition check_acquisition_scheme
    (bqg_values gradient_directions delta Delta : ndarray) : result unit :=
  if (1 <? ndim bqg_values)%nat then Raise (ValueError msg_bqg_ndim) else
  let* n := len bqg_values in
  let* ng := len gradient_directions in
  if negb (n =? ng)%nat then Raise (ValueError msg_len_directions) else
  let* mismatch := or_else (let* nd := len delta in Return (negb (n =? nd)%nat))
                      (let* nD := len Delta in Return (negb (n =? nD)%nat)) in
  if mismatch then
    len delta ;;; len Delta ;;; Raise (ValueError msg_len_delta)
  else
  if (1 <? ndim delta)%nat || (1 <? ndim Delta)%nat
  then Raise (ValueError msg_delta_ndim) else
  let* negative := or_else (let* m := np_min delta in Return (Qlt_bool m 0))
                      (let* m := np_min Delta in Return (Qlt_bool m 0)) in
  if negative then
    np_min delta ;;; np_min Delta ;;; Raise (ValueError msg_delta_sign)
  else
  if negb (ndim gradient_directions =? 2)%nat
     || negb (nth 1 (shape gradient_directions) 0 =? 3)%nat
  then Raise (ValueError msg_directions_shape) else
  let* m := np_min bqg_values in
  if Qlt_bool m 0 then Raise (ValueError msg_bqg_sign) else
  if negb (forallb is_unit_vector (rows gradient_directions))
  then Raise (ValueError msg_unit_norm) else
  Return tt.

End Check.

(* ================================================================== *)
(** * scipy's single-linkage flat clusters *)
(* ================================================================== *)

(** [linkage(np.c_[bvalues])] builds the single-linkage dendrogram of the
    observations under the Euclidean distance, and
    [fcluster(Z, t, criterion='distance')] cuts it so that two
    observations share a flat cluster when their cophenetic distance is at
    most [t].  For single linkage this says that a chain of observations
    joins them in which consecutive distances are at most [t]: the flat
    clusters are the connected components of the graph [linked t].

    scipy needs two observations at least: with fewer, the condensed
    distance matrix is empty and [linkage] raises [ValueError]. *)

Definition linked (t x y : Q) : bool := Qle_bool (Qabs (x - y)) t.

(** One step of the closure: the observations in [c] and those linked to
    one of them, in increasing order of position. *)
Definition grow (bs : list Q) (t : Q) (c : list nat) : list nat :=
  List.filter
    (fun j => existsb (fun i => (i =? j)%nat
                                || linked t (nth i bs 0) (nth j bs 0)) c)
    (seq 0 (length bs)).

Definition component (bs : list Q) (t : Q) (i : nat) : list nat :=
  Nat.iter (length bs) (grow bs t) [i].

(** The first observation of the component of [i]. *)
Definition leader (bs : list Q) (t : Q) (i : nat) : nat :=
  hd i (component bs t i).

Fixpoint index_of (x : nat) (l : list nat) : nat :=
  match l with
  | [] => O
  | y :: l' => if (x =? y)%nat then O else S (index_of x l')
  end.

(** Labels 1, 2, ... given to the distinct keys of [keys]. *)
Definition number_keys (keys : list nat) : list nat :=
  map (fun k => S (index_of k (nodup Nat.eq_dec keys))) keys.

Definition msg_linkage : string :=
  "The number of observations cannot be determined on an empty distance matrix.".

(** The dendrogram is determined by the observations, which stand for it. *)
Definition linkage (bs : list Q) : result (list Q) :=
  if (length bs <? 2)%nat then Raise (ValueError msg_linkage) else Return bs.

(** scipy numbers the flat clusters 1..k in the order of a traversal of
    the dendrogram; the numbering chosen here is one of the possible ones.
    The properties of [relabel_clusters] below are proved for every
    numbering that uses exactly the labels 1..k. *)
Definition fcluster (Z : list Q) (t : Q) : list nat :=
  number_keys (map (leader Z t) (seq 0 (length Z))).

(* ================================================================== *)
(** * calculate_shell_bvalues_and_indices *)
(* ================================================================== *)

(** [np.unique] of an integer array: its distinct values, ascending. *)
Definition np_unique (l : list nat) : list nat :=
  List.filter (fun v => existsb (Nat.eqb v) l) (seq 0 (S (list_max l))).

(** [a[mask] = v] for a scalar [v]. *)
Fixpoint assign_where (mask : list bool) (v : nat) (a : list nat) : list nat :=
  match mask, a with
  | m :: mask', x :: a' => (if m then v else x) :: assign_where mask' v a'
  | _, _ => a
  end.

(** Rows [(mean, label)] in ascending order of the mean: what
    [cluster_bvalues[cluster_bvalues[:, 0].argsort()]] builds.  Rows with
    equal means keep their order. *)
Fixpoint insert_row (r : Q * nat) (l : list (Q * nat)) : list (Q * nat) :=
  match l with
  | [] => [r]
  | r' :: l' =>
      if Qle_bool (fst r) (fst r') then r :: l else r' :: insert_row r l'
  end.

Definition sort_rows (l : list (Q * nat)) : list (Q * nat) :=
  fold_right insert_row [] l.

(** The part of the source after [fcluster]: the mean b-value of every
    cluster is stored in row [ind - 1] (labels start at 1), the rows are
    sorted by mean, and position [i] of the sorted rows becomes the shell
    index of the cluster found there.  [np.empty_like] leaves
    [shell_indices] uninitialised; every entry is written when the labels
    are exactly 1..k, and the model starts from zeros. *)
Definition relabel_clusters (bvalues : list Q) (clusters : list nat)
    : list nat * list Q :=
  let cluster_bvalues :=
    fold_left
      (fun cb ind =>
         <[ (ind - 1)%nat :=
            (np_mean (compress (map (Nat.eqb ind) clusters) bvalues), ind) ]> cb)
      (np_unique clusters)
      (repeat (0, O) (list_max clusters)) in
  let sorted := sort_rows cluster_bvalues in
  let shell_bvalues := map fst sorted in
  let ordered_cluster_indices := map snd sorted in
  let shell_indices :=
    fold_left
      (fun si '(i, ind) => assign_where (map (Nat.eqb ind) clusters) i si)
      (combine (seq 0 (length ordered_cluster_indices)) ordered_cluster_indices)
      (repeat O (length bvalues)) in
  (shell_indices, shell_bvalues).

Definition calculate_shell_bvalues_and_indices (bvalues : list Q)
    (max_distance : Q) : result (list nat * list Q) :=
  let* linkage_matrix := linkage bvalues in
  let clusters := fcluster linkage_matrix max_distance in
  Return (relabel_clusters bvalues clusters).

(* ================================================================== *)
(** * get_sh_order_from_bval *)
(* ================================================================== *)

(** The breakpoints of the source; [None] is [np.inf]. *)
Definition sh_bvals : list (option Q) :=
  [Some 2.02020202e+08; Some 7.07070707e+08; Some 1.21212121e+09;
   Some 2.52525253e+09; Some 3.13131313e+09; Some 5.35353535e+09; None].

(** [np.arange(2, 15, 2)]. *)
Definition sh_orders : list nat := [2; 4; 6; 8; 10; 12; 14]%nat.

(** [np.argmax] of a boolean array: the first [True], or 0. *)
Fixpoint argmax (l : list bool) : nat :=
  match l with
  | [] => O
  | b :: l' => if b then O else if existsb id l' then S (argmax l') else O
  end.

Definition above (bval : Q) (x : option Q) : bool :=
  match x with
  | None => true
  | Some b => Qlt_bool bval b
  end.

Definition get_sh_order_from_bval (bval : Q) : nat :=
  nth (argmax (map (above bval) sh_bvals)) sh_orders O.

(* ================================================================== *)
(** * Array helpers of the constructor *)
(* ================================================================== *)

(** Rows of [np.c_[delta, Delta]], compared as numpy compares them. *)
Definition row_eqb (a b : Q * Q) : bool :=
  Qeq_bool (fst a) (fst b) && Qeq_bool (snd a) (snd b).

Definition row_compare (a b : Q * Q) : comparison :=
  match fst a ?= fst b with
  | Eq => snd a ?= snd b
  | c => c
  end.

Fixpoint insert_unique (x : Q * Q) (l : list (Q * Q)) : list (Q * Q) :=
  match l with
  | [] => [x]
  | y :: l' =>
      match row_compare x y with
      | Lt => x :: l
      | Eq => l
      | Gt => y :: insert_unique x l'
      end
  end.

(** [np.unique(deltas, axis=0)]: the distinct rows in ascending
    lexicographic order. *)
Definition np_unique_rows (l : list (Q * Q)) : list (Q * Q) :=
  fold_right insert_unique [] l.

(** [a[mask] = vals]: the selected positions receive the values in order.
    The source assigns as many values as positions are selected. *)
Fixpoint mask_assign (mask : list bool) (vals : list nat) (a : list nat)
    : list nat :=
  match mask, a with
  | true :: mask', x :: a' =>
      match vals with
      | v :: vals' => v :: mask_assign mask' vals' a'
      | [] => x :: mask_assign mask' [] a'
      end
  | false :: mask', x :: a' => x :: mask_assign mask' vals a'
  | _, _ => a
  end.

Definition msg_index : string := "index out of bounds".

(** [a[i]] for an integer [i >= 0]. *)
Definition index {A : Type} (a : list A) (i : nat) : result A :=
  match nth_error a i with
  | Some x => Return x
  | None => Raise (IndexError msg_index)
  end.

(** [a[idx]] for a list of integers. *)
Fixpoint take {A : Type} (a : list A) (idx : list nat) : result (list A) :=
  match idx with
  | [] => Return []
  | i :: idx' => let* x := index a i in let* l := take a idx' in Return (x :: l)
  end.

Fixpoint foldM {S X : Type} (f : S -> X -> result S) (l : list X) (s : S)
    : result S :=
  match l with
  | [] => Return s
  | x :: l' => let* s' := f s x in foldM f l' s'
  end.

Definition same_length {A : Type} (ls : list (list A)) : bool :=
  match ls with
  | [] => true
  | l :: ls' => forallb (fun l' => (length l' =? length l)%nat) ls'
  end.

Definition msg_ragged : string :=
  "setting an array element with a sequence.".

(** [np.array(ls).ravel()] for a list of one-dimensional arrays.  Arrays of
    one length form a two-dimensional array, flattened row by row.  Arrays
    of different lengths do not form a numeric array: current numpy raises
    [ValueError] here, and older releases build an array of objects on which
    the comparison with [b0_threshold] of the next statement raises
    [ValueError]. *)
Definition ravel (ls : list (list Q)) : result (list Q) :=
  if same_length ls then Return (concat ls)
  else Raise (ValueError msg_ragged).

Definition count_true (mask : list bool) : nat :=
  length (List.filter id mask).

Fixpoint map2 {A B C : Type} (f : A -> B -> C) (a : list A) (b : list B)
    : list C :=
  match a, b with
  | x :: a', y :: b' => f x y :: map2 f a' b'
  | _, _ => []
  end.

(* ================================================================== *)
(** * The functions of other modules *)
(* ================================================================== *)

(** [utils.cart2sphere] and dipy's [real_sym_sh_mrtrix] are not part of
    this file of the repository.  [cart2sphere] stands for
    [_, theta_, phi_ = utils.cart2sphere(bvecs).T] and
    [real_sym_sh_mrtrix] for the first component of dipy's result. *)
Class SphericalHarmonics : Type := {
  angles : Type;
  sh_matrix : Type;
  cart2sphere : list (list Q) -> angles;
  real_sym_sh_mrtrix : nat -> angles -> sh_matrix
}.

(** [microstruktur.core.gradient_conversions], applied to one measurement:
    [q_from_b b delta Delta] and so on. *)
Class GradientConversions : Type := {
  q_from_b : Q -> Q -> Q -> Q;
  g_from_b : Q -> Q -> Q -> Q;
  b_from_q : Q -> Q -> Q -> Q;
  g_from_q : Q -> Q -> Q;
  b_from_g : Q -> Q -> Q -> Q;
  q_from_g : Q -> Q -> Q
}.

(* ================================================================== *)
(** * class MipyAcquisitionScheme *)
(* ================================================================== *)

Module MipyAcquisitionScheme.

(** One round of the loop over [unique_deltas]; the state is
    [(self.shell_indices, self.shell_bvalues, max_index)]. *)
Definition classify_group (bvalues : list Q) (deltas : list (Q * Q))
    (min_b_shell_distance : Q) (st : list nat * list (list Q) * nat)
    (unique_deltas_ : Q * Q) : result (list nat * list (list Q) * nat) :=
  let '(shell_indices, shell_bvalues, max_index) := st in
  let delta_mask := map (row_eqb unique_deltas_) deltas in
  let masked_bvals := compress delta_mask bvalues in
  let* (shell_indices_, shell_bvalues_) :=
    calculate_shell_bvalues_and_indices masked_bvals min_b_shell_distance in
  let shell_indices' :=
    mask_assign delta_mask (map (fun i => (i + max_index)%nat) shell_indices_)
      shell_indices in
  Return (shell_indices', shell_bvalues ++ [shell_bvalues_],
          list_max (map S shell_indices')).

(** The branch [number_of_measurements > 1], up to [shell_bvalues]. *)
Definition classify_shells (bvalues delta Delta : list Q)
    (min_b_shell_distance : Q) : result (list nat * list Q) :=
  let deltas := combine delta Delta in
  let unique_deltas := np_unique_rows deltas in
  let* (shell_indices, shell_bvalues, _) :=
    foldM (classify_group bvalues deltas min_b_shell_distance) unique_deltas
      (repeat O (length bvalues), [], O) in
  let* shell_bvalues' := ravel shell_bvalues in
  Return (shell_indices, shell_bvalues').

(** [[np.argmax(shell_indices == ind) for ind in np.arange(max + 1)]]. *)
Definition first_indices (shell_indices : list nat) : list nat :=
  map (fun ind => argmax (map (Nat.eqb ind) shell_indices))
      (seq 0 (list_max shell_indices + 1)).

Definition msg_no_b0 : string :=
  "No b0 measurements were detected. Check if the b0_threshold option is high enough, or if there is a mistake in the acquisition design.".

Section Init.
Context `{SH : SphericalHarmonics}.

Record self : Type := mk_self {
  min_b_shell_distance : Q;
  b0_threshold : Q;
  bvalues : list Q;
  b0_mask : list bool;
  number_of_b0s : nat;
  number_of_measurements : nat;
  gradient_directions : list (list Q);
  qvalues : list Q;
  gradient_strengths : list Q;
  delta : list Q;
  Delta : list Q;
  tau : list Q;
  shell_indices : list nat;
  shell_bvalues : list Q;
  shell_b0_mask : list bool;
  shell_qvalues : list Q;
  shell_gradient_strengths : list Q;
  shell_delta : list Q;
  shell_Delta : list Q;
  unique_dwi_indices : list nat;
  shell_sh_matrices : gmap nat sh_matrix;
  shell_sh_orders : list nat
}.

(** One round of the loop over [unique_dwi_indices]; the state is
    [(self.shell_sh_orders, self.shell_sh_matrices)]. *)
Definition sh_step (gradient_directions : list (list Q))
    (shell_indices : list nat) (shell_bvalues : list Q)
    (st : list nat * gmap nat sh_matrix) (shell_index : nat)
    : result (list nat * gmap nat sh_matrix) :=
  let '(shell_sh_orders, shell_sh_matrices) := st in
  let shell_mask := map (Nat.eqb shell_index) shell_indices in
  let bvecs_shell := compress shell_mask gradient_directions in
  let theta_phi := cart2sphere bvecs_shell in
  let* bval := index shell_bvalues shell_index in
  let shell_sh_orders' :=
    <[ shell_index := get_sh_order_from_bval bval ]> shell_sh_orders in
  let* order := index shell_sh_orders' shell_index in
  Return (shell_sh_orders',
          <[ shell_index := real_sym_sh_mrtrix order theta_phi ]>
            shell_sh_matrices).

(** [__init__]: the scheme and the warnings emitted on the way. *)
Definition __init__ (bvalues : list Q) (gradient_directions : list (list Q))
    (qvalues gradient_strengths delta Delta : list Q)
    (min_b_shell_distance b0_threshold : Q) : result (self * list string) :=
  let b0_mask := map (fun b => Qle_bool b b0_threshold) bvalues in
  let number_of_b0s := count_true b0_mask in
  let number_of_measurements := length bvalues in
  let tau := map2 (fun D d => D - d / 3) Delta delta in
  let* (shell_indices, shell_bvalues, shell_b0_mask, shell_qvalues,
    shell_gradient_strengths, shell_delta, shell_Delta) :=
    (if (1 <? number_of_measurements)%nat then
       let* (shell_indices, shell_bvalues) :=
         classify_shells bvalues delta Delta min_b_shell_distance in
       let shell_b0_mask :=
         map (fun b => Qle_bool b b0_threshold) shell_bvalues in
       let first := first_indices shell_indices in
       let* shell_qvalues := take qvalues first in
       let* shell_gradient_strengths := take gradient_strengths first in
       let* shell_delta := take delta first in
       let* shell_Delta := take Delta first in
       Return (shell_indices, shell_bvalues, shell_b0_mask, shell_qvalues,
               shell_gradient_strengths, shell_delta, shell_Delta)
     else
       let shell_bvalues := bvalues in
       let shell_indices := [O] in
       let shell_b0_mask :=
         if existsb id (map (fun b => Qlt_bool b0_threshold b) shell_bvalues)
         then [false] else [true] in
       Return (shell_indices, shell_bvalues, shell_b0_mask, qvalues,
               gradient_strengths, delta, Delta)) in
  let unique_dwi_indices :=
    np_unique (compress (map negb b0_mask) shell_indices) in
  let* (shell_sh_orders, shell_sh_matrices) :=
    foldM (sh_step gradient_directions shell_indices shell_bvalues)
      unique_dwi_indices (repeat O (length shell_bvalues), ∅) in
  let warnings := if (count_true b0_mask =? 0)%nat then [msg_no_b0] else [] in
  Return
    ({| min_b_shell_distance := min_b_shell_distance;
        b0_threshold := b0_threshold;
        bvalues := bvalues;
        b0_mask := b0_mask;
        number_of_b0s := number_of_b0s;
        number_of_measurements := number_of_measurements;
        gradient_directions := gradient_directions;
        qvalues := qvalues;
        gradient_strengths := gradient_strengths;
        delta := delta;
        Delta := Delta;
        tau := tau;
        shell_indices := shell_indices;
        shell_bvalues := shell_bvalues;
        shell_b0_mask := shell_b0_mask;
        shell_qvalues := shell_qvalues;
        shell_gradient_strengths := shell_gradient_strengths;
        shell_delta := shell_delta;
        shell_Delta := shell_Delta;
        unique_dwi_indices := unique_dwi_indices;
        shell_sh_matrices := shell_sh_matrices;
        shell_sh_orders := shell_sh_orders |},
     warnings).

End Init.
End MipyAcquisitionScheme.

(* ================================================================== *)
(** * The three entry points *)
(* ================================================================== *)

(** [delta] and [Delta] are given as a float or as an array. *)
Inductive float_or_array : Type :=
| Float (x : Q)
| Array (a : ndarray).

(** [np.tile(x, n)] for a float [x]. *)
Definition np_tile (x : Q) (n : nat) : ndarray := array1 (repeat x n).

Definition unify_one (reference_array : ndarray) (d : float_or_array)
    : result ndarray :=
  match d with
  | Float x => let* n := len reference_array in Return (np_tile x n)
  | Array a => Return a
  end.

(** As values, [delta.copy()] is [delta]; that the copy is a new object is
    the subject of [Module Store] below. *)
Definition unify_length_reference_delta_Delta (reference_array : ndarray)
    (delta Delta : float_or_array) : result (ndarray * ndarray) :=
  let* delta_ := unify_one reference_array delta in
  let* Delta_ := unify_one reference_array Delta in
  Return (delta_, Delta_).

(** The entries numpy pairs with [n] measurements when it broadcasts. *)
Definition broadcast (d : float_or_array) (n : nat) : list Q :=
  match d with
  | Float x => repeat x n
  | Array a => data a
  end.

Fixpoint map3 {A B C D : Type} (f : A -> B -> C -> D)
    (a : list A) (b : list B) (c : list C) : list D :=
  match a, b, c with
  | x :: a', y :: b', z :: c' => f x y z :: map3 f a' b' c'
  | _, _, _ => []
  end.

Definition default_min_b_shell_distance : Q := 50e6.
Definition default_b0_threshold : Q := 10e6.

Section EntryPoints.
Context `{SH : SphericalHarmonics} `{GC : GradientConversions}
  `{UN : UnitNormTest}.

Definition acquisition_scheme_from_bvalues
    (bvalues gradient_directions : ndarray) (delta Delta : float_or_array)
    (min_b_shell_distance b0_threshold : Q)
    : result (MipyAcquisitionScheme.self * list string) :=
  let* (delta_, Delta_) :=
    unify_length_reference_delta_Delta bvalues delta Delta in
  check_acquisition_scheme bvalues gradient_directions delta_ Delta_ ;;;
  let qvalues := map3 q_from_b (data bvalues) (data delta_) (data Delta_) in
  let gradient_strengths :=
    map3 g_from_b (data bvalues) (data delta_) (data Delta_) in
  MipyAcquisitionScheme.__init__ (data bvalues) (rows gradient_directions)
    qvalues gradient_strengths (data delta_) (data Delta_)
    min_b_shell_distance b0_threshold.

Definition acquisition_scheme_from_qvalues
    (qvalues gradient_directions : ndarray) (delta Delta : float_or_array)
    (min_b_shell_distance b0_threshold : Q)
    : result (MipyAcquisitionScheme.self * list string) :=
  let* (delta_, Delta_) :=
    unify_length_reference_delta_Delta qvalues delta Delta in
  check_acquisition_scheme qvalues gradient_directions delta_ Delta_ ;;;
  let n := length (data qvalues) in
  let bvalues :=
    map3 b_from_q (data qvalues) (broadcast delta n) (broadcast Delta n) in
  let gradient_strengths :=
    map2 g_from_q (data qvalues) (broadcast delta n) in
  MipyAcquisitionScheme.__init__ bvalues (rows gradient_directions)
    (data qvalues) gradient_strengths (data delta_) (data Delta_)
    min_b_shell_distance b0_threshold.

Definition acquisition_scheme_from_gradient_strengths
    (gradient_strengths gradient_directions : ndarray)
    (delta Delta : float_or_array) (min_b_shell_distance b0_threshold : Q)
    : result (MipyAcquisitionScheme.self * list string) :=
  let* (delta_, Delta_) :=
    unify_length_reference_delta_Delta gradient_strengths delta Delta in
  check_acquisition_scheme gradient_strengths gradient_directions
    delta_ Delta_ ;;;
  let n := length (data gradient_strengths) in
  let bvalues :=
    map3 b_from_g (data gradient_strengths) (broadcast delta n)
      (broadcast Delta n) in
  let qvalues := map2 q_from_g (data gradient_strengths) (broadcast delta n) in
  MipyAcquisitionScheme.__init__ bvalues (rows gradient_directions)
    qvalues (data gradient_strengths) (data delta_) (data Delta_)
    min_b_shell_distance b0_threshold.

End EntryPoints.

(* ================================================================== *)
(** * The conditions of the input check, as the specification lists them *)
(* ================================================================== *)

(** This part follows the words of the specification, section 4.2, and is
    compared with [check_acquisition_scheme] below. *)
Inductive violation : Type :=
| PrimaryNotOneDimensional
| LengthMismatchDirections
| LengthMismatchDelta
| DeltaNotOneDimensional
| NegativeDelta
| DirectionsNotN3
| NegativePrimary
| NotUnitNorm.

(** The size of the first axis, 0 for an array without axes. *)
Definition first_axis (a : ndarray) : nat := hd O (shape a).

Definition has_negative (a : ndarray) : bool :=
  existsb (fun x => Qlt_bool x 0) (data a).

Section Conditions.
Context `{UN : UnitNormTest}.

Definition holds (v : violation)
    (primary gradient_directions delta Delta : ndarray) : bool :=
  match v with
  | PrimaryNotOneDimensional => negb (ndim primary =? 1)%nat
  | LengthMismatchDirections =>
      negb (first_axis primary =? first_axis gradient_directions)%nat
  | LengthMismatchDelta =>
      negb (first_axis primary =? first_axis delta)%nat
      || negb (first_axis primary =? first_axis Delta)%nat
  | DeltaNotOneDimensional =>
      negb (ndim delta =? 1)%nat || negb (ndim Delta =? 1)%nat
  | NegativeDelta => has_negative delta || has_negative Delta
  | DirectionsNotN3 =>
      negb ((ndim gradient_directions =? 2)%nat
            && (nth 1 (shape gradient_directions) O =? 3)%nat)
  | NegativePrimary => has_negative primary
  | NotUnitNorm =>
      existsb (fun row => negb (is_unit_vector row)) (rows gradient_directions)
  end.

(** The fixed order: shape, length consistency, delta/Delta shape,
    delta/Delta sign, gradient_directions shape, primary sign, unit norm. *)
Definition check_order : list violation :=
  [PrimaryNotOneDimensional; LengthMismatchDirections; LengthMismatchDelta;
   DeltaNotOneDimensional; NegativeDelta; DirectionsNotN3; NegativePrimary;
   NotUnitNorm].

Definition first_violation (primary gradient_directions delta Delta : ndarray)
    : option violation :=
  List.find (fun v => holds v primary gradient_directions delta Delta)
    check_order.

Definition message_of (v : violation) : string :=
  match v with
  | PrimaryNotOneDimensional => msg_bqg_ndim
  | LengthMismatchDirections => msg_len_directions
  | LengthMismatchDelta => msg_len_delta
  | DeltaNotOneDimensional => msg_delta_ndim
  | NegativeDelta => msg_delta_sign
  | DirectionsNotN3 => msg_directions_shape
  | NegativePrimary => msg_bqg_sign
  | NotUnitNorm => msg_unit_norm
  end.

(** What the specification asks of the check: the failure of the first
    condition that holds, and no failure when none holds. *)
Definition validator_outcome
    (primary gradient_directions delta Delta : ndarray) : result unit :=
  match first_violation primary gradient_directions delta Delta with
  | Some v => Raise (ValueError (message_of v))
  | None => Return tt
  end.

End Conditions.

(** Arrays with one axis at least and one entry at least. *)
Definition sized (a : ndarray) : bool := (1 <=? ndim a)%nat.
Definition nonempty (a : ndarray) : bool := (1 <=? length (data a))%nat.

(* ================================================================== *)
(** * Arrays as objects: who shares what with the caller *)
(* ================================================================== *)

(** The entry points receive references to arrays that the caller keeps
    and may write to later.  Here the arrays live in a store, an argument
    is a float or a reference, and the scheme object holds references:
    [bvalues] and [gradient_directions] (and the anchor array) are stored
    as received, whereas [delta.copy()], [np.tile], the unit conversions
    and [Delta - delta / 3.] make new arrays. *)
Module Store.

Abbreviation loc := nat.
Abbreviation store := (gmap nat ndarray).

Inductive pyarg : Type :=
| PyFloat (x : Q)
| PyArray (l : loc).

(** The array attributes of the scheme object that hold its input. *)
Record scheme_refs : Type := mk_refs {
  r_bvalues : loc;
  r_gradient_directions : loc;
  r_qvalues : loc;
  r_gradient_strengths : loc;
  r_delta : loc;
  r_Delta : loc;
  r_tau : loc
}.

(** A new array object. *)
Definition alloc (h : store) (a : ndarray) : store * loc :=
  let l := fresh (dom h) in (<[l := a]> h, l).

(** Reading through a reference that the caller holds; the error case is
    a reference to no object, which Python does not have. *)
Definition deref (h : store) (l : loc) : result ndarray :=
  match h !! l with
  | Some a => Return a
  | None => Raise (TypeError "unbound reference")
  end.

(** In-place writes of the caller, such as [delta[:] = a]. *)
Definition write (h : store) (l : loc) (a : ndarray) : store := <[l := a]> h.

(** One half of [unify_length_reference_delta_Delta]: [np.tile] or
    [delta.copy()], both new objects. *)
Definition unify_one (h : store) (reference_array : ndarray) (d : pyarg)
    : result (store * loc) :=
  match d with
  | PyFloat x =>
      let* n := len reference_array in Return (alloc h (np_tile x n))
  | PyArray l => let* a := deref h l in Return (alloc h a)
  end.

Definition unify_length_reference_delta_Delta (h : store)
    (reference_array : ndarray) (delta Delta : pyarg)
    : result (store * loc * loc) :=
  let* (h1, delta_) := unify_one h reference_array delta in
  let* (h2, Delta_) := unify_one h1 reference_array Delta in
  Return (h2, delta_, Delta_).

(** What numpy broadcasts the original [delta] argument to. *)
Definition broadcast (h : store) (d : pyarg) (n : nat) : result (list Q) :=
  match d with
  | PyFloat x => Return (repeat x n)
  | PyArray l => let* a := deref h l in Return (data a)
  end.

Section EntryPoints.
Context `{SH : SphericalHarmonics} `{GC : GradientConversions}
  `{UN : UnitNormTest}.

(** The constructor stores the references it is given and makes one new
    array for [tau]; the derived fields are those of
    [MipyAcquisitionScheme.__init__] on the contents. *)
Definition __init__ (h : store)
    (bvalues gradient_directions qvalues gradient_strengths delta Delta : loc)
    (min_b_shell_distance b0_threshold : Q)
    : result (store * scheme_refs
              * (MipyAcquisitionScheme.self * list string)) :=
  let* b := deref h bvalues in
  let* g := deref h gradient_directions in
  let* q := deref h qvalues in
  let* G := deref h gradient_strengths in
  let* d := deref h delta in
  let* D := deref h Delta in
  let* sw :=
    MipyAcquisitionScheme.__init__ (data b) (rows g) (data q) (data G)
      (data d) (data D) min_b_shell_distance b0_threshold in
  let '(h', tau) := alloc h (array1 (MipyAcquisitionScheme.tau (fst sw))) in
  Return (h',
          {| r_bvalues := bvalues;
             r_gradient_directions := gradient_directions;
             r_qvalues := qvalues;
             r_gradient_strengths := gradient_strengths;
             r_delta := delta;
             r_Delta := Delta;
             r_tau := tau |},
          sw).

Definition acquisition_scheme_from_bvalues (h : store)
    (bvalues gradient_directions : loc) (delta Delta : pyarg)
    (min_b_shell_distance b0_threshold : Q)
    : result (store * scheme_refs
              * (MipyAcquisitionScheme.self * list string)) :=
  let* b := deref h bvalues in
  let* g := deref h gradient_directions in
  let* (h1, delta_, Delta_) :=
    unify_length_reference_delta_Delta h b delta Delta in
  let* d_ := deref h1 delta_ in
  let* D_ := deref h1 Delta_ in
  check_acquisition_scheme b g d_ D_ ;;;
  let '(h2, qvalues) :=
    alloc h1 (array1 (map3 q_from_b (data b) (data d_) (data D_))) in
  let '(h3, gradient_strengths) :=
    alloc h2 (array1 (map3 g_from_b (data b) (data d_) (data D_))) in
  __init__ h3 bvalues gradient_directions qvalues gradient_strengths
    delta_ Delta_ min_b_shell_distance b0_threshold.

Definition acquisition_scheme_from_qvalues (h : store)
    (qvalues gradient_directions : loc) (delta Delta : pyarg)
    (min_b_shell_distance b0_threshold : Q)
    : result (store * scheme_refs
              * (MipyAcquisitionScheme.self * list string)) :=
  let* q := deref h qvalues in
  let* g := deref h gradient_directions in
  let* (h1, delta_, Delta_) :=
    unify_length_reference_delta_Delta h q delta Delta in
  let* d_ := deref h1 delta_ in
  let* D_ := deref h1 Delta_ in
  check_acquisition_scheme q g d_ D_ ;;;
  let n := length (data q) in
  let* d := broadcast h1 delta n in
  let* D := broadcast h1 Delta n in
  let '(h2, bvalues) := alloc h1 (array1 (map3 b_from_q (data q) d D)) in
  let '(h3, gradient_strengths) :=
    alloc h2 (array1 (map2 g_from_q (data q) d)) in
  __init__ h3 bvalues gradient_directions qvalues gradient_strengths
    delta_ Delta_ min_b_shell_distance b0_threshold.

Definition acquisition_scheme_from_gradient_strengths (h : store)
    (gradient_strengths gradient_directions : loc) (delta Delta : pyarg)
    (min_b_shell_distance b0_threshold : Q)
    : result (store * scheme_refs
              * (MipyAcquisitionScheme.self * list string)) :=
  let* G := deref h gradient_strengths in
  let* g := deref h gradient_directions in
  let* (h1, delta_, Delta_) :=
    unify_length_reference_delta_Delta h G delta Delta in
  let* d_ := deref h1 delta_ in
  let* D_ := deref h1 Delta_ in
  check_acquisition_scheme G g d_ D_ ;;;
  let n := length (data G) in
  let* d := broadcast h1 delta n in
  let* D := broadcast h1 Delta n in
  let '(h2, bvalues) := alloc h1 (array1 (map3 b_from_g (data G) d D)) in
  let '(h3, qvalues) := alloc h2 (array1 (map2 q_from_g (data G) d)) in
  __init__ h3 bvalues gradient_directions qvalues gradient_strengths
    delta_ Delta_ min_b_shell_distance b0_threshold.

End EntryPoints.

(** What the scheme reads through a reference. *)
Definition contents (h : store) (l : loc) : option (list Q) :=
  data <$> (h !! l).

End Store.

(** The value of an argument in a store. *)
Definition arg_value (h : gmap nat ndarray) (d : Store.pyarg)
    : option float_or_array :=
  match d with
  | Store.PyFloat x => Some (Float x)
  | Store.PyArray l => Array <$> (h !! l)
  end.

(* ================================================================== *)
(** * Inputs used in the examples *)
(* ================================================================== *)

(** A single float wrapped by [np.array(5.0)]: no axis, one entry. *)
Definition zero_d_array : ndarray := mk_ndarray [] [5].

(** Four unit gradient directions, as rows and as an (N, 3) array. *)
Definition directions4 : list (list Q) :=
  [[1; 0; 0]; [0; 1; 0]; [0; 0; 1]; [1; 0; 0]].
Definition directions2 : list (list Q) := [[1; 0; 0]; [0; 1; 0]].
Definition directions1 : list (list Q) := [[1; 0; 0]].

(** A row of norm 1.1. *)
Definition long_direction : list Q := [1.1; 0; 0].

(** An interpretation of the spherical-harmonics functions that records
    its arguments: the angles are the directions themselves, and a matrix
    is the pair of the order and the angles it was computed from. *)
Definition symbolic_sh : SphericalHarmonics :=
  {| angles := list (list Q);
     sh_matrix := nat * list (list Q);
     cart2sphere := fun bvecs => bvecs;
     real_sym_sh_mrtrix := fun order theta_phi => (order, theta_phi) |}.

(** Rational stand-ins for the conversions, used to run examples only. *)
Definition sample_conversions : GradientConversions :=
  {| q_from_b := fun b delta Delta => b / (Delta - delta / 3);
     g_from_b := fun b delta Delta => b / (Delta - delta / 3) / delta;
     b_from_q := fun q delta Delta => q * (Delta - delta / 3);
     g_from_q := fun q delta => q / delta;
     b_from_g := fun g delta Delta => g * delta * (Delta - delta / 3);
     q_from_g := fun g delta => g * delta |}.

(** A store in which the caller holds four arrays: b-values at 0,
    gradient directions at 1, delta at 2 and Delta at 3. *)
Definition caller_store : gmap nat ndarray :=
  <[3%nat := array1 [0.03; 0.03; 0.04; 0.04]]>
    (<[2%nat := array1 [0.01; 0.01; 0.02; 0.02]]>
       (<[1%nat := array2 3 directions4]>
          (<[0%nat := array1 [0; 1e9; 0; 1e9]]> ∅))).

(** The test without rounding is one interpretation of the unit-norm test:
    it is right within the margins, being right everywhere. *)
Definition exact_unit_norm : UnitNormTest.
Proof.
  refine {| is_unit_vector := is_unit_vector_exact |}.
  - intros row _ H1 H2. unfold is_unit_vector_exact, Qlt_bool.
    destruct (Qle_bool (sum_squares row) 0.998001) eqn:E1.
    + apply Qle_bool_iff in E1. exfalso.
      apply (Qle_not_lt _ _ (Qle_trans _ _ _ H1 E1)). reflexivity.
    + destruct (Qle_bool 1.002001 (sum_squares row)) eqn:E2;
        [|reflexivity].
      apply Qle_bool_iff in E2. exfalso.
      apply (Qle_not_lt _ _ (Qle_trans _ _ _ E2 H2)). reflexivity.
  - intros row _ [H|H]; unfold is_unit_vector_exact, Qlt_bool.
    + assert (E : Qle_bool (sum_squares row) 0.998001 = true).
      { apply Qle_bool_iff. eapply Qle_trans; [exact H|discriminate]. }
      rewrite E. reflexivity.
    + assert (E : Qle_bool 1.002001 (sum_squares row) = true).
      { apply Qle_bool_iff. eapply Qle_trans; [|exact H]. discriminate. }
      rewrite E. apply andb_false_r.
Defined.

(* ================================================================== *)
(** * Definitions used to state the properties *)
(* ================================================================== *)

(** The step table of [get_sh_order_from_bval], written as a cascade. *)
Definition sh_table (bval : Q) : nat :=
  if Qlt_bool bval 2.02020202e+08 then 2
  else if Qlt_bool bval 7.07070707e+08 then 4
  else if Qlt_bool bval 1.21212121e+09 then 6
  else if Qlt_bool bval 2.52525253e+09 then 8
  else if Qlt_bool bval 3.13131313e+09 then 10
  else if Qlt_bool bval 5.35353535e+09 then 12
  else 14.

(** An input of an entry point is valid when [delta] and [Delta] can be
    brought to the length of the anchor array and the check accepts the
    result; the arrays hold as many entries as their shapes say. *)
Definition valid_input `{UN : UnitNormTest}
    (anchor gradient_directions : ndarray)
    (delta Delta : float_or_array) : bool :=
  match unify_length_reference_delta_Delta anchor delta Delta with
  | Return (delta_, Delta_) =>
      wf_ndarray anchor && wf_ndarray delta_ && wf_ndarray Delta_
      && match check_acquisition_scheme anchor gradient_directions
                 delta_ Delta_ with
         | Return _ => true
         | Raise _ => false
         end
  | Raise _ => false
  end.

(** A numbering of flat clusters uses exactly the labels 1..k. *)
Definition valid_labels (clusters : list nat) : bool :=
  forallb (fun c => (1 <=? c)%nat) clusters
  && forallb (fun v => existsb (Nat.eqb v) clusters)
       (seq 1 (list_max clusters)).

Definition row_le (a b : Q * nat) : Prop := fst a <= fst b.

(** The mean b-value of the flat cluster labelled [ind]. *)
Definition cluster_mean (bvalues : list Q) (clusters : list nat) (ind : nat)
    : Q :=
  np_mean (compress (map (Nat.eqb ind) clusters) bvalues).

(** The mean b-value of the measurements whose shell index is [s]. *)
Definition shell_mean (bvalues : list Q) (shell_indices : list nat) (s : nat)
    : Q :=
  np_mean (compress (map (Nat.eqb s) shell_indices) bvalues).

(** What the classifier owes its caller, for [k] flat clusters: a shell
    index below [k] for every measurement, every index below [k] in use,
    the mean b-value of shell [s] at position [s] of [shell_bvalues], and
    these means in ascending order. *)
Record shells_of (bvalues : list Q) (k : nat) (shell_indices : list nat)
    (shell_bvalues : list Q) : Prop := mk_shells_of {
  so_length : length shell_indices = length bvalues;
  so_count : length shell_bvalues = k;
  so_range : forall s, In s shell_indices <-> (s < k)%nat;
  so_mean : forall s, (s < k)%nat ->
      nth s shell_bvalues 0 = shell_mean bvalues shell_indices s;
  so_sorted : StronglySorted Qle shell_bvalues
}.

(** Rows of [(delta, Delta)]: numeric equality and lexicographic order. *)
Definition row_eq (a b : Q * Q) : Prop := fst a == fst b /\ snd a == snd b.
Definition row_lt (a b : Q * Q) : Prop := row_compare a b = Lt.

(** The measurements whose row is one of [done] have been classified. *)
Definition processed (done : list (Q * Q)) (d : Q * Q) : bool :=
  existsb (fun u => row_eqb u d) done.

(** The classified measurements of shell [s], as a mask. *)
Definition members (done : list (Q * Q)) (deltas : list (Q * Q))
    (shell_indices : list nat) (s : nat) : list bool :=
  map2 (fun d x => processed done d && (s =? x)%nat) deltas shell_indices.

(** The state of the loop over [unique_deltas] once the rows of [done]
    have been handled: [si] is [self.shell_indices], [sbs] is the list
    [self.shell_bvalues] and [mi] is [max_index]. *)
Record classified (bvalues : list Q) (deltas done : list (Q * Q))
    (si : list nat) (sbs : list (list Q)) (mi : nat) : Prop := mk_classified {
  cl_length : length si = length deltas;
  cl_count : mi = length (concat sbs);
  cl_todo : forall p, (p < length deltas)%nat ->
      processed done (nth p deltas (0, 0)) = false -> nth p si O = O;
  cl_done : forall p, (p < length deltas)%nat ->
      processed done (nth p deltas (0, 0)) = true -> (nth p si O < mi)%nat;
  cl_onto : forall s, (s < mi)%nat ->
      exists p, (p < length deltas)%nat
                /\ processed done (nth p deltas (0, 0)) = true
                /\ nth p si O = s;
  cl_order : forall p q, (p < length deltas)%nat -> (q < length deltas)%nat ->
      processed done (nth p deltas (0, 0)) = true ->
      processed done (nth q deltas (0, 0)) = true ->
      row_lt (nth p deltas (0, 0)) (nth q deltas (0, 0)) ->
      (nth p si O < nth q si O)%nat;
  cl_mean : forall s, (s < mi)%nat ->
      nth s (concat sbs) 0
      = np_mean (compress (members done deltas si s) bvalues);
  cl_sorted : forall p q, (p < length deltas)%nat -> (q < length deltas)%nat ->
      processed done (nth p deltas (0, 0)) = true ->
      processed done (nth q deltas (0, 0)) = true ->
      row_eq (nth p deltas (0, 0)) (nth q deltas (0, 0)) ->
      (nth p si O <= nth q si O)%nat ->
      nth (nth p si O) (concat sbs) 0 <= nth (nth q si O) (concat sbs) 0
}.

(** The position at which the (delta, Delta) row of measurement [p]
    first occurs in the input. *)
Definition group_first_appearance (deltas : list (Q * Q)) (p : nat) : nat :=
  argmax (map (row_eqb (nth p deltas (0, 0))) deltas).

(** Shells numbered group by group in the order in which the groups first
    occur in the input. *)
Definition numbered_by_first_appearance (deltas : list (Q * Q))
    (shell_indices : list nat) : Prop :=
  forall p q, (p < length deltas)%nat -> (q < length deltas)%nat ->
    (group_first_appearance deltas p < group_first_appearance deltas q)%nat ->
    (nth p shell_indices O < nth q shell_indices O)%nat.

Section ShellMatrix.
Context `{SH : SphericalHarmonics}.

(** The matrix of shell [k]: dipy's function at the order of the shell's
    b-value and at the angles of the gradient directions of the
    measurements of the shell. *)
Definition sh_matrix_of (gd : list (list Q)) (si : list nat) (sb : list Q)
    (k : nat) : sh_matrix :=
  real_sym_sh_mrtrix (get_sh_order_from_bval (nth k sb 0))
    (cart2sphere (compress (map (Nat.eqb k) si) gd)).

End ShellMatrix.

(** The b-values of the measurements whose (delta, Delta) row is [u]. *)
Definition group_bvalues (b : list Q) (deltas : list (Q * Q)) (u : Q * Q)
    : list Q :=
  compress (map (row_eqb u) deltas) b.

(** The two conditions under which the loop over the groups goes through:
    every group has two measurements at least, and the classifier finds
    the same number of shells in every group. *)
Definition groups_classifiable (b d D : list Q) (t : Q) : bool :=
  let deltas := combine d D in
  let unique_deltas := np_unique_rows deltas in
  forallb (fun u => (2 <=? length (group_bvalues b deltas u))%nat)
    unique_deltas
  && same_length
       (map (fun u =>
               snd (relabel_clusters (group_bvalues b deltas u)
                      (fcluster (group_bvalues b deltas u) t)))
            unique_deltas).

(** Single linkage at distance [t]: two observations are adjacent when
    their distance is at most [t], and chained when a sequence of adjacent
    observations joins them. *)
Definition adjacent (bs : list Q) (t : Q) (i j : nat) : Prop :=
  (i < length bs)%nat /\ (j < length bs)%nat
  /\ (i = j \/ linked t (nth i bs 0) (nth j bs 0) = true).

Inductive chained (bs : list Q) (t : Q) : nat -> nat -> Prop :=
| chained_refl (i : nat) : (i < length bs)%nat -> chained bs t i i
| chained_step (i j k : nat) :
    chained bs t i j -> adjacent bs t j k -> chained bs t i k.

(** Within a (delta, Delta) group that has been handled, the shell
    b-values increase strictly with the shell index. *)
Definition strictly_sorted (deltas done : list (Q * Q)) (si : list nat)
    (sbs : list (list Q)) : Prop :=
  forall p q, (p < length deltas)%nat -> (q < length deltas)%nat ->
    processed done (nth p deltas (0, 0)) = true ->
    processed done (nth q deltas (0, 0)) = true ->
    row_eq (nth p deltas (0, 0)) (nth q deltas (0, 0)) ->
    (nth p si O < nth q si O)%nat ->
    nth (nth p si O) (concat sbs) 0 < nth (nth q si O) (concat sbs) 0.

(** A row of three entries on which the unit-norm test is decided by its
    margins: the rounding of the source cannot change the outcome. *)
Definition clear_row (row : list Q) : bool :=
  (length row =? 3)%nat
  && ((Qle_bool 0.99820081 (sum_squares row)
       && Qle_bool (sum_squares row) 1.00180081)
      || Qle_bool (sum_squares row) 0.99780121
      || Qle_bool 1.00220121 (sum_squares row)).

(** The b-value of the first measurement of shell [k]: the shell's
    representative in the sense of first occurrence. *)
Definition first_member_bvalue (b : list Q) (shell_indices : list nat)
    (k : nat) : Q :=
  nth (argmax (map (Nat.eqb k) shell_indices)) b 0.

(* ================================================================== *)
(** * Properties *)
(* ================================================================== *)

(** ** Comparisons *)

Lemma Qlt_bool_iff (x y : Q) : Qlt_bool x y = true <-> x < y.
Proof.
  unfold Qlt_bool. rewrite negb_true_iff. split.
  - intros H. apply Qnot_le_lt. intros Hle. apply Qle_bool_iff in Hle.
    congruence.
  - intros H. destruct (Qle_bool y x) eqn:E; [|reflexivity].
    apply Qle_bool_iff in E. exfalso. apply (Qlt_not_le _ _ H E).
Qed.


Lemma Qle_bool_false_iff (x y : Q) : Qle_bool x y = false <-> y < x.
Proof.
  rewrite <- Qlt_bool_iff. unfold Qlt_bool.
  destruct (Qle_bool x y); simpl; split; congruence.
Qed.

Lemma Qlt_bool_Qmin (x y z : Q) :
  Qlt_bool (Qmin x y) z = Qlt_bool x z || Qlt_bool y z.
Proof.
  destruct (Q.min_spec x y) as [[Hlt Hm] | [Hle Hm]];
    unfold Qlt_bool; rewrite Hm.
  - destruct (Qle_bool z x) eqn:E1; simpl; [|reflexivity].
    apply Qle_bool_iff in E1.
    assert (H : Qle_bool z y = true).
    { apply Qle_bool_iff. apply Qlt_le_weak. eapply Qle_lt_trans; eassumption. }
    rewrite H. reflexivity.
  - destruct (Qle_bool z y) eqn:E1; simpl.
    + apply Qle_bool_iff in E1.
      assert (H : Qle_bool z x = true).
      { apply Qle_bool_iff. eapply Qle_trans; eassumption. }
      rewrite H. reflexivity.
    + rewrite orb_true_r. reflexivity.
Qed.

Lemma Qlt_bool_Qmin_list (l : list Q) (x z : Q) :
  Qlt_bool (Qmin_list x l) z = existsb (fun y => Qlt_bool y z) (x :: l).
Proof.
  revert x. induction l as [|y l IH]; intros x; simpl.
  - rewrite orb_false_r. reflexivity.
  - unfold Qmin_list in *. simpl. rewrite IH. simpl.
    rewrite Qlt_bool_Qmin. rewrite orb_assoc. reflexivity.
Qed.

(** ** The result monad *)

Lemma bind_Return_inv {A B : Type} (m : result A) (k : A -> result B) (b : B) :
  bind m k = Return b -> exists a, m = Return a /\ k a = Return b.
Proof.
  destruct m as [a|e]; simpl; intros H; [eauto|discriminate].
Qed.

Ltac bind_inv H :=
  let a := fresh "a" in
  let Ha := fresh "H" a in
  apply bind_Return_inv in H; destruct H as (a & Ha & H).

(* ================================================================== *)
(** ** The input check *)
(* ================================================================== *)

Lemma sum_squares_nonneg (row : list Q) : 0 <= sum_squares row.
Proof.
  unfold sum_squares. induction row as [|x row IH]; cbn.
  - apply Qle_refl.
  - fold (Qsum (map (fun y => y * y) row)).
    replace 0 with (0 + 0) by reflexivity. apply Qplus_le_compat; [|exact IH].
    destruct (Qlt_le_dec x 0) as [H|H].
    + assert (E : x * x == (- x) * (- x)) by ring. rewrite E.
      apply Qmult_le_0_compat; apply Qlt_le_weak;
        apply Qopp_lt_compat in H; exact H.
    + apply Qmult_le_0_compat; exact H.
Qed.

(** The test on the sum of squares is the test of the source on the
    norm. *)
Lemma is_unit_vector_norm (row : list Q) :
  is_unit_vector_exact row = true <->
  (Rabs (sqrt (Q2R (sum_squares row)) - 1) < 1 / 1000)%R.
Proof.
  unfold is_unit_vector_exact. rewrite andb_true_iff, !Qlt_bool_iff.
  pose proof (sum_squares_nonneg row) as N. apply Qle_Rle in N.
  set (s := sum_squares row) in *.
  replace (Q2R 0) with 0%R in N by (unfold Q2R; cbn; lra).
  assert (L : (sqrt (999 / 1000 * (999 / 1000)) = 999 / 1000)%R)
    by (apply sqrt_square; lra).
  assert (U : (sqrt (1001 / 1000 * (1001 / 1000)) = 1001 / 1000)%R)
    by (apply sqrt_square; lra).
  assert (CL : Q2R 0.998001 = (999 / 1000 * (999 / 1000))%R)
    by (unfold Q2R; cbn; lra).
  assert (CU : Q2R 1.002001 = (1001 / 1000 * (1001 / 1000))%R)
    by (unfold Q2R; cbn; lra).
  split.
  - intros [H1 H2]. apply Qlt_Rlt in H1, H2. rewrite CL in H1. rewrite CU in H2.
    apply sqrt_lt_1 in H1; [|lra|lra]. apply sqrt_lt_1 in H2; [|lra|lra].
    rewrite L in H1. rewrite U in H2. apply Rabs_def1; lra.
  - intros H. apply Rabs_def2 in H. destruct H as [H2 H1].
    split; apply Rlt_Qlt.
    + rewrite CL. apply sqrt_lt_0; [lra|lra|]. rewrite L. lra.
    + rewrite CU. apply sqrt_lt_0; [lra|lra|]. rewrite U. lra.
Qed.

Lemma np_min_negative (a : ndarray) (m : Q) :
  np_min a = Return m -> Qlt_bool m 0 = has_negative a.
Proof.
  unfold np_min, has_negative. destruct (data a) as [|x l]; [discriminate|].
  intros H. injection H as <-. apply Qlt_bool_Qmin_list.
Qed.

Lemma np_min_nonempty (a : ndarray) :
  nonempty a = true -> exists m, np_min a = Return m.
Proof.
  unfold nonempty, np_min. destruct (data a); simpl; [discriminate|eauto].
Qed.

Lemma len_sized (a : ndarray) :
  sized a = true -> len a = Return (first_axis a).
Proof.
  unfold sized, len, first_axis, ndim.
  destruct (shape a); simpl; [discriminate|reflexivity].
Qed.

Lemma ndim_gt_1 (a : ndarray) :
  sized a = true -> (1 <? ndim a)%nat = negb (ndim a =? 1)%nat.
Proof.
  unfold sized. destruct (ndim a) as [|[|n]]; simpl; try reflexivity;
    discriminate.
Qed.

Lemma not_all_unit `{UN : UnitNormTest} (l : list (list Q)) :
  negb (forallb is_unit_vector l)
  = existsb (fun row => negb (is_unit_vector row)) l.
Proof.
  induction l as [|r l IH]; simpl; [reflexivity|].
  rewrite negb_andb, IH. reflexivity.
Qed.

Lemma check_is_validator_outcome `{UN : UnitNormTest} (bqg gd d D : ndarray) :
  sized bqg = true -> sized gd = true -> sized d = true -> sized D = true ->
  nonempty bqg = true -> nonempty d = true -> nonempty D = true ->
  check_acquisition_scheme bqg gd d D = validator_outcome bqg gd d D.
Proof.
  intros Sb Sg Sd SD Nb Nd ND.
  destruct (np_min_nonempty _ Nb) as [mb Hmb].
  destruct (np_min_nonempty _ Nd) as [md Hmd].
  destruct (np_min_nonempty _ ND) as [mD HmD].
  unfold check_acquisition_scheme, validator_outcome, first_violation, or_else.
  rewrite (len_sized _ Sb), (len_sized _ Sg), (len_sized _ Sd), (len_sized _ SD).
  rewrite Hmb, Hmd, HmD.
  rewrite (ndim_gt_1 _ Sb), (ndim_gt_1 _ Sd), (ndim_gt_1 _ SD).
  cbn [bind check_order List.find holds].
  rewrite (np_min_negative _ _ Hmb), (np_min_negative _ _ Hmd),
    (np_min_negative _ _ HmD).
  destruct (ndim bqg =? 1)%nat; cbn [negb]; [|reflexivity].
  destruct (first_axis bqg =? first_axis gd)%nat; cbn [negb]; [|reflexivity].
  destruct (first_axis bqg =? first_axis d)%nat; cbn [negb orb bind].
  2: reflexivity.
  destruct (first_axis bqg =? first_axis D)%nat; cbn [negb orb bind].
  2: reflexivity.
  destruct (ndim d =? 1)%nat; cbn [negb orb]; [|reflexivity].
  destruct (ndim D =? 1)%nat; cbn [negb orb]; [|reflexivity].
  destruct (has_negative d); cbn [negb orb bind]; [reflexivity|].
  destruct (has_negative D); cbn [negb orb bind]; [reflexivity|].
  destruct (ndim gd =? 2)%nat; cbn [negb orb andb]; [|reflexivity].
  destruct (nth 1 (shape gd) 0 =? 3)%nat; cbn [negb orb andb]; [|reflexivity].
  destruct (has_negative bqg); [reflexivity|].
  rewrite <- not_all_unit.
  destruct (forallb is_unit_vector (rows gd)); reflexivity.
Qed.

Lemma first_violation_None `{UN : UnitNormTest} (bqg gd d D : ndarray) :
  first_violation bqg gd d D = None <->
  forall v, holds v bqg gd d D = false.
Proof.
  unfold first_violation. split.
  - intros H v. apply (find_none _ _ H).
    unfold check_order. destruct v; simpl; tauto.
  - intros H. destruct (List.find _ _) eqn:E; [|reflexivity].
    apply find_some in E. destruct E as [_ E]. rewrite H in E. discriminate.
Qed.

(** C2, amended.  When the four arrays have one axis at least and the
    primary array, delta and Delta have one entry at least, the check raises
    a [ValueError] exactly when one of the eight listed conditions holds,
    and the error is that of the first condition that holds in the order
    shape, lengths, delta/Delta shape, delta/Delta sign, gradient_directions
    shape, primary sign, unit norm.  The eighth condition is that the
    source's floating-point test [abs(norm - 1.) < 0.001] fails on a row:
    it holds when a row of three entries has a norm that is off by 0.0011
    or more, and only when a row has a norm that is off by more than
    0.0009. *)
Theorem check_acquisition_scheme_reports_first_violation `{UN : UnitNormTest}
    (bqg gd d D : ndarray) :
  sized bqg = true -> sized gd = true -> sized d = true -> sized D = true ->
  nonempty bqg = true -> nonempty d = true -> nonempty D = true ->
  check_acquisition_scheme bqg gd d D = validator_outcome bqg gd d D
  /\ ((exists e, check_acquisition_scheme bqg gd d D = Raise e)
      <-> exists v, holds v bqg gd d D = true)
  /\ (forall v, first_violation bqg gd d D = Some v ->
        check_acquisition_scheme bqg gd d D = Raise (ValueError (message_of v)))
  /\ (Forall (fun row => length row = 3%nat) (rows gd) ->
      (holds NotUnitNorm bqg gd d D = true ->
         exists row, In row (rows gd)
           /\ (sum_squares row < 0.99820081
               \/ 1.00180081 < sum_squares row))
      /\ ((exists row, In row (rows gd)
             /\ (sum_squares row <= 0.99780121
                 \/ 1.00220121 <= sum_squares row)) ->
          holds NotUnitNorm bqg gd d D = true)).
Proof.
  intros Sb Sg Sd SD Nb Nd ND.
  pose proof (check_is_validator_outcome bqg gd d D Sb Sg Sd SD Nb Nd ND) as E.
  split; [exact E|]. rewrite E. unfold validator_outcome.
  split; [|split].
  - destruct (first_violation bqg gd d D) as [v|] eqn:F.
    + split; [|eauto]. intros _. apply find_some in F. exists v. tauto.
    + split.
      * intros [e He]. discriminate.
      * intros [v Hv]. rewrite (proj1 (first_violation_None _ _ _ _) F) in Hv.
        discriminate.
  - intros v ->. reflexivity.
  - intros L3. rewrite Forall_forall in L3. cbn [holds]. split.
    + intros H. apply existsb_exists in H. destruct H as (row & Hr & Hn).
      exists row. split; [exact Hr|]. apply negb_true_iff in Hn.
      destruct (Qlt_le_dec (sum_squares row) 0.99820081) as [G|G];
        [left; exact G|].
      destruct (Qlt_le_dec 1.00180081 (sum_squares row)) as [G'|G'];
        [right; exact G'|].
      rewrite (unit_norm_accepts row (L3 row Hr) G G') in Hn. discriminate.
    + intros (row & Hr & Hs). apply existsb_exists. exists row.
      split; [exact Hr|]. apply negb_true_iff.
      apply (unit_norm_rejects row (L3 row Hr) Hs).
Qed.

Lemma check_acquisition_scheme_reports_first_violation_witness :
  let bqg := array1 [0; 1000] in
  let gd := array2 3 [long_direction; [0; 1; 0]] in
  let d := array1 [0.01; 0.01] in
  let D := array1 [0.03; 0.03] in
  (sized bqg = true /\ sized gd = true /\ sized d = true /\ sized D = true
   /\ nonempty bqg = true /\ nonempty d = true /\ nonempty D = true)
  /\ @check_acquisition_scheme exact_unit_norm bqg gd d D
     = Raise (ValueError msg_unit_norm).
Proof.
  cbv zeta. split.
  - repeat split; reflexivity.
  - apply (@check_acquisition_scheme_reports_first_violation exact_unit_norm
             (array1 [0; 1000]) (array2 3 [long_direction; [0; 1; 0]])
             (array1 [0.01; 0.01]) (array1 [0.03; 0.03]));
      reflexivity.
Defined.

(** C2 as stated fails on two kinds of input.  A primary array without
    axes is not one-dimensional, so the first listed condition holds, but
    the test [ndim > 1] lets it pass and [len] raises [TypeError].  On empty
    arrays none of the listed conditions holds, but [np.min] raises
    [ValueError].  Neither input reaches the unit-norm test. *)
Lemma check_acquisition_scheme_degenerate_inputs :
  (@validator_outcome exact_unit_norm zero_d_array (array2 3 directions1)
     (array1 [0.01]) (array1 [0.03]) = Raise (ValueError msg_bqg_ndim)
   /\ @check_acquisition_scheme exact_unit_norm zero_d_array
        (array2 3 directions1) (array1 [0.01]) (array1 [0.03])
      = Raise (TypeError "len() of unsized object"))
  /\ (@validator_outcome exact_unit_norm (array1 []) (array2 3 [])
        (array1 []) (array1 []) = Return tt
      /\ @check_acquisition_scheme exact_unit_norm (array1 []) (array2 3 [])
           (array1 []) (array1 [])
         = Raise (ValueError
             "zero-size array to reduction operation minimum which has no identity")).
Proof.
  repeat split; reflexivity.
Qed.

Local Ltac CBN := cbn -[np_min has_negative rows is_unit_vector].
Lemma check_Return_inv `{UN : UnitNormTest} (bqg gd d D : ndarray) :
  check_acquisition_scheme bqg gd d D = Return tt ->
  exists n, shape bqg = [n] /\ shape gd = [n; 3%nat] /\ shape d = [n]
            /\ shape D = [n]
            /\ has_negative bqg = false /\ has_negative d = false
            /\ has_negative D = false
            /\ forallb is_unit_vector (rows gd) = true.
Proof.
  unfold check_acquisition_scheme, or_else, len, ndim.
  destruct bqg as [sb db], gd as [sg dg], d as [sd dd], D as [sD dD].
  cbn [shape data].
  CBN.
  destruct sb as [|n [|? ?]]; CBN; try discriminate.
  destruct sg as [|ng sg]; CBN; try discriminate.
  destruct (n =? ng)%nat eqn:E1; CBN; try discriminate.
  apply Nat.eqb_eq in E1. subst ng.
  destruct sd as [|nd sd]; CBN; try discriminate.
  destruct (n =? nd)%nat eqn:E2; CBN.
  2:{ destruct sD; CBN; discriminate. }
  apply Nat.eqb_eq in E2. subst nd.
  destruct sD as [|nD sD]; CBN; try discriminate.
  destruct (n =? nD)%nat eqn:E3; CBN; try discriminate.
  apply Nat.eqb_eq in E3. subst nD.
  destruct sd as [|? ?]; CBN; [|discriminate].
  destruct sD as [|? ?]; CBN; [|discriminate].
  destruct (np_min (mk_ndarray [n] dd)) as [md|] eqn:Hd; CBN; [|discriminate].
  rewrite (np_min_negative _ _ Hd).
  destruct (has_negative (mk_ndarray [n] dd)) eqn:Nd; CBN.
  { destruct (np_min (mk_ndarray [n] dD)); CBN; discriminate. }
  destruct (np_min (mk_ndarray [n] dD)) as [mD|] eqn:HD; CBN; [|discriminate].
  rewrite (np_min_negative _ _ HD).
  destruct (has_negative (mk_ndarray [n] dD)) eqn:ND; CBN.
  { discriminate. }
  destruct sg as [|c [|? ?]]; CBN; try discriminate.
  destruct (c =? 3)%nat eqn:E4; CBN; try discriminate.
  apply Nat.eqb_eq in E4. subst c.
  destruct (np_min (mk_ndarray [n] db)) as [mb|] eqn:Hb; CBN; [|discriminate].
  rewrite (np_min_negative _ _ Hb).
  destruct (has_negative (mk_ndarray [n] db)) eqn:Nb; CBN; [discriminate|].
  destruct (forallb is_unit_vector _) eqn:U; CBN; [|discriminate].
  intros _. exists n. repeat split; assumption.
Qed.

(** ** Inputs on which the rounding of the unit-norm test plays no part *)

Lemma clear_row_decided `{UN : UnitNormTest} (row : list Q) :
  clear_row row = true -> is_unit_vector row = is_unit_vector_exact row.
Proof.
  unfold clear_row. rewrite andb_true_iff, !orb_true_iff, andb_true_iff.
  rewrite Nat.eqb_eq, !Qle_bool_iff. intros [L [[[H1 H2]|H]|H]].
  - rewrite (unit_norm_accepts row L H1 H2).
    symmetry. apply (@unit_norm_accepts exact_unit_norm row L H1 H2).
  - rewrite (unit_norm_rejects row L (or_introl H)).
    symmetry. apply (@unit_norm_rejects exact_unit_norm row L (or_introl H)).
  - rewrite (unit_norm_rejects row L (or_intror H)).
    symmetry. apply (@unit_norm_rejects exact_unit_norm row L (or_intror H)).
Qed.

Lemma clear_rows_decided `{UN : UnitNormTest} (l : list (list Q)) :
  forallb clear_row l = true ->
  forallb is_unit_vector l = forallb is_unit_vector_exact l.
Proof.
  induction l as [|row l IH]; cbn; [reflexivity|].
  rewrite andb_true_iff. intros [H1 H2].
  rewrite (clear_row_decided row H1), (IH H2). reflexivity.
Qed.

Lemma check_acquisition_scheme_decided `{UN : UnitNormTest}
    (bqg gd d D : ndarray) :
  forallb clear_row (rows gd) = true ->
  check_acquisition_scheme bqg gd d D
  = @check_acquisition_scheme exact_unit_norm bqg gd d D.
Proof.
  intros H. unfold check_acquisition_scheme.
  rewrite (clear_rows_decided _ H). reflexivity.
Qed.

(* ================================================================== *)
(** ** One measurement *)
(* ================================================================== *)

Import MipyAcquisitionScheme.

Lemma init_single_measurement `{SH : SphericalHarmonics}
    (b : Q) (gd : list (list Q)) (qs Gs ds Ds : list Q) (t thr : Q) :
  exists s w,
    __init__ [b] gd qs Gs ds Ds t thr = Return (s, w)
    /\ bvalues s = [b]
    /\ shell_indices s = [O]
    /\ shell_bvalues s = [b]
    /\ shell_b0_mask s = [Qle_bool b thr]
    /\ shell_qvalues s = qs /\ shell_gradient_strengths s = Gs
    /\ shell_delta s = ds /\ shell_Delta s = Ds
    /\ b0_threshold s = thr /\ number_of_measurements s = 1%nat.
Proof.
  unfold __init__. cbn -[get_sh_order_from_bval]. unfold Qlt_bool.
  destruct (Qle_bool b thr) eqn:E; cbn -[get_sh_order_from_bval].
  - eexists _, _. split; [reflexivity|]. cbn. repeat split; reflexivity.
  - eexists _, _. split; [reflexivity|]. cbn. repeat split; reflexivity.
Qed.

Lemma unify_one_broadcast (a : ndarray) (d : float_or_array) (d_ : ndarray) :
  unify_one a d = Return d_ -> wf_ndarray a = true -> ndim a = 1%nat ->
  broadcast d (length (data a)) = data d_.
Proof.
  unfold unify_one, wf_ndarray, ndim, len. destruct d as [x|a']; cbn.
  - destruct (shape a) as [|n [|? ?]]; cbn; try discriminate.
    intros H W _. injection H as <-. cbn. apply Nat.eqb_eq in W.
    rewrite W. f_equal. lia.
  - intros H _ _. injection H as <-. reflexivity.
Qed.

Lemma valid_input_inv `{UN : UnitNormTest} (a gd : ndarray) (delta Delta : float_or_array) :
  valid_input a gd delta Delta = true ->
  exists d_ D_ n,
    unify_length_reference_delta_Delta a delta Delta = Return (d_, D_)
    /\ check_acquisition_scheme a gd d_ D_ = Return tt
    /\ shape a = [n] /\ shape gd = [n; 3%nat]
    /\ length (data a) = n /\ length (data d_) = n /\ length (data D_) = n
    /\ broadcast delta n = data d_ /\ broadcast Delta n = data D_.
Proof.
  unfold valid_input.
  destruct (unify_length_reference_delta_Delta a delta Delta)
    as [[d_ D_]|] eqn:U; [|discriminate].
  destruct (check_acquisition_scheme a gd d_ D_) as [[]|] eqn:C;
    [|rewrite andb_false_r; discriminate].
  rewrite andb_true_r, !andb_true_iff. intros [[Wa Wd] WD].
  destruct (check_Return_inv _ _ _ _ C) as (n & Sa & Sg & Sd & SD & _).
  assert (La : length (data a) = n).
  { unfold wf_ndarray in Wa. rewrite Sa in Wa. apply Nat.eqb_eq in Wa.
    cbn in Wa. lia. }
  exists d_, D_, n. repeat split; try assumption.
  - unfold wf_ndarray in Wd. rewrite Sd in Wd. apply Nat.eqb_eq in Wd.
    cbn in Wd. lia.
  - unfold wf_ndarray in WD. rewrite SD in WD. apply Nat.eqb_eq in WD.
    cbn in WD. lia.
  - unfold unify_length_reference_delta_Delta in U.
    bind_inv U. bind_inv U. injection U as <- <-.
    rewrite <- La. apply unify_one_broadcast; try assumption.
    unfold ndim. rewrite Sa. reflexivity.
  - unfold unify_length_reference_delta_Delta in U.
    bind_inv U. bind_inv U. injection U as <- <-.
    rewrite <- La. apply unify_one_broadcast; try assumption.
    unfold ndim. rewrite Sa. reflexivity.
Qed.

Lemma length_1_inv {A : Type} (l : list A) :
  length l = 1%nat -> exists x, l = [x].
Proof.
  destruct l as [|x [|? ?]]; cbn; try discriminate. eauto.
Qed.

(** C9.  On a valid input with one measurement each entry point returns a
    scheme of one shell with index 0.  The b-value [b] of the measurement
    is the entry of the anchor array for [acquisition_scheme_from_bvalues]
    and the conversion of that entry for the other two entry points; the
    shell b-value is [b] and the b0 flag of the shell is the comparison of
    [b] with the [b0_threshold] that was passed in.  The classifier is not
    on this path: called on the one b-value it raises. *)
Theorem single_measurement_bypasses_clustering
    `{SH : SphericalHarmonics} `{GC : GradientConversions}
    `{UN : UnitNormTest}
    (anchor gd : ndarray) (delta Delta : float_or_array) (t thr : Q) :
  valid_input anchor gd delta Delta = true ->
  first_axis anchor = 1%nat ->
  exists x d D,
    data anchor = [x] /\ broadcast delta 1 = [d] /\ broadcast Delta 1 = [D]
    /\ forall entry b,
         In (entry, b)
            [(acquisition_scheme_from_bvalues, x);
             (acquisition_scheme_from_qvalues, b_from_q x d D);
             (acquisition_scheme_from_gradient_strengths, b_from_g x d D)] ->
         exists s w,
           entry anchor gd delta Delta t thr = Return (s, w)
           /\ bvalues s = [b]
           /\ number_of_measurements s = 1%nat
           /\ b0_threshold s = thr
           /\ shell_indices s = [O]
           /\ shell_bvalues s = [b]
           /\ shell_b0_mask s = [Qle_bool b thr]
           /\ (Qle_bool b thr = true <-> b <= thr)
           /\ calculate_shell_bvalues_and_indices (bvalues s) t
              = Raise (ValueError msg_linkage).
Proof.
  intros V L.
  destruct (valid_input_inv _ _ _ _ V)
    as (d_ & D_ & n & U & C & Sa & Sg & La & Ld & LD & Bd & BD).
  unfold first_axis in L. rewrite Sa in L. cbn in L. subst n.
  destruct (length_1_inv _ La) as [x Hx].
  destruct (length_1_inv _ Ld) as [xd Hxd].
  destruct (length_1_inv _ LD) as [xD HxD].
  exists x, xd, xD. split; [exact Hx|].
  split; [rewrite Bd; exact Hxd|]. split; [rewrite BD; exact HxD|].
  intros entry b He. cbn in He.
  destruct He as [He|[He|[He|[]]]]; injection He as <- <-.
  - unfold acquisition_scheme_from_bvalues. rewrite U. cbn [bind].
    rewrite C. cbn [bind]. rewrite Hx.
    destruct (init_single_measurement x (rows gd)
                (map3 q_from_b [x] (data d_) (data D_))
                (map3 g_from_b [x] (data d_) (data D_))
                (data d_) (data D_) t thr)
      as (s & w & E & Hb & Hi & Hsb & Hm & _ & _ & _ & _ & Ht & Hn).
    exists s, w. rewrite E, Hb. repeat split; try assumption;
      apply Qle_bool_iff.
  - unfold acquisition_scheme_from_qvalues. rewrite U. cbn [bind].
    rewrite C. cbn [bind]. rewrite La, Bd, BD, Hx, Hxd, HxD. cbn [map3 map2].
    destruct (init_single_measurement (b_from_q x xd xD) (rows gd)
                [x] [g_from_q x xd] [xd] [xD] t thr)
      as (s & w & E & Hb & Hi & Hsb & Hm & _ & _ & _ & _ & Ht & Hn).
    exists s, w. rewrite E, Hb.
    repeat split; try assumption; apply Qle_bool_iff.
  - unfold acquisition_scheme_from_gradient_strengths. rewrite U. cbn [bind].
    rewrite C. cbn [bind]. rewrite La, Bd, BD, Hx, Hxd, HxD. cbn [map3 map2].
    destruct (init_single_measurement (b_from_g x xd xD) (rows gd)
                [q_from_g x xd] [x] [xd] [xD] t thr)
      as (s & w & E & Hb & Hi & Hsb & Hm & _ & _ & _ & _ & Ht & Hn).
    exists s, w. rewrite E, Hb.
    repeat split; try assumption; apply Qle_bool_iff.
Qed.

Lemma single_measurement_bypasses_clustering_witness :
  let anchor := array1 [1e9] in
  let gd := array2 3 directions1 in
  (@valid_input exact_unit_norm anchor gd (Float 0.01)
     (Array (array1 [0.03])) = true
   /\ first_axis anchor = 1%nat)
  /\ exists s w,
       @acquisition_scheme_from_bvalues symbolic_sh sample_conversions
         exact_unit_norm anchor gd (Float 0.01) (Array (array1 [0.03]))
         50e6 10e6
       = Return (s, w)
       /\ bvalues s = [1e9]
       /\ number_of_measurements s = 1%nat
       /\ b0_threshold s = 10e6
       /\ shell_indices s = [O]
       /\ shell_bvalues s = [1e9]
       /\ shell_b0_mask s = [false]
       /\ (Qle_bool 1e9 10e6 = true <-> 1e9 <= 10e6)
       /\ calculate_shell_bvalues_and_indices (bvalues s) 50e6
          = Raise (ValueError msg_linkage).
Proof.
  cbv zeta. split.
  - split; reflexivity.
  - destruct (@single_measurement_bypasses_clustering symbolic_sh
                sample_conversions exact_unit_norm (array1 [1e9])
                (array2 3 directions1) (Float 0.01) (Array (array1 [0.03]))
                50e6 10e6 eq_refl eq_refl)
      as (x & d & D & Hx & _ & _ & H).
    injection Hx as <-.
    apply (H acquisition_scheme_from_bvalues 1e9). left. reflexivity.
Defined.
(** ** Lists *)

Lemma filter_all {A : Type} (f : A -> bool) (l : list A) :
  forallb f l = true -> List.filter f l = l.
Proof.
  induction l as [|x l IH]; cbn; [reflexivity|].
  rewrite andb_true_iff. intros [-> H]. rewrite IH by assumption. reflexivity.
Qed.

Lemma existsb_eqb_In (v : nat) (l : list nat) :
  existsb (Nat.eqb v) l = true <-> In v l.
Proof.
  rewrite existsb_exists. split.
  - intros (x & Hx & E). apply Nat.eqb_eq in E. subst. assumption.
  - intros H. exists v. split; [assumption|apply Nat.eqb_refl].
Qed.

Lemma list_max_In (l : list nat) (x : nat) : In x l -> (x <= list_max l)%nat.
Proof.
  intros H. pose proof (proj1 (list_max_le l (list_max l)) (Nat.le_refl _)) as F.
  rewrite Forall_forall in F. apply F. assumption.
Qed.

Lemma np_unique_In (l : list nat) (v : nat) : In v (np_unique l) <-> In v l.
Proof.
  unfold np_unique. rewrite filter_In, in_seq, existsb_eqb_In. split.
  - tauto.
  - intros H. pose proof (list_max_In _ _ H). split; [lia|assumption].
Qed.

Lemma valid_labels_spec (clusters : list nat) :
  valid_labels clusters = true <->
  (forall c, In c clusters <-> (1 <= c <= list_max clusters)%nat).
Proof.
  unfold valid_labels. rewrite andb_true_iff, !forallb_forall. split.
  - intros [H1 H2] c. split.
    + intros Hc. split; [apply Nat.leb_le, H1, Hc|apply list_max_In, Hc].
    + intros Hc. apply existsb_eqb_In, H2, in_seq. lia.
  - intros H. split.
    + intros c Hc. apply Nat.leb_le. apply H in Hc. lia.
    + intros v Hv. apply in_seq in Hv. apply existsb_eqb_In, H. lia.
Qed.

Lemma np_unique_valid (clusters : list nat) :
  valid_labels clusters = true ->
  np_unique clusters = seq 1 (list_max clusters).
Proof.
  intros V. pose proof (proj1 (valid_labels_spec _) V) as H.
  unfold np_unique. cbn [seq List.filter].
  destruct (existsb (Nat.eqb 0) clusters) eqn:E.
  - apply existsb_eqb_In, H in E. lia.
  - apply filter_all. apply forallb_forall. intros v Hv.
    apply in_seq in Hv. apply existsb_eqb_In, H. lia.
Qed.

Lemma fold_insert_seq {X : Type} (g : nat -> X) (d : X) (m a : nat)
    (pre : list X) :
  length pre = a ->
  fold_left (fun cb ind => <[ (ind - 1)%nat := g ind ]> cb) (seq (S a) m)
    (pre ++ repeat d m)
  = pre ++ map g (seq (S a) m).
Proof.
  revert a pre. induction m as [|m IH]; intros a pre L; cbn [seq fold_left map repeat].
  - reflexivity.
  - replace (S a - 1)%nat with (length pre + 0)%nat by lia.
    rewrite insert_app_r. cbn.
    replace (pre ++ g (S a) :: repeat d m)
      with ((pre ++ [g (S a)]) ++ repeat d m)
      by (rewrite <- app_assoc; reflexivity).
    rewrite IH by (rewrite length_app; cbn; lia).
    rewrite <- app_assoc. reflexivity.
Qed.

Lemma Qsum_le_bound (l : list Q) (c : Q) :
  (forall x, In x l -> x <= c) ->
  Qsum l <= inject_Z (Z.of_nat (length l)) * c.
Proof.
  induction l as [|x l IH]; intros H.
  - cbn. rewrite Qmult_0_l. apply Qle_refl.
  - cbn [Qsum fold_right length]. fold (Qsum l).
    rewrite Nat2Z.inj_succ, <- Z.add_1_r, inject_Z_plus.
    rewrite Qmult_plus_distr_l, Qmult_1_l, Qplus_comm.
    apply Qplus_le_compat.
    + apply IH. intros y Hy. apply H. right. exact Hy.
    + apply H. left. reflexivity.
Qed.

Lemma np_mean_le_bound (l : list Q) (c : Q) :
  l <> [] -> (forall x, In x l -> x <= c) -> np_mean l <= c.
Proof.
  intros N H. unfold np_mean. apply Qle_shift_div_r.
  - destruct l as [|x l]; [congruence|]. cbn [length].
    change 0 with (inject_Z 0). rewrite <- Zlt_Qlt. lia.
  - rewrite Qmult_comm. apply Qsum_le_bound, H.
Qed.

Lemma compress_In {A : Type} (mask : list bool) (a : list A) (x : A) (d : A) :
  In x (compress mask a) ->
  exists p, (p < length a)%nat /\ nth p mask false = true /\ nth p a d = x.
Proof.
  revert a. induction mask as [|m mask IH]; intros [|y a]; cbn;
    try tauto.
  destruct m; cbn.
  - intros [->|H].
    + exists O. split; [lia|]. split; reflexivity.
    + destruct (IH a H) as (p & Lp & Hm & Hp). exists (S p).
      split; [lia|]. split; assumption.
  - intros H. destruct (IH a H) as (p & Lp & Hm & Hp). exists (S p).
    split; [lia|]. split; assumption.
Qed.

Lemma In_compress {A : Type} (mask : list bool) (a : list A) (p : nat) (d : A) :
  (p < length a)%nat -> nth p mask false = true ->
  In (nth p a d) (compress mask a).
Proof.
  revert a p. induction mask as [|m mask IH]; intros [|y a] p Lp H;
    cbn in *; try lia.
  - destruct p; discriminate.
  - destruct p as [|p].
    + subst m. left. reflexivity.
    + destruct m; [right|]; apply IH; try assumption; lia.
Qed.

Lemma nth_map_eqb (k : nat) (si : list nat) (p : nat) :
  nth p (map (Nat.eqb k) si) false = true <->
  (p < length si)%nat /\ nth p si O = k.
Proof.
  destruct (lt_dec p (length si)) as [L|L].
  - rewrite (nth_indep _ false (k =? O)%nat) by (rewrite length_map; exact L).
    rewrite (map_nth (Nat.eqb k)), Nat.eqb_eq. split.
    + intros ->. split; [exact L|reflexivity].
    + intros [_ ->]. reflexivity.
  - rewrite nth_overflow by (rewrite length_map; lia). split.
    + discriminate.
    + intros [H _]. lia.
Qed.

Lemma StronglySorted_nth (l : list Q) (i j : nat) :
  StronglySorted Qle l -> (i <= j)%nat -> (j < length l)%nat ->
  nth i l 0 <= nth j l 0.
Proof.
  intros S. revert i j. induction S as [|x l S IH F]; intros i j Hij Lj;
    cbn in *; [lia|].
  destruct i as [|i], j as [|j]; try lia.
  - apply Qle_refl.
  - rewrite Forall_forall in F. apply F, nth_In. lia.
  - apply IH; lia.
Qed.


(** ** Sorting the rows of cluster means *)

Lemma insert_row_perm (r : Q * nat) (l : list (Q * nat)) :
  Permutation (insert_row r l) (r :: l).
Proof.
  induction l as [|r' l IH]; cbn; [reflexivity|].
  destruct (Qle_bool (fst r) (fst r')); [reflexivity|].
  rewrite IH. apply perm_swap.
Qed.

Lemma sort_rows_perm (l : list (Q * nat)) : Permutation (sort_rows l) l.
Proof.
  induction l as [|r l IH]; cbn; [reflexivity|].
  rewrite insert_row_perm. constructor. assumption.
Qed.

Lemma insert_row_sorted (r : Q * nat) (l : list (Q * nat)) :
  StronglySorted row_le l -> StronglySorted row_le (insert_row r l).
Proof.
  induction 1 as [|r' l Hs IH Hall]; cbn.
  - repeat constructor.
  - destruct (Qle_bool (fst r) (fst r')) eqn:E.
    + apply Qle_bool_iff in E. constructor.
      * constructor; assumption.
      * constructor; [exact E|].
        rewrite Forall_forall in *. intros x Hx. unfold row_le in *.
        eapply Qle_trans; [exact E|apply Hall, Hx].
    + apply Qle_bool_false_iff in E. constructor; [assumption|].
      rewrite Forall_forall in *. intros x Hx.
      apply (Permutation_in _ (insert_row_perm r l)) in Hx.
      destruct Hx as [<-|Hx]; [apply Qlt_le_weak, E|apply Hall, Hx].
Qed.

Lemma sort_rows_sorted (l : list (Q * nat)) :
  StronglySorted row_le (sort_rows l).
Proof.
  induction l as [|r l IH]; cbn; [constructor|].
  apply insert_row_sorted, IH.
Qed.

Lemma StronglySorted_map_fst (l : list (Q * nat)) :
  StronglySorted row_le l -> StronglySorted Qle (map fst l).
Proof.
  induction 1 as [|r l Hs IH Hall]; cbn; constructor; [assumption|].
  rewrite Forall_forall in *. intros x Hx. apply in_map_iff in Hx.
  destruct Hx as (y & <- & Hy). apply Hall, Hy.
Qed.

(** ** The assignment of shell indices *)

Lemma assign_where_map2 (ind i : nat) (clusters si : list nat) :
  length si = length clusters ->
  assign_where (map (Nat.eqb ind) clusters) i si
  = map2 (fun c s => if (ind =? c)%nat then i else s) clusters si.
Proof.
  revert si. induction clusters as [|c cl IH]; intros [|s si] L; cbn in *;
    try reflexivity; try discriminate.
  rewrite IH by lia. reflexivity.
Qed.

Lemma length_map2 {A B C : Type} (f : A -> B -> C) (a : list A) (b : list B) :
  length a = length b -> length (map2 f a b) = length a.
Proof.
  revert b. induction a as [|x a IH]; intros [|y b] L; cbn in *;
    try reflexivity; try discriminate.
  rewrite IH by lia. reflexivity.
Qed.

Lemma index_of_lt (x : nat) (l : list nat) :
  In x l -> (index_of x l < length l)%nat.
Proof.
  induction l as [|y l IH]; cbn; [tauto|].
  destruct (x =? y)%nat eqn:E; [lia|].
  apply Nat.eqb_neq in E. intros [H|H]; [congruence|]. apply IH in H. lia.
Qed.

Lemma nth_index_of (x d : nat) (l : list nat) :
  In x l -> nth (index_of x l) l d = x.
Proof.
  induction l as [|y l IH]; cbn; [tauto|].
  destruct (x =? y)%nat eqn:E.
  - apply Nat.eqb_eq in E. auto.
  - apply Nat.eqb_neq in E. intros [H|H]; [congruence|]. auto.
Qed.

Lemma index_of_nth (i d : nat) (l : list nat) :
  NoDup l -> (i < length l)%nat -> index_of (nth i l d) l = i.
Proof.
  intros N. revert i. induction N as [|y l Hy N IH]; intros i L; cbn in *.
  - lia.
  - destruct i as [|i].
    + rewrite Nat.eqb_refl. reflexivity.
    + destruct (nth i l d =? y)%nat eqn:E.
      * apply Nat.eqb_eq in E. exfalso. apply Hy. rewrite <- E.
        apply nth_In. lia.
      * rewrite IH by lia. reflexivity.
Qed.

Lemma map2_ext_in {A B C : Type} (f g : A -> B -> C) (a : list A)
    (b : list B) :
  (forall x y, In x a -> In y b -> f x y = g x y) -> map2 f a b = map2 g a b.
Proof.
  revert b. induction a as [|x a IH]; intros [|y b] H; cbn; try reflexivity.
  rewrite H by (left; reflexivity). f_equal.
  apply IH. intros x' y' Hx Hy. apply H; right; assumption.
Qed.

Lemma map2_snd {A B : Type} (a : list A) (b : list B) :
  length b = length a -> map2 (fun _ y => y) a b = b.
Proof.
  revert b. induction a as [|x a IH]; intros [|y b] L; cbn in *;
    try reflexivity; try discriminate.
  rewrite IH by lia. reflexivity.
Qed.

Lemma map2_map2_r {A B C : Type} (f : A -> C -> C) (g : A -> B -> C)
    (a : list A) (b : list B) :
  map2 f a (map2 g a b) = map2 (fun x y => f x (g x y)) a b.
Proof.
  revert b. induction a as [|x a IH]; intros [|y b]; cbn; try reflexivity.
  rewrite IH. reflexivity.
Qed.

Lemma assign_loop (clusters : list nat) (o : list nat) :
  NoDup o ->
  forall (a : nat) (si : list nat),
    length si = length clusters ->
    fold_left
      (fun si '(i, ind) => assign_where (map (Nat.eqb ind) clusters) i si)
      (combine (seq a (length o)) o) si
    = map2 (fun c s => if existsb (Nat.eqb c) o
                       then (a + index_of c o)%nat else s) clusters si.
Proof.
  induction 1 as [|ind o Hind N IH]; intros a si L.
  - cbn. symmetry. apply map2_snd. assumption.
  - cbn [length seq combine fold_left].
    rewrite assign_where_map2 by assumption.
    rewrite IH by (rewrite length_map2; lia).
    rewrite map2_map2_r. apply map2_ext_in. intros c s _ _.
    cbn [existsb index_of].
    destruct (c =? ind)%nat eqn:E.
    + apply Nat.eqb_eq in E. subst c. rewrite Nat.eqb_refl.
      destruct (existsb (Nat.eqb ind) o) eqn:E2.
      * apply existsb_eqb_In in E2. contradiction.
      * cbn. f_equal. lia.
    + rewrite Nat.eqb_sym, E. cbn.
      destruct (existsb (Nat.eqb c) o); [f_equal; lia|reflexivity].
Qed.

Lemma map2_const_l {A B C : Type} (f : A -> C) (a : list A) (b : list B) :
  length b = length a -> map2 (fun x _ => f x) a b = map f a.
Proof.
  revert b. induction a as [|x a IH]; intros [|y b] L; cbn in *;
    try reflexivity; try discriminate.
  rewrite IH by lia. reflexivity.
Qed.

(** ** What the relabelling computes *)

Lemma relabel_clusters_closed_form (bvalues : list Q) (clusters : list nat) :
  valid_labels clusters = true ->
  length clusters = length bvalues ->
  let sorted :=
    sort_rows (map (fun ind => (cluster_mean bvalues clusters ind, ind))
                   (seq 1 (list_max clusters))) in
  relabel_clusters bvalues clusters
  = (map (fun c => index_of c (map snd sorted)) clusters, map fst sorted)
  /\ Permutation (map snd sorted) (seq 1 (list_max clusters))
  /\ Forall (fun r => fst r = cluster_mean bvalues clusters (snd r)) sorted.
Proof.
  intros V L sorted.
  assert (P : Permutation (map snd sorted) (seq 1 (list_max clusters))).
  { unfold sorted. rewrite sort_rows_perm, map_map. cbn. rewrite map_id.
    reflexivity. }
  assert (N : NoDup (map snd sorted)).
  { eapply Permutation_NoDup; [symmetry; exact P|apply seq_NoDup]. }
  split; [|split; [exact P|]].
  - unfold relabel_clusters. rewrite np_unique_valid by assumption.
    pose proof (fold_insert_seq
                  (fun ind => (cluster_mean bvalues clusters ind, ind))
                  (0, O) (list_max clusters) O [] eq_refl) as F.
    cbn [app] in F. unfold cluster_mean in F at 1. rewrite F.
    fold sorted. f_equal.
    rewrite length_map, <- (length_map snd sorted).
    rewrite assign_loop; [|assumption|rewrite repeat_length; lia].
    rewrite <- L.
    rewrite (map2_ext_in _ (fun c _ => index_of c (map snd sorted))).
    + apply map2_const_l. rewrite repeat_length. reflexivity.
    + intros c s Hc _.
      assert (In c (map snd sorted)) as Hin.
      { apply (Permutation_in _ (Permutation_sym P)), in_seq.
        apply (proj1 (valid_labels_spec _) V) in Hc. lia. }
      apply existsb_eqb_In in Hin. rewrite Hin. reflexivity.
  - unfold sorted. rewrite Forall_forall. intros r Hr.
    apply (Permutation_in _ (sort_rows_perm _)) in Hr.
    apply in_map_iff in Hr. destruct Hr as (ind & <- & _). reflexivity.
Qed.

Lemma map_ext_in_eqb (s : nat) (o clusters : list nat) :
  NoDup o -> (s < length o)%nat -> (forall c, In c clusters -> In c o) ->
  map (Nat.eqb s) (map (fun c => index_of c o) clusters)
  = map (Nat.eqb (nth s o O)) clusters.
Proof.
  intros N L H. rewrite map_map. apply map_ext_in. intros c Hc.
  destruct (nth s o O =? c)%nat eqn:E.
  - apply Nat.eqb_eq in E. subst c. rewrite index_of_nth by assumption.
    apply Nat.eqb_refl.
  - apply Nat.eqb_neq in E. apply Nat.eqb_neq. intros ->. apply E.
    apply nth_index_of. apply H, Hc.
Qed.

Lemma relabel_clusters_spec (bvalues : list Q) (clusters : list nat) :
  valid_labels clusters = true ->
  length clusters = length bvalues ->
  shells_of bvalues (list_max clusters)
    (fst (relabel_clusters bvalues clusters))
    (snd (relabel_clusters bvalues clusters))
  /\ exists o, NoDup o
       /\ (forall c, In c clusters -> In c o)
       /\ fst (relabel_clusters bvalues clusters)
          = map (fun c => index_of c o) clusters.
Proof.
  intros V L.
  destruct (relabel_clusters_closed_form bvalues clusters V L) as (E & P & F).
  set (sorted := sort_rows _) in *. rewrite E. cbn [fst snd].
  set (o := map snd sorted) in *.
  assert (N : NoDup o).
  { eapply Permutation_NoDup; [symmetry; exact P|apply seq_NoDup]. }
  assert (Lo : length o = list_max clusters).
  { rewrite (Permutation_length P). apply length_seq. }
  assert (Ho : forall c, In c clusters -> In c o).
  { intros c Hc. apply (Permutation_in _ (Permutation_sym P)), in_seq.
    apply (proj1 (valid_labels_spec _) V) in Hc. lia. }
  split; [|exists o; repeat split; assumption].
  constructor.
  - rewrite length_map. assumption.
  - rewrite length_map. unfold o in Lo. rewrite length_map in Lo. exact Lo.
  - intros s. rewrite in_map_iff. split.
    + intros (c & <- & Hc). rewrite <- Lo. apply index_of_lt, Ho, Hc.
    + intros Hs. exists (nth s o O). split.
      * apply index_of_nth; [assumption|lia].
      * apply (proj1 (valid_labels_spec _) V).
        assert (In (nth s o O) o) as Hin by (apply nth_In; lia).
        apply (Permutation_in _ P), in_seq in Hin. lia.
  - intros s Hs. unfold shell_mean.
    rewrite map_ext_in_eqb by (try assumption; lia).
    change 0 with (fst (0, O)). rewrite map_nth.
    assert (Hin : In (nth s sorted (0, O)) sorted).
    { apply nth_In. unfold o in Lo. rewrite length_map in Lo. lia. }
    rewrite Forall_forall in F. rewrite (F _ Hin). unfold cluster_mean.
    unfold o. change O with (snd (0, O)) at 2. rewrite map_nth. reflexivity.
  - apply StronglySorted_map_fst, sort_rows_sorted.
Qed.

(** ** The numbering of the flat clusters *)

Lemma number_keys_In (keys : list nat) (c : nat) :
  In c (number_keys keys)
  <-> (1 <= c <= length (nodup Nat.eq_dec keys))%nat.
Proof.
  unfold number_keys. rewrite in_map_iff. split.
  - intros (k & <- & Hk).
    assert (In k (nodup Nat.eq_dec keys)) as H by (apply nodup_In, Hk).
    apply index_of_lt in H. lia.
  - intros [H1 H2]. destruct c as [|i]; [lia|].
    exists (nth i (nodup Nat.eq_dec keys) O). split.
    + rewrite index_of_nth; [reflexivity|apply NoDup_nodup|lia].
    + eapply nodup_In. apply nth_In. lia.
Qed.

Lemma list_max_interval (l : list nat) (m : nat) :
  (forall c, In c l <-> (1 <= c <= m)%nat) -> list_max l = m.
Proof.
  intros H. apply Nat.le_antisymm.
  - apply list_max_le, Forall_forall. intros x Hx. apply H in Hx. lia.
  - destruct m as [|m]; [lia|]. apply list_max_In, H. lia.
Qed.

Lemma number_keys_valid (keys : list nat) :
  valid_labels (number_keys keys) = true.
Proof.
  apply valid_labels_spec. intros c.
  rewrite (list_max_interval _ _ (number_keys_In keys)).
  apply number_keys_In.
Qed.

Lemma fcluster_valid (Z : list Q) (t : Q) :
  valid_labels (fcluster Z t) = true /\ length (fcluster Z t) = length Z.
Proof.
  unfold fcluster. split; [apply number_keys_valid|].
  unfold number_keys. rewrite !length_map, length_seq. reflexivity.
Qed.

Lemma list_max_pos (l : list nat) :
  l <> [] -> Forall (fun c => (1 <= c)%nat) l -> (1 <= list_max l)%nat.
Proof.
  destruct l as [|x l]; [congruence|]. intros _ F.
  apply Forall_inv in F. cbn. lia.
Qed.

(** The classifier on two observations at least. *)
Lemma calculate_shell_bvalues_and_indices_spec (bvalues : list Q) (t : Q) :
  (2 <= length bvalues)%nat ->
  exists si sb,
    calculate_shell_bvalues_and_indices bvalues t = Return (si, sb)
    /\ (si, sb) = relabel_clusters bvalues (fcluster bvalues t)
    /\ shells_of bvalues (list_max (fcluster bvalues t)) si sb
    /\ (1 <= list_max (fcluster bvalues t))%nat.
Proof.
  intros L. unfold calculate_shell_bvalues_and_indices, linkage.
  destruct (length bvalues <? 2)%nat eqn:E; [apply Nat.ltb_lt in E; lia|].
  cbn [bind]. destruct (fcluster_valid bvalues t) as [V Lc].
  destruct (relabel_clusters bvalues (fcluster bvalues t)) as [si sb] eqn:R.
  exists si, sb. split; [reflexivity|]. split; [reflexivity|].
  pose proof (relabel_clusters_spec bvalues _ V Lc) as [S _].
  rewrite R in S. cbn in S. split; [exact S|].
  apply list_max_pos.
  - intros H. rewrite H in Lc. cbn in Lc. lia.
  - apply Forall_forall. intros c Hc.
    apply (proj1 (valid_labels_spec _) V) in Hc. lia.
Qed.

Lemma calculate_shell_bvalues_and_indices_raises (bvalues : list Q) (t : Q) :
  (length bvalues < 2)%nat ->
  calculate_shell_bvalues_and_indices bvalues t
  = Raise (ValueError msg_linkage).
Proof.
  intros L. unfold calculate_shell_bvalues_and_indices, linkage.
  apply Nat.ltb_lt in L. rewrite L. reflexivity.
Qed.

(** ** Flat clusters when every pair of observations is linked *)

Lemma grow_full (bs : list Q) (t : Q) (c : list nat) :
  (forall x y, In x bs -> In y bs -> linked t x y = true) ->
  (exists i, In i c /\ (i < length bs)%nat) ->
  grow bs t c = seq 0 (length bs).
Proof.
  intros H (i & Hi & Li). unfold grow. apply filter_all, forallb_forall.
  intros j Hj. apply in_seq in Hj. apply existsb_exists. exists i.
  split; [assumption|]. apply orb_true_iff. right.
  apply H; apply nth_In; lia.
Qed.

Lemma component_full (bs : list Q) (t : Q) (i : nat) :
  (forall x y, In x bs -> In y bs -> linked t x y = true) ->
  (i < length bs)%nat ->
  component bs t i = seq 0 (length bs).
Proof.
  intros H L. unfold component.
  assert (G : forall m, Nat.iter m (grow bs t) [i] = [i]
                        \/ Nat.iter m (grow bs t) [i] = seq 0 (length bs)).
  { induction m as [|m IH]; [left; reflexivity|]. right.
    rewrite Nat.iter_succ.
    apply grow_full; [assumption|]. destruct IH as [-> | ->].
    - exists i. split; [left; reflexivity|assumption].
    - exists O. split; [apply in_seq|]; lia. }
  destruct (length bs) as [|n] eqn:E; [lia|]. rewrite Nat.iter_succ.
  rewrite <- E in *. apply grow_full; [assumption|].
  destruct (G n) as [-> | ->].
  - exists i. split; [left; reflexivity|lia].
  - exists O. split; [apply in_seq|]; lia.
Qed.

Lemma fcluster_all_linked (bs : list Q) (t : Q) :
  (forall x y, In x bs -> In y bs -> linked t x y = true) ->
  fcluster bs t = number_keys (map (fun _ => O) (seq 0 (length bs))).
Proof.
  intros H. unfold fcluster. f_equal. apply map_ext_in. intros i Hi.
  apply in_seq in Hi. unfold leader. rewrite component_full by (auto; lia).
  destruct (length bs); [lia|reflexivity].
Qed.

Lemma linked_within (t x y d : Q) :
  Qle_bool (Qabs (x - y)) d = true -> d <= t -> linked t x y = true.
Proof.
  intros H1 H2. apply Qle_bool_iff in H1. apply Qle_bool_iff.
  eapply Qle_trans; eassumption.
Qed.

Lemma shells_1245_far (t : Q) :
  4 <= t ->
  calculate_shell_bvalues_and_indices [1; 2; 4; 5] t
  = Return ([0; 0; 0; 0]%nat, [(1 + (2 + (4 + (5 + 0)))) / inject_Z 4]).
Proof.
  intros Ht. unfold calculate_shell_bvalues_and_indices. cbn [linkage length Nat.ltb Nat.leb bind].
  rewrite fcluster_all_linked.
  - reflexivity.
  - intros x y Hx Hy. apply (linked_within t x y 4); [|assumption].
    cbn in Hx, Hy.
    destruct Hx as [<-|[<-|[<-|[<-|[]]]]];
    destruct Hy as [<-|[<-|[<-|[<-|[]]]]]; reflexivity.
Qed.

Lemma shells_1245_near :
  calculate_shell_bvalues_and_indices [1; 2; 4; 5] 1
  = Return ([0; 0; 1; 1]%nat, [(1 + (2 + 0)) / inject_Z 2; (4 + (5 + 0)) / inject_Z 2]).
Proof. reflexivity. Qed.

(** ** The flat clusters are the classes of chained observations *)

Lemma linked_sym (t x y : Q) : linked t x y = linked t y x.
Proof.
  unfold linked. apply Qleb_comp; [|reflexivity].
  rewrite <- Qabs_opp. apply Qabs_wd. ring.
Qed.

Lemma adjacent_sym (bs : list Q) (t : Q) (i j : nat) :
  adjacent bs t i j -> adjacent bs t j i.
Proof.
  intros (Li & Lj & [->|H]); repeat split; auto.
  right. rewrite linked_sym. exact H.
Qed.

Lemma chained_lt (bs : list Q) (t : Q) (i j : nat) :
  chained bs t i j -> (i < length bs)%nat /\ (j < length bs)%nat.
Proof.
  induction 1 as [i L|i j k C [Li _] (_ & Lk & _)]; auto.
Qed.

Lemma chained_trans (bs : list Q) (t : Q) (i j k : nat) :
  chained bs t i j -> chained bs t j k -> chained bs t i k.
Proof.
  intros C1 C2. induction C2 as [j L|j k l C IH A]; [exact C1|].
  eapply chained_step; [apply IH, C1|exact A].
Qed.

Lemma chained_sym (bs : list Q) (t : Q) (i j : nat) :
  chained bs t i j -> chained bs t j i.
Proof.
  induction 1 as [i L|i j k C IH A]; [constructor; exact L|].
  eapply chained_trans; [|exact IH].
  eapply chained_step; [constructor; apply A|apply adjacent_sym, A].
Qed.

Lemma grow_In (bs : list Q) (t : Q) (c : list nat) (j : nat) :
  In j (grow bs t c) <->
  (j < length bs)%nat
  /\ exists i, In i c /\ (i = j \/ linked t (nth i bs 0) (nth j bs 0) = true).
Proof.
  unfold grow. rewrite filter_In, in_seq, existsb_exists. split.
  - intros [L (i & Hi & H)]. split; [lia|]. exists i. split; [exact Hi|].
    apply orb_true_iff in H. destruct H as [H|H]; [left|right; exact H].
    apply Nat.eqb_eq, H.
  - intros [L (i & Hi & H)]. split; [lia|]. exists i. split; [exact Hi|].
    apply orb_true_iff. destruct H as [->|H]; [left|right; exact H].
    apply Nat.eqb_refl.
Qed.

Lemma iter_grow_chained (bs : list Q) (t : Q) (i : nat) (m : nat) (j : nat) :
  (i < length bs)%nat ->
  In j (Nat.iter m (grow bs t) [i]) -> chained bs t i j.
Proof.
  intros L. revert j. induction m as [|m IH]; intros j H.
  - cbn in H. destruct H as [<-|[]]. constructor. exact L.
  - rewrite Nat.iter_succ in H. apply grow_In in H.
    destruct H as [Lj (k & Hk & A)]. apply IH in Hk.
    eapply chained_step; [exact Hk|].
    repeat split; [apply (chained_lt _ _ _ _ Hk)|exact Lj|exact A].
Qed.

Lemma iter_grow_mono (bs : list Q) (t : Q) (i : nat) (m : nat) (j : nat) :
  (i < length bs)%nat ->
  In j (Nat.iter m (grow bs t) [i]) -> In j (Nat.iter (S m) (grow bs t) [i]).
Proof.
  intros L H. rewrite Nat.iter_succ. apply grow_In. split.
  - apply (chained_lt bs t i j). eapply iter_grow_chained; eassumption.
  - exists j. split; [exact H|left; reflexivity].
Qed.

Lemma iter_grow_mono_le (bs : list Q) (t : Q) (i : nat) (m m' : nat) (j : nat) :
  (i < length bs)%nat -> (m <= m')%nat ->
  In j (Nat.iter m (grow bs t) [i]) -> In j (Nat.iter m' (grow bs t) [i]).
Proof.
  intros L Hle. induction Hle as [|m' Hle IH]; [tauto|].
  intros H. apply iter_grow_mono; [exact L|]. apply IH, H.
Qed.

Lemma chained_iter_grow (bs : list Q) (t : Q) (i j : nat) :
  chained bs t i j -> exists m, In j (Nat.iter m (grow bs t) [i]).
Proof.
  induction 1 as [i L|i j k C [m IH] (Lj & Lk & A)].
  - exists O. left. reflexivity.
  - exists (S m). rewrite Nat.iter_succ. apply grow_In. split; [exact Lk|].
    exists j. split; [exact IH|exact A].
Qed.

Lemma filter_length_mono {A : Type} (p q : A -> bool) (l : list A) :
  (forall x, In x l -> p x = true -> q x = true) ->
  (length (List.filter p l) <= length (List.filter q l))%nat
  /\ (length (List.filter p l) = length (List.filter q l) ->
      List.filter p l = List.filter q l).
Proof.
  induction l as [|x l IH]; intros H; cbn; [split; [lia|reflexivity]|].
  destruct (IH (fun y Hy => H y (or_intror Hy))) as [I1 I2].
  destruct (p x) eqn:Px.
  - rewrite (H x (or_introl eq_refl) Px). cbn. split; [lia|].
    intros E. f_equal. apply I2. lia.
  - destruct (q x); cbn; split; try lia; try exact I2.
Qed.

Lemma grow_subset (bs : list Q) (t : Q) (c c' : list nat) :
  (forall j, In j c -> In j c') ->
  (length (grow bs t c) <= length (grow bs t c'))%nat
  /\ (length (grow bs t c) = length (grow bs t c') ->
      grow bs t c = grow bs t c').
Proof.
  intros H. unfold grow. apply filter_length_mono. intros j _ E.
  apply existsb_exists in E. destruct E as (i & Hi & E).
  apply existsb_exists. exists i. split; [apply H, Hi|exact E].
Qed.

Lemma length_grow (bs : list Q) (t : Q) (c : list nat) :
  (length (grow bs t c) <= length bs)%nat.
Proof.
  unfold grow. etransitivity; [apply List.filter_length_le|].
  rewrite length_seq. lia.
Qed.

Section Closure.
Variables (bs : list Q) (t : Q) (i : nat).
Hypothesis Li : (i < length bs)%nat.

Let reach (m : nat) : list nat := Nat.iter m (grow bs t) [i].

Lemma reach_succ (m : nat) : reach (S m) = grow bs t (reach m).
Proof. apply Nat.iter_succ. Qed.

Lemma reach_sub (m j : nat) : In j (reach m) -> In j (reach (S m)).
Proof. apply iter_grow_mono, Li. Qed.

Lemma reach_stable_next (m : nat) :
  reach (S m) = reach m -> reach (S (S m)) = reach (S m).
Proof.
  intros E. rewrite (reach_succ (S m)), E, <- reach_succ. exact E.
Qed.

Lemma reach_stable_from (m k : nat) :
  reach (S m) = reach m -> (m <= k)%nat -> reach k = reach m.
Proof.
  intros E Hle. induction Hle as [|k Hle IH]; [reflexivity|].
  rewrite <- IH. clear IH. induction Hle as [|k Hle IH]; [exact E|].
  apply reach_stable_next, IH.
Qed.

Lemma reach_length_mono (m : nat) :
  (length (reach (S m)) <= length (reach (S (S m))))%nat
  /\ (length (reach (S m)) = length (reach (S (S m))) ->
      reach (S (S m)) = reach (S m)).
Proof.
  rewrite (reach_succ (S m)), (reach_succ m).
  destruct (grow_subset bs t (reach m) (reach (S m)) (reach_sub m))
    as [G1 G2].
  rewrite <- (reach_succ m) in *. rewrite (reach_succ m) at 2 4.
  split; [exact G1|]. intros E. symmetry. rewrite (reach_succ m) at 1.
  apply G2. rewrite <- reach_succ. exact E.
Qed.

Lemma reach_grows_or_stable (m : nat) :
  reach (S (S m)) = reach (S m) \/ (S (S m) <= length (reach (S (S m))))%nat.
Proof.
  assert (One : (1 <= length (reach 1))%nat).
  { assert (In i (reach 1)) as H by (apply reach_sub; left; reflexivity).
    destruct (reach 1); [destruct H|cbn; lia]. }
  induction m as [|m IH].
  - destruct (reach_length_mono 0) as [G1 G2].
    destruct (Nat.eq_dec (length (reach 1)) (length (reach 2))) as [E|N].
    + left. apply G2, E.
    + right. lia.
  - destruct IH as [E|L].
    + left. apply reach_stable_next, E.
    + destruct (reach_length_mono (S m)) as [G1 G2].
      destruct (Nat.eq_dec (length (reach (S (S m))))
                  (length (reach (S (S (S m)))))) as [E|N].
      * left. apply G2, E.
      * right. lia.
Qed.

Lemma reach_complete (m : nat) (j : nat) :
  In j (reach m) -> In j (reach (length bs)).
Proof.
  destruct (le_lt_dec m (length bs)) as [Hle|Hgt].
  - apply iter_grow_mono_le; assumption.
  - assert (Hn : exists n, length bs = S n).
    { pose proof Li as Li'. clear -Li'. destruct (length bs); [lia|eauto]. }
    destruct Hn as [n En].
    assert (St : reach (S (S n)) = reach (S n)).
    { destruct (reach_grows_or_stable n) as [E|L]; [exact E|].
      rewrite reach_succ in L.
      pose proof (length_grow bs t (reach (S n))). lia. }
    intros H. rewrite (reach_stable_from (S n) m St) in H by lia.
    rewrite En. exact H.
Qed.

Lemma component_chained (j : nat) :
  In j (component bs t i) <-> chained bs t i j.
Proof.
  unfold component. split.
  - apply iter_grow_chained, Li.
  - intros C. destruct (chained_iter_grow _ _ _ _ C) as (m & H).
    apply (reach_complete m j H).
Qed.

End Closure.

Lemma index_of_inj (a b : nat) (o : list nat) :
  In a o -> In b o -> index_of a o = index_of b o -> a = b.
Proof.
  intros Ha Hb E. rewrite <- (nth_index_of a O o Ha), E.
  apply nth_index_of, Hb.
Qed.

Lemma relabel_same_shell_same_cluster (bvalues : list Q) (clusters : list nat)
    (i j : nat) :
  valid_labels clusters = true ->
  length clusters = length bvalues ->
  (i < length clusters)%nat -> (j < length clusters)%nat ->
  nth i (fst (relabel_clusters bvalues clusters)) O
  = nth j (fst (relabel_clusters bvalues clusters)) O
  <-> nth i clusters O = nth j clusters O.
Proof.
  intros V L Li Lj.
  destruct (relabel_clusters_spec bvalues clusters V L)
    as (_ & o & N & Ho & ->).
  rewrite (nth_indep _ O (index_of O o)) by (rewrite length_map; lia).
  rewrite (nth_indep _ O (index_of O o) (n := j)) by (rewrite length_map; lia).
  rewrite !(map_nth (fun c => index_of c o)). split.
  - apply index_of_inj; apply Ho, nth_In; assumption.
  - intros ->. reflexivity.
Qed.

(** The two examples of the docstring of the source. *)
Lemma docstring_example_one_cluster :
  exists sb,
    calculate_shell_bvalues_and_indices [1; 2; 3; 4; 5] 1
    = Return ([0; 0; 0; 0; 0]%nat, sb) /\ length sb = 1%nat.
Proof. eexists. split; reflexivity. Qed.

Lemma docstring_example_two_clusters :
  exists sb,
    calculate_shell_bvalues_and_indices [1; 2; 4; 5] 1
    = Return ([0; 0; 1; 1]%nat, sb) /\ length sb = 2%nat.
Proof. eexists. split; reflexivity. Qed.

Lemma component_eq (bs : list Q) (t : Q) (i j : nat) :
  chained bs t i j -> component bs t i = component bs t j.
Proof.
  intros C. destruct (chained_lt _ _ _ _ C) as [Li Lj].
  assert (E : forall k, In k (component bs t i) <-> In k (component bs t j)).
  { intros k. rewrite (component_chained bs t i Li k),
      (component_chained bs t j Lj k). split; intros H.
    - eapply chained_trans; [apply chained_sym, C|exact H].
    - eapply chained_trans; [exact C|exact H]. }
  unfold component in *. destruct (length bs) as [|n] eqn:En; [lia|].
  rewrite !Nat.iter_succ in *. unfold grow in *.
  apply filter_ext_in. intros k Hk.
  specialize (E k). rewrite !filter_In in E.
  destruct (existsb _ (Nat.iter n _ [i])) eqn:E1;
  destruct (existsb _ (Nat.iter n _ [j])) eqn:E2; try reflexivity.
  - destruct E as [E _]. destruct (E (conj Hk eq_refl)). discriminate.
  - destruct E as [_ E]. destruct (E (conj Hk eq_refl)). discriminate.
Qed.

Lemma leader_In (bs : list Q) (t : Q) (i : nat) :
  (i < length bs)%nat -> In (leader bs t i) (component bs t i).
Proof.
  intros Li. unfold leader.
  assert (In i (component bs t i)) as H.
  { apply component_chained; [exact Li|constructor; exact Li]. }
  destruct (component bs t i); [destruct H|left; reflexivity].
Qed.

Lemma leader_chained (bs : list Q) (t : Q) (i j : nat) :
  (i < length bs)%nat -> (j < length bs)%nat ->
  leader bs t i = leader bs t j <-> chained bs t i j.
Proof.
  intros Li Lj. split.
  - intros E. pose proof (leader_In bs t i Li) as Hi.
    pose proof (leader_In bs t j Lj) as Hj. rewrite <- E in Hj.
    apply component_chained in Hi, Hj; try assumption.
    eapply chained_trans; [exact Hi|apply chained_sym, Hj].
  - intros C. unfold leader. rewrite (component_eq _ _ _ _ C).
    pose proof (leader_In bs t j Lj) as Hj. unfold leader in Hj.
    destruct (component bs t j); [destruct Hj|reflexivity].
Qed.

(** Two observations receive the same flat cluster exactly when they are
    chained. *)
Lemma fcluster_chained (bs : list Q) (t : Q) (i j : nat) :
  (i < length bs)%nat -> (j < length bs)%nat ->
  nth i (fcluster bs t) O = nth j (fcluster bs t) O <-> chained bs t i j.
Proof.
  intros Li Lj. rewrite <- leader_chained by assumption.
  unfold fcluster, number_keys.
  set (keys := map (leader bs t) (seq 0 (length bs))).
  assert (Lk : length keys = length bs)
    by (unfold keys; rewrite length_map, length_seq; reflexivity).
  assert (K : forall k, (k < length bs)%nat -> nth k keys O = leader bs t k).
  { intros k L. unfold keys.
    rewrite (nth_indep _ O (leader bs t O))
      by (rewrite length_map, length_seq; exact L).
    rewrite (map_nth (leader bs t)), seq_nth by exact L. reflexivity. }
  set (f := fun k => S (index_of k (nodup Nat.eq_dec keys))).
  rewrite (nth_indep _ O (f O)) by (rewrite length_map; lia).
  rewrite (nth_indep _ O (f O) (n := j)) by (rewrite length_map; lia).
  rewrite !(map_nth f), (K i Li), (K j Lj). unfold f. split.
  - intros E. injection E as E. apply (index_of_inj _ _ _) in E; [exact E| |].
    + apply nodup_In. rewrite <- (K i Li). apply nth_In. lia.
    + apply nodup_In. rewrite <- (K j Lj). apply nth_In. lia.
  - intros ->. reflexivity.
Qed.

(** Two measurements share a shell exactly when a chain of measurements,
    consecutive ones at most [max_distance] apart, joins them. *)
Lemma same_shell_iff_chained (bvalues : list Q) (max_distance : Q)
    (si : list nat) (sb : list Q) (i j : nat) :
  calculate_shell_bvalues_and_indices bvalues max_distance = Return (si, sb) ->
  (i < length bvalues)%nat -> (j < length bvalues)%nat ->
  nth i si O = nth j si O <-> chained bvalues max_distance i j.
Proof.
  intros E Li Lj.
  assert (L : (2 <= length bvalues)%nat).
  { destruct (le_lt_dec 2 (length bvalues)) as [H|H]; [exact H|].
    rewrite calculate_shell_bvalues_and_indices_raises in E by exact H.
    discriminate. }
  destruct (calculate_shell_bvalues_and_indices_spec bvalues max_distance L)
    as (si' & sb' & E' & R & _).
  rewrite E in E'. injection E' as <- <-.
  destruct (fcluster_valid bvalues max_distance) as [V Lc].
  rewrite <- fcluster_chained by assumption.
  assert (Rf : si = fst (relabel_clusters bvalues
                           (fcluster bvalues max_distance)))
    by (rewrite <- R; reflexivity).
  rewrite Rf. apply relabel_same_shell_same_cluster; try assumption; lia.
Qed.

(* ================================================================== *)
(** * Shells of one group are intervals of b-values *)
(* ================================================================== *)

Lemma linked_iff (t x y : Q) :
  linked t x y = true <-> - t <= x - y /\ x - y <= t.
Proof. unfold linked. rewrite Qle_bool_iff. apply Qabs_Qle_condition. Qed.

Lemma adjacent_within (bs : list Q) (t : Q) (i j : nat) :
  (i < length bs)%nat -> (j < length bs)%nat ->
  - t <= nth i bs 0 - nth j bs 0 -> nth i bs 0 - nth j bs 0 <= t ->
  adjacent bs t i j.
Proof.
  intros Li Lj H1 H2. split; [exact Li|]. split; [exact Lj|].
  right. apply linked_iff. split; assumption.
Qed.

Lemma adjacent_bound (bs : list Q) (t : Q) (i j : nat) :
  0 <= t -> adjacent bs t i j ->
  - t <= nth i bs 0 - nth j bs 0 /\ nth i bs 0 - nth j bs 0 <= t.
Proof.
  intros Ht (_ & _ & [->|A]); [Lqa.lra|apply linked_iff, A].
Qed.

(** A measurement whose b-value lies between those of two chained
    measurements is chained to them. *)
Lemma chained_convex (bs : list Q) (t : Q) (i k : nat) :
  0 <= t -> chained bs t i k ->
  forall j, (j < length bs)%nat ->
    (nth i bs 0 <= nth j bs 0 /\ nth j bs 0 <= nth k bs 0)
    \/ (nth k bs 0 <= nth j bs 0 /\ nth j bs 0 <= nth i bs 0) ->
    chained bs t i j.
Proof.
  intros Ht C. induction C as [i Li|i m k C IH A]; intros j Lj B.
  - eapply chained_step; [constructor; exact Li|].
    apply adjacent_within; try assumption; Lqa.lra.
  - pose proof (adjacent_bound _ _ _ _ Ht A) as [A1 A2].
    destruct A as (Lm & Lk & _).
    destruct (Qlt_le_dec (nth j bs 0) (nth m bs 0)) as [H|H];
      destruct B as [[B1 B2]|[B1 B2]].
    + apply IH; [exact Lj|]. left. split; Lqa.lra.
    + eapply chained_step; [exact C|].
      apply adjacent_within; try assumption; Lqa.lra.
    + eapply chained_step; [exact C|].
      apply adjacent_within; try assumption; Lqa.lra.
    + apply IH; [exact Lj|]. right. split; Lqa.lra.
Qed.

(** Two classes of chained measurements do not interleave. *)
Lemma unchained_separated (bs : list Q) (t : Q) (a b a' b' : nat) :
  0 <= t -> chained bs t a a' -> chained bs t b b' -> ~ chained bs t a b ->
  nth a bs 0 < nth b bs 0 -> nth a' bs 0 < nth b' bs 0.
Proof.
  intros Ht Ca Cb N H.
  destruct (chained_lt _ _ _ _ Ca) as [La La'].
  destruct (chained_lt _ _ _ _ Cb) as [Lb Lb'].
  destruct (Qlt_le_dec (nth a' bs 0) (nth b' bs 0)) as [G|G]; [exact G|].
  exfalso. apply N.
  destruct (Qlt_le_dec (nth a' bs 0) (nth b bs 0)) as [G'|G'].
  - eapply chained_trans; [exact Ca|]. apply chained_sym.
    apply (chained_convex bs t b b' Ht Cb a' La'). right.
    split; Lqa.lra.
  - apply (chained_convex bs t a a' Ht Ca b Lb). left. split; Lqa.lra.
Qed.

Lemma Qsum_lt_bound (x : Q) (l : list Q) (c : Q) :
  (forall y, In y (x :: l) -> y < c) ->
  Qsum (x :: l) < inject_Z (Z.of_nat (length (x :: l))) * c.
Proof.
  intros H. cbn [Qsum fold_right length]. fold (Qsum l).
  rewrite Nat2Z.inj_succ, <- Z.add_1_r, inject_Z_plus.
  assert (Qsum l <= inject_Z (Z.of_nat (length l)) * c) as B.
  { apply Qsum_le_bound. intros y Hy. apply Qlt_le_weak, H. right. exact Hy. }
  assert (x < c) by (apply H; left; reflexivity).
  change (inject_Z 1) with 1. Lqa.lra.
Qed.

Lemma Qsum_ge_bound (l : list Q) (c : Q) :
  (forall y, In y l -> c <= y) ->
  inject_Z (Z.of_nat (length l)) * c <= Qsum l.
Proof.
  induction l as [|x l IH]; intros H.
  - cbn. rewrite Qmult_0_l. apply Qle_refl.
  - cbn [Qsum fold_right length]. fold (Qsum l).
    rewrite Nat2Z.inj_succ, <- Z.add_1_r, inject_Z_plus.
    assert (c <= x) by (apply H; left; reflexivity).
    assert (inject_Z (Z.of_nat (length l)) * c <= Qsum l)
      by (apply IH; intros y Hy; apply H; right; exact Hy).
    change (inject_Z 1) with 1. Lqa.lra.
Qed.

Lemma Qsum_gt_bound (x : Q) (l : list Q) (c : Q) :
  (forall y, In y (x :: l) -> c < y) ->
  inject_Z (Z.of_nat (length (x :: l))) * c < Qsum (x :: l).
Proof.
  intros H. cbn [Qsum fold_right length]. fold (Qsum l).
  rewrite Nat2Z.inj_succ, <- Z.add_1_r, inject_Z_plus.
  assert (inject_Z (Z.of_nat (length l)) * c <= Qsum l) as B.
  { apply Qsum_ge_bound. intros y Hy. apply Qlt_le_weak, H. right. exact Hy. }
  assert (c < x) by (apply H; left; reflexivity).
  change (inject_Z 1) with 1. Lqa.lra.
Qed.

Lemma length_pos_Q {A : Type} (x : A) (l : list A) :
  0 < inject_Z (Z.of_nat (length (x :: l))).
Proof. change 0 with (inject_Z 0). rewrite <- Zlt_Qlt. cbn [length]. lia. Qed.

Lemma np_mean_lt_bound (l : list Q) (c : Q) :
  l <> [] -> (forall x, In x l -> x < c) -> np_mean l < c.
Proof.
  intros N H. destruct l as [|x l]; [congruence|]. unfold np_mean.
  apply Qlt_shift_div_r; [apply length_pos_Q|].
  rewrite Qmult_comm. apply Qsum_lt_bound, H.
Qed.

Lemma np_mean_gt_bound (l : list Q) (c : Q) :
  l <> [] -> (forall x, In x l -> c < x) -> c < np_mean l.
Proof.
  intros N H. destruct l as [|x l]; [congruence|]. unfold np_mean.
  apply Qlt_shift_div_l; [apply length_pos_Q|].
  rewrite Qmult_comm. apply Qsum_gt_bound, H.
Qed.

Lemma shell_members_nonempty (bs : list Q) (si : list nat) (s : nat) :
  length si = length bs -> In s si ->
  compress (map (Nat.eqb s) si) bs <> [].
Proof.
  intros L H. destruct (In_nth _ _ O H) as (p & Lp & Hp).
  assert (In (nth p bs 0) (compress (map (Nat.eqb s) si) bs)) as I.
  { apply In_compress; [lia|]. apply nth_map_eqb. split; assumption. }
  intros E. rewrite E in I. destruct I.
Qed.

(** When every b-value of shell [s] is below every b-value of shell [s'],
    so are the means. *)
Lemma shell_mean_lt (bs : list Q) (si : list nat) (s s' : nat) :
  length si = length bs -> In s si -> In s' si ->
  (forall a b, (a < length bs)%nat -> (b < length bs)%nat ->
     nth a si O = s -> nth b si O = s' -> nth a bs 0 < nth b bs 0) ->
  shell_mean bs si s < shell_mean bs si s'.
Proof.
  intros L Hs Hs' H. unfold shell_mean.
  apply np_mean_gt_bound; [apply shell_members_nonempty; assumption|].
  intros y Hy. apply np_mean_lt_bound;
    [apply shell_members_nonempty; assumption|].
  intros x Hx.
  destruct (compress_In _ _ _ 0 Hx) as (a & La & Ma & <-).
  destruct (compress_In _ _ _ 0 Hy) as (b & Lb & Mb & <-).
  apply nth_map_eqb in Ma, Mb. apply H; tauto.
Qed.

(** With a distance that is not negative the shell b-values of the
    classifier increase strictly. *)
Lemma shell_bvalues_increase (bvalues : list Q) (max_distance : Q)
    (si : list nat) (sb : list Q) (s s' : nat) :
  0 <= max_distance ->
  calculate_shell_bvalues_and_indices bvalues max_distance = Return (si, sb) ->
  (s < s')%nat -> (s' < length sb)%nat ->
  nth s sb 0 < nth s' sb 0.
Proof.
  intros Ht E Hs Hs'.
  assert (L : (2 <= length bvalues)%nat).
  { destruct (le_lt_dec 2 (length bvalues)) as [H|H]; [exact H|].
    rewrite calculate_shell_bvalues_and_indices_raises in E by exact H.
    discriminate. }
  destruct (calculate_shell_bvalues_and_indices_spec bvalues max_distance L)
    as (si' & sb' & E' & _ & S & _).
  rewrite E in E'. injection E' as <- <-.
  destruct S as [S1 S2 S3 S4 S5].
  assert (Is : In s si) by (apply S3; lia).
  assert (Is' : In s' si) by (apply S3; lia).
  destruct (In_nth _ _ O Is) as (p & Lp & Hp).
  destruct (In_nth _ _ O Is') as (p' & Lp' & Hp').
  rewrite S1 in Lp, Lp'.
  assert (Le : nth s sb 0 <= nth s' sb 0)
    by (apply StronglySorted_nth; [exact S5|lia|exact Hs']).
  rewrite !S4 in * by lia.
  assert (N : ~ chained bvalues max_distance p p').
  { intros C. apply (same_shell_iff_chained _ _ _ _ _ _ E Lp Lp') in C. lia. }
  assert (N' : ~ chained bvalues max_distance p' p)
    by (intros C; apply N, chained_sym, C).
  assert (M : forall a, (a < length bvalues)%nat -> nth a si O = s ->
              chained bvalues max_distance p a).
  { intros a La Ha. apply (same_shell_iff_chained _ _ _ _ _ _ E Lp La).
    congruence. }
  assert (M' : forall a, (a < length bvalues)%nat -> nth a si O = s' ->
              chained bvalues max_distance p' a).
  { intros a La Ha. apply (same_shell_iff_chained _ _ _ _ _ _ E Lp' La).
    congruence. }
  destruct (Q_dec (nth p bvalues 0) (nth p' bvalues 0)) as [[G|G]|G].
  - apply shell_mean_lt; try assumption. intros a b La Lb Ha Hb.
    apply (unchained_separated bvalues max_distance p p'); auto.
  - exfalso.
    assert (shell_mean bvalues si s' < shell_mean bvalues si s) as F.
    { apply shell_mean_lt; try assumption. intros a b La Lb Ha Hb.
      apply (unchained_separated bvalues max_distance p' p); auto. }
    Lqa.lra.
  - exfalso. apply N. eapply chained_step; [constructor; exact Lp|].
    apply adjacent_within; try assumption; Lqa.lra.
Qed.

(** C4, amended.  On an array with two entries at least the classifier
    returns shell indices and shell b-values such that: the indices used
    are exactly 0 .. k-1 for k shell b-values; two measurements share a
    shell exactly when a chain of measurements, consecutive ones at most
    [max_distance] apart, joins them; the b-value of shell [s] is the mean
    b-value of its measurements; the shell b-values ascend, and strictly
    so when [max_distance] is not negative.  For [1, 2, 4, 5] a distance
    of 1 gives two shells and every distance of 4 or more gives one. *)
Theorem classifier_relabels_by_ascending_mean :
  (forall (bvalues : list Q) (max_distance : Q),
     (2 <= length bvalues)%nat ->
     exists si sb,
       calculate_shell_bvalues_and_indices bvalues max_distance
       = Return (si, sb)
       /\ length si = length bvalues
       /\ (forall s, In s si <-> (s < length sb)%nat)
       /\ (forall i j, (i < length bvalues)%nat -> (j < length bvalues)%nat ->
             (nth i si O = nth j si O <-> chained bvalues max_distance i j))
       /\ (forall s, (s < length sb)%nat ->
             nth s sb 0 = shell_mean bvalues si s)
       /\ StronglySorted Qle sb
       /\ (0 <= max_distance ->
           forall s s', (s < s')%nat -> (s' < length sb)%nat ->
             nth s sb 0 < nth s' sb 0))
  /\ (exists m0 m1,
        calculate_shell_bvalues_and_indices [1; 2; 4; 5] 1
        = Return ([0; 0; 1; 1]%nat, [m0; m1])
        /\ m0 == 3 / 2 /\ m1 == 9 / 2)
  /\ (forall max_distance, 4 <= max_distance ->
        exists m,
          calculate_shell_bvalues_and_indices [1; 2; 4; 5] max_distance
          = Return ([0; 0; 0; 0]%nat, [m])
          /\ m == 3).
Proof.
  split; [|split].
  - intros bvalues t L.
    destruct (calculate_shell_bvalues_and_indices_spec bvalues t L)
      as (si & sb & E & R & S & K).
    exists si, sb. destruct S as [S1 S2 S3 S4 S5]. rewrite S2.
    split; [exact E|]. split; [exact S1|]. split; [exact S3|].
    split; [|split; [exact S4|split; [exact S5|]]].
    + intros i j Li Lj. apply (same_shell_iff_chained _ _ _ _ _ _ E Li Lj).
    + intros Ht s s' Hs Hs'. rewrite <- S2 in Hs'.
      apply (shell_bvalues_increase _ _ _ _ _ _ Ht E Hs Hs').
  - eexists _, _. split; [apply shells_1245_near|]. split; reflexivity.
  - intros t Ht. eexists. split; [apply shells_1245_far, Ht|]. reflexivity.
Qed.

Lemma classifier_relabels_by_ascending_mean_witness :
  (2 <= length [1000; 0; 1010; 5])%nat
  /\ exists si sb,
       calculate_shell_bvalues_and_indices [1000; 0; 1010; 5] 50
       = Return (si, sb)
       /\ length si = length [1000; 0; 1010; 5]
       /\ (forall s, In s si <-> (s < length sb)%nat)
       /\ (forall i j, (i < 4)%nat -> (j < 4)%nat ->
             (nth i si O = nth j si O
              <-> chained [1000; 0; 1010; 5] 50 i j))
       /\ (forall s, (s < length sb)%nat ->
             nth s sb 0 = shell_mean [1000; 0; 1010; 5] si s)
       /\ StronglySorted Qle sb
       /\ (0 <= 50 ->
           forall s s', (s < s')%nat -> (s' < length sb)%nat ->
             nth s sb 0 < nth s' sb 0).
Proof.
  split.
  - cbn. lia.
  - apply (proj1 classifier_relabels_by_ascending_mean [1000; 0; 1010; 5] 50).
    cbn. lia.
Defined.

(** C4 as stated fails on an array with one entry: scipy's [linkage]
    rejects it and the classifier raises. *)
Lemma classifier_raises_on_one_bvalue :
  calculate_shell_bvalues_and_indices [5] 1 = Raise (ValueError msg_linkage).
Proof. reflexivity. Qed.

(** ** Rows of (delta, Delta) *)

Lemma row_eqb_spec (a b : Q * Q) : row_eqb a b = true <-> row_eq a b.
Proof.
  unfold row_eqb, row_eq. rewrite andb_true_iff, !Qeq_bool_iff. tauto.
Qed.

Lemma row_compare_Eq (a b : Q * Q) : row_compare a b = Eq <-> row_eq a b.
Proof.
  unfold row_compare, row_eq.
  destruct (Qcompare_spec (fst a) (fst b)) as [E|E|E].
  - rewrite <- Qeq_alt. tauto.
  - split; [discriminate|]. intros [H _]. rewrite H in E.
    exfalso. apply (Qlt_irrefl _ E).
  - split; [discriminate|]. intros [H _]. rewrite H in E.
    exfalso. apply (Qlt_irrefl _ E).
Qed.

Lemma row_lt_spec (a b : Q * Q) :
  row_lt a b <-> fst a < fst b \/ (fst a == fst b /\ snd a < snd b).
Proof.
  unfold row_lt, row_compare.
  destruct (Qcompare_spec (fst a) (fst b)) as [E|E|E].
  - rewrite <- Qlt_alt. split; [tauto|]. intros [H|[_ H]]; [|exact H].
    rewrite E in H. exfalso. apply (Qlt_irrefl _ H).
  - tauto.
  - split; [discriminate|]. intros [H|[H _]].
    + exfalso. apply (Qlt_irrefl (fst a)). eapply Qlt_trans; eassumption.
    + rewrite H in E. exfalso. apply (Qlt_irrefl _ E).
Qed.

Lemma row_compare_Gt (a b : Q * Q) : row_compare a b = Gt <-> row_lt b a.
Proof.
  rewrite row_lt_spec. unfold row_compare.
  destruct (Qcompare_spec (fst a) (fst b)) as [E|E|E].
  - rewrite <- Qgt_alt. split; [intros H; right; split; [symmetry|]; assumption|].
    intros [H|[_ H]]; [|exact H]. rewrite E in H.
    exfalso. apply (Qlt_irrefl _ H).
  - split; [discriminate|]. intros [H|[H _]].
    + exfalso. apply (Qlt_irrefl (fst a)). eapply Qlt_trans; eassumption.
    + rewrite H in E. exfalso. apply (Qlt_irrefl _ E).
  - tauto.
Qed.

Lemma row_eq_refl (a : Q * Q) : row_eq a a.
Proof. split; reflexivity. Qed.

Lemma row_eq_sym (a b : Q * Q) : row_eq a b -> row_eq b a.
Proof. intros [H1 H2]. split; symmetry; assumption. Qed.

Lemma row_eq_trans (a b c : Q * Q) : row_eq a b -> row_eq b c -> row_eq a c.
Proof.
  intros [H1 H2] [H3 H4]. split; etransitivity; eassumption.
Qed.

Lemma row_lt_irrefl (a b : Q * Q) : row_eq a b -> ~ row_lt a b.
Proof.
  intros [H1 H2]. rewrite row_lt_spec. intros [H|[_ H]].
  - rewrite H1 in H. apply (Qlt_irrefl _ H).
  - rewrite H2 in H. apply (Qlt_irrefl _ H).
Qed.

Lemma row_lt_trans (a b c : Q * Q) : row_lt a b -> row_lt b c -> row_lt a c.
Proof.
  rewrite !row_lt_spec. intros [H1|[H1 H2]] [H3|[H3 H4]].
  - left. eapply Qlt_trans; eassumption.
  - left. rewrite <- H3. assumption.
  - left. rewrite H1. assumption.
  - right. split; [etransitivity; eassumption|eapply Qlt_trans; eassumption].
Qed.

Lemma row_lt_eq_l (a a' b : Q * Q) : row_eq a a' -> row_lt a b -> row_lt a' b.
Proof.
  intros [H1 H2]. rewrite !row_lt_spec. rewrite H1, H2. tauto.
Qed.

Lemma row_lt_eq_r (a b b' : Q * Q) : row_eq b b' -> row_lt a b -> row_lt a b'.
Proof.
  intros [H1 H2]. rewrite !row_lt_spec. rewrite H1, H2. tauto.
Qed.

Lemma row_trichotomy (a b : Q * Q) : row_lt a b \/ row_eq a b \/ row_lt b a.
Proof.
  destruct (row_compare a b) eqn:E.
  - right. left. apply row_compare_Eq, E.
  - left. exact E.
  - right. right. apply row_compare_Gt, E.
Qed.

(** ** np.unique on rows *)

Lemma insert_unique_In (x y : Q * Q) (l : list (Q * Q)) :
  In y (insert_unique x l) -> y = x \/ In y l.
Proof.
  induction l as [|z l IH]; cbn.
  - intros [->|[]]. left. reflexivity.
  - destruct (row_compare x z); cbn.
    + tauto.
    + intros [->|H]; [left; reflexivity|right; exact H].
    + intros [->|H]; [right; left; reflexivity|].
      destruct (IH H) as [->|H']; [left; reflexivity|right; right; exact H'].
Qed.

Lemma insert_unique_sorted (x : Q * Q) (l : list (Q * Q)) :
  StronglySorted row_lt l -> StronglySorted row_lt (insert_unique x l).
Proof.
  induction 1 as [|z l Hs IH Hall]; cbn.
  - repeat constructor.
  - destruct (row_compare x z) eqn:E.
    + constructor; assumption.
    + constructor; [constructor; assumption|].
      constructor; [exact E|]. rewrite Forall_forall in *.
      intros y Hy. eapply row_lt_trans; [exact E|apply Hall, Hy].
    + constructor; [assumption|]. rewrite Forall_forall in *.
      intros y Hy. apply insert_unique_In in Hy. destruct Hy as [->|Hy].
      * apply row_compare_Gt, E.
      * apply Hall, Hy.
Qed.

Lemma insert_unique_covers (x : Q * Q) (l : list (Q * Q)) (d : Q * Q) :
  row_eq x d \/ processed l d = true -> processed (insert_unique x l) d = true.
Proof.
  unfold processed. induction l as [|z l IH]; cbn.
  - intros [H|H]; [|discriminate]. apply row_eqb_spec in H. rewrite H.
    reflexivity.
  - destruct (row_compare x z) eqn:E; cbn.
    + intros [H|H]; [|exact H]. apply orb_true_iff. left.
      apply row_eqb_spec. apply row_compare_Eq in E.
      eapply row_eq_trans; [apply row_eq_sym, E|exact H].
    + intros [H|H]; [|rewrite H; apply orb_true_r].
      apply row_eqb_spec in H. rewrite H. reflexivity.
    + rewrite !orb_true_iff. intros [H|[H|H]]; auto.
Qed.

Lemma np_unique_rows_sorted (l : list (Q * Q)) :
  StronglySorted row_lt (np_unique_rows l).
Proof.
  induction l as [|x l IH]; cbn; [constructor|].
  apply insert_unique_sorted, IH.
Qed.

Lemma np_unique_rows_In (l : list (Q * Q)) (u : Q * Q) :
  In u (np_unique_rows l) -> In u l.
Proof.
  induction l as [|x l IH]; cbn; [tauto|].
  intros H. apply insert_unique_In in H. destruct H as [->|H]; auto.
Qed.

Lemma np_unique_rows_covers (l : list (Q * Q)) (d : Q * Q) :
  In d l -> processed (np_unique_rows l) d = true.
Proof.
  induction l as [|x l IH]; cbn; [tauto|].
  intros [->|H]; apply insert_unique_covers.
  - left. apply row_eq_refl.
  - right. apply IH, H.
Qed.

(** ** Masks *)

Lemma compress_nil_r {A : Type} (mask : list bool) :
  compress mask (@nil A) = [].
Proof. destruct mask as [|[] ?]; reflexivity. Qed.

Lemma length_compress {A : Type} (mask : list bool) (a : list A) :
  length mask = length a -> length (compress mask a) = count_true mask.
Proof.
  unfold count_true. revert a.
  induction mask as [|m mask IH]; intros [|x a] L; cbn in *;
    try reflexivity; try discriminate.
  destruct m; cbn; rewrite IH by lia; reflexivity.
Qed.

Lemma length_mask_assign (mask : list bool) (vals a : list nat) :
  length (mask_assign mask vals a) = length a.
Proof.
  revert vals a. induction mask as [|m mask IH]; intros vals [|x a]; cbn;
    try reflexivity.
  - destruct m; reflexivity.
  - destruct m; [destruct vals|]; cbn; rewrite IH; reflexivity.
Qed.

Lemma mask_assign_false (mask : list bool) (vals a : list nat) (p d : nat) :
  nth p mask false = false ->
  nth p (mask_assign mask vals a) d = nth p a d.
Proof.
  revert vals a p. induction mask as [|m mask IH]; intros vals [|x a] p H;
    cbn in *; try reflexivity.
  - destruct m; reflexivity.
  - destruct p as [|p].
    + subst m. reflexivity.
    + destruct m; [destruct vals|]; cbn; apply IH, H.
Qed.

Lemma count_true_cons (m : bool) (mask : list bool) :
  count_true (m :: mask) = ((if m then 1 else 0) + count_true mask)%nat.
Proof. unfold count_true. destruct m; reflexivity. Qed.

Lemma mask_assign_true (mask : list bool) (vals a : list nat) (p d : nat) :
  length vals = count_true mask -> length mask = length a ->
  (p < length a)%nat -> nth p mask false = true ->
  In (nth p (mask_assign mask vals a) d) vals.
Proof.
  revert vals a p. induction mask as [|m mask IH]; intros vals [|x a] p Lv L Lp H;
    cbn -[count_true] in *; try lia; try discriminate.
  rewrite count_true_cons in Lv. destruct m.
  - destruct vals as [|v vals]; cbn in Lv; [lia|].
    destruct p as [|p]; cbn; [left; reflexivity|].
    right. apply IH; try lia. assumption.
  - destruct p as [|p]; [discriminate|]. cbn. apply IH; try lia. assumption.
Qed.

Lemma mask_assign_onto (mask : list bool) (vals a : list nat) (v d : nat) :
  length vals = count_true mask -> length mask = length a ->
  In v vals ->
  exists p, (p < length a)%nat /\ nth p mask false = true
            /\ nth p (mask_assign mask vals a) d = v.
Proof.
  revert vals a. induction mask as [|m mask IH]; intros vals [|x a] Lv L Hv;
    cbn -[count_true] in *; try discriminate.
  - unfold count_true in Lv. cbn in Lv. destruct vals; [destruct Hv|discriminate].
  - rewrite count_true_cons in Lv. destruct m.
    + destruct vals as [|v' vals]; cbn in Lv; [lia|].
      destruct Hv as [->|Hv].
      * exists O. split; [lia|]. split; reflexivity.
      * destruct (IH vals a) as (p & Lp & Hm & Hp); try lia; try assumption.
        exists (S p). split; [lia|]. split; assumption.
    + destruct (IH vals a) as (p & Lp & Hm & Hp); try lia; try assumption.
      exists (S p). split; [lia|]. split; assumption.
Qed.

Lemma compress_mask_assign (mask : list bool) (vals a : list nat) :
  length vals = count_true mask -> length mask = length a ->
  compress mask (mask_assign mask vals a) = vals.
Proof.
  revert vals a. induction mask as [|m mask IH]; intros vals [|x a] Lv L;
    cbn -[count_true] in *; try discriminate.
  - unfold count_true in Lv. cbn in Lv. destruct vals; [reflexivity|discriminate].
  - rewrite count_true_cons in Lv. destruct m.
    + destruct vals as [|v vals]; cbn in Lv; [lia|]. cbn.
      rewrite IH by lia. reflexivity.
    + cbn. apply IH; lia.
Qed.

Lemma compress_and {A B : Type} (g : A -> bool) (f : nat -> bool)
    (ds : list A) (xs : list nat) (bs : list B) :
  compress (map2 (fun d x => g d && f x) ds xs) bs
  = compress (map f (compress (map g ds) xs)) (compress (map g ds) bs).
Proof.
  revert xs bs. induction ds as [|d ds IH]; intros xs bs; cbn.
  - reflexivity.
  - destruct xs as [|x xs]; cbn; [reflexivity|].
    destruct bs as [|b bs]; cbn.
    + destruct (g d); cbn; rewrite ?compress_nil_r; reflexivity.
    + destruct (g d); cbn.
      * destruct (f x); rewrite IH; reflexivity.
      * apply IH.
Qed.

Lemma nth_map2 {A B C : Type} (f : A -> B -> C) (a : list A) (b : list B)
    (p : nat) (da : A) (db : B) (dc : C) :
  (p < length a)%nat -> (p < length b)%nat ->
  nth p (map2 f a b) dc = f (nth p a da) (nth p b db).
Proof.
  revert b p. induction a as [|x a IH]; intros [|y b] p La Lb; cbn in *;
    try lia.
  destruct p as [|p]; [reflexivity|]. apply IH; lia.
Qed.

Lemma map2_ext_nth {A B C : Type} (f g : A -> B -> C) (a : list A)
    (b : list B) (da : A) (db : B) :
  length a = length b ->
  (forall p, (p < length a)%nat ->
     f (nth p a da) (nth p b db) = g (nth p a da) (nth p b db)) ->
  map2 f a b = map2 g a b.
Proof.
  revert b. induction a as [|x a IH]; intros [|y b] L H; cbn in *;
    try reflexivity; try discriminate.
  f_equal.
  - apply (H O). lia.
  - apply IH; [lia|]. intros p Lp. apply (H (S p)). lia.
Qed.

Lemma map2_map_r {A B C : Type} (f : B -> C) (g : A -> bool) (a : list A)
    (b : list B) :
  length a = length b ->
  map2 (fun _ y => f y) a b = map f b.
Proof.
  revert b. induction a as [|x a IH]; intros [|y b] L; cbn in *;
    try reflexivity; try discriminate.
  rewrite IH by lia. reflexivity.
Qed.

Lemma list_max_exact (l : list nat) (m : nat) :
  Forall (fun x => (x <= m)%nat) l -> In m l -> list_max l = m.
Proof.
  intros F H. apply Nat.le_antisymm.
  - apply list_max_le, F.
  - apply list_max_In, H.
Qed.

Lemma map2_ext_nth2 {A B C : Type} (f g : A -> B -> C) (a : list A)
    (b b' : list B) (da : A) (db : B) :
  length a = length b -> length a = length b' ->
  (forall p, (p < length a)%nat ->
     f (nth p a da) (nth p b db) = g (nth p a da) (nth p b' db)) ->
  map2 f a b = map2 g a b'.
Proof.
  revert b b'. induction a as [|x a IH]; intros [|y b] [|y' b'] L L' H;
    cbn in *; try reflexivity; try discriminate.
  f_equal.
  - apply (H O). lia.
  - apply IH; [lia|lia|]. intros p Lp. apply (H (S p)). lia.
Qed.

(** ** The loop over the unique rows *)

Lemma processed_app (done : list (Q * Q)) (u d : Q * Q) :
  processed (done ++ [u]) d = processed done d || row_eqb u d.
Proof.
  unfold processed. rewrite existsb_app. cbn. rewrite orb_false_r.
  reflexivity.
Qed.

Lemma processed_excluded (done : list (Q * Q)) (u d : Q * Q) :
  (forall u', In u' done -> row_lt u' u) ->
  row_eqb u d = true -> processed done d = false.
Proof.
  intros H E. destruct (processed done d) eqn:P; [|reflexivity].
  unfold processed in P. apply existsb_exists in P.
  destruct P as (u' & Hu' & E'). apply row_eqb_spec in E, E'.
  exfalso. apply (row_lt_irrefl u' u).
  - eapply row_eq_trans; [exact E'|apply row_eq_sym, E].
  - apply H, Hu'.
Qed.

Lemma nth_mask (u : Q * Q) (deltas : list (Q * Q)) (p : nat) :
  (p < length deltas)%nat ->
  nth p (map (row_eqb u) deltas) false = row_eqb u (nth p deltas (0, 0)).
Proof.
  intros L. rewrite (nth_indep _ false (row_eqb u (0, 0)))
    by (rewrite length_map; exact L).
  apply map_nth.
Qed.

Lemma classify_group_step (bvalues : list Q) (deltas done : list (Q * Q))
    (t : Q) (si : list nat) (sbs : list (list Q)) (mi : nat) (u : Q * Q)
    (st' : list nat * list (list Q) * nat) :
  length bvalues = length deltas ->
  classified bvalues deltas done si sbs mi ->
  (forall u', In u' done -> row_lt u' u) ->
  classify_group bvalues deltas t (si, sbs, mi) u = Return st' ->
  classified bvalues deltas (done ++ [u])
    (fst (fst st')) (snd (fst st')) (snd st').
Proof.
  intros Lb C Hlt H. unfold classify_group in H.
  set (mask := map (row_eqb u) deltas) in *.
  bind_inv H. destruct a as [si_ sb_]. injection H as <-. cbn [fst snd].
  assert (L2 : (2 <= length (compress mask bvalues))%nat).
  { destruct (le_lt_dec 2 (length (compress mask bvalues))) as [?|L];
      [assumption|].
    rewrite (calculate_shell_bvalues_and_indices_raises _ t L) in Ha.
    discriminate. }
  destruct (calculate_shell_bvalues_and_indices_spec _ t L2)
    as (si0 & sb0 & E & _ & S & K1).
  rewrite E in Ha. injection Ha as -> ->.
  set (k := list_max (fcluster (compress mask bvalues) t)) in *.
  destruct S as [S1 S2 S3 S4 S5].
  destruct C as [C1 C2 C3 C4 C5 C6 C7 C8].
  set (vals := map (fun i => (i + mi)%nat) si_) in *.
  assert (Lm : length mask = length si).
  { unfold mask. rewrite length_map. symmetry. exact C1. }
  assert (Lv : length vals = count_true mask).
  { unfold vals. rewrite length_map, S1. apply length_compress.
    unfold mask. rewrite length_map. symmetry. exact Lb. }
  set (si' := mask_assign mask vals si) in *.
  assert (HT : forall p, (p < length deltas)%nat ->
             row_eqb u (nth p deltas (0, 0)) = true ->
             exists l, (l < k)%nat /\ nth p si' O = (l + mi)%nat).
  { intros p Lp Hp. rewrite <- nth_mask in Hp by assumption.
    pose proof (mask_assign_true mask vals si p O Lv Lm) as Hin.
    rewrite C1 in Hin. specialize (Hin Lp Hp).
    apply in_map_iff in Hin. destruct Hin as (l & El & Hl).
    exists l. split; [apply S3, Hl|symmetry; exact El]. }
  assert (HF : forall p, (p < length deltas)%nat ->
             row_eqb u (nth p deltas (0, 0)) = false ->
             nth p si' O = nth p si O).
  { intros p Lp Hp. rewrite <- nth_mask in Hp by assumption.
    apply mask_assign_false, Hp. }
  assert (HO : forall l, (l < k)%nat ->
             exists p, (p < length deltas)%nat
                       /\ row_eqb u (nth p deltas (0, 0)) = true
                       /\ nth p si' O = (l + mi)%nat).
  { intros l Hl.
    destruct (mask_assign_onto mask vals si (l + mi) O Lv Lm)
      as (p & Lp & Hm & Hp).
    - unfold vals. apply in_map_iff. exists l. split; [reflexivity|].
      apply S3, Hl.
    - rewrite C1 in Lp. exists p. rewrite <- nth_mask by assumption.
      repeat split; assumption. }
  assert (HX := processed_excluded done u).
  assert (Lsi' : length si' = length deltas).
  { unfold si'. rewrite length_mask_assign. exact C1. }
  assert (Lcat : length (concat (sbs ++ [sb_])) = (mi + k)%nat).
  { rewrite concat_app, length_app. cbn. rewrite app_nil_r. lia. }
  assert (Emi : list_max (map S si') = (mi + k)%nat).
  { apply list_max_exact.
    - apply Forall_forall. intros y Hy. apply in_map_iff in Hy.
      destruct Hy as (x & <- & Hx).
      destruct (In_nth _ _ O Hx) as (p & Lp & <-). rewrite Lsi' in Lp.
      destruct (row_eqb u (nth p deltas (0, 0))) eqn:M.
      + destruct (HT p Lp M) as (l & Hl & ->). lia.
      + rewrite (HF p Lp M).
        destruct (processed done (nth p deltas (0, 0))) eqn:P.
        * pose proof (C4 p Lp P). lia.
        * rewrite (C3 p Lp P). lia.
    - destruct (HO (k - 1)%nat) as (p & Lp & _ & Hp); [lia|].
      apply in_map_iff. exists (nth p si' O). split; [rewrite Hp; lia|].
      apply nth_In. lia. }
  rewrite Emi. constructor.
  - exact Lsi'.
  - symmetry. exact Lcat.
  - intros p Lp P. rewrite processed_app in P. apply orb_false_iff in P.
    destruct P as [P M]. rewrite (HF p Lp M). apply C3; assumption.
  - intros p Lp P. rewrite processed_app in P.
    destruct (row_eqb u (nth p deltas (0, 0))) eqn:M.
    + destruct (HT p Lp M) as (l & Hl & ->). lia.
    + rewrite orb_false_r in P. rewrite (HF p Lp M).
      pose proof (C4 p Lp P). lia.
  - intros s Hs. destruct (lt_dec s mi) as [Hlo|Hhi].
    + destruct (C5 s Hlo) as (p & Lp & P & Hp). exists p.
      split; [exact Lp|]. rewrite processed_app, P. split; [reflexivity|].
      destruct (row_eqb u (nth p deltas (0, 0))) eqn:M.
      * rewrite (HX _ Hlt M) in P. discriminate.
      * rewrite (HF p Lp M). exact Hp.
    + destruct (HO (s - mi)%nat) as (p & Lp & M & Hp); [lia|].
      exists p. split; [exact Lp|]. rewrite processed_app, M, orb_true_r.
      split; [reflexivity|]. rewrite Hp. lia.
  - intros p q Lp Lq Pp Pq Hpq. rewrite processed_app in Pp, Pq.
    destruct (row_eqb u (nth p deltas (0, 0))) eqn:Mp;
    destruct (row_eqb u (nth q deltas (0, 0))) eqn:Mq.
    + exfalso. apply row_eqb_spec in Mp, Mq.
      apply (row_lt_irrefl (nth p deltas (0, 0)) (nth q deltas (0, 0)));
        [|exact Hpq].
      eapply row_eq_trans; [apply row_eq_sym, Mp|exact Mq].
    + exfalso. rewrite orb_false_r in Pq.
      unfold processed in Pq. apply existsb_exists in Pq.
      destruct Pq as (u' & Hu' & Eq'). apply row_eqb_spec in Mp, Eq'.
      apply (row_lt_irrefl u u (row_eq_refl u)).
      apply (row_lt_trans u u' u); [|apply Hlt, Hu'].
      apply (row_lt_eq_l _ _ _ (row_eq_sym _ _ Mp)).
      apply (row_lt_eq_r _ _ _ (row_eq_sym _ _ Eq')). exact Hpq.
    + rewrite orb_false_r in Pp. rewrite (HF p Lp Mp).
      destruct (HT q Lq Mq) as (l & Hl & ->).
      pose proof (C4 p Lp Pp). lia.
    + rewrite orb_false_r in Pp, Pq. rewrite (HF p Lp Mp), (HF q Lq Mq).
      apply C6; assumption.
  - intros s Hs. rewrite concat_app. cbn [concat]. rewrite app_nil_r.
    destruct (lt_dec s mi) as [Hlo|Hhi].
    + rewrite app_nth1 by lia. rewrite (C7 s Hlo). f_equal. f_equal.
      unfold members. apply (map2_ext_nth2 _ _ _ _ _ (0, 0) O); [lia|lia|].
      intros p Lp. rewrite processed_app.
      destruct (row_eqb u (nth p deltas (0, 0))) eqn:M.
      * rewrite (HX _ Hlt M). cbn.
        destruct (HT p Lp M) as (l & Hl & ->).
        symmetry. apply Nat.eqb_neq. lia.
      * rewrite orb_false_r, (HF p Lp M). reflexivity.
    + rewrite app_nth2 by lia. rewrite <- C2.
      rewrite (S4 (s - mi)%nat) by lia. unfold shell_mean. f_equal.
      transitivity (compress
        (map2 (fun d x => row_eqb u d && (s =? x)%nat) deltas si') bvalues).
      * rewrite compress_and. fold mask.
        unfold si'. rewrite compress_mask_assign by assumption.
        unfold vals. rewrite map_map. f_equal. apply map_ext.
        intros l. destruct (s =? l + mi)%nat eqn:E1.
        -- apply Nat.eqb_eq in E1. apply Nat.eqb_eq. lia.
        -- apply Nat.eqb_neq in E1. apply Nat.eqb_neq. lia.
      * f_equal. unfold members.
        apply (map2_ext_nth _ _ _ _ (0, 0) O); [lia|].
        intros p Lp. rewrite processed_app.
        destruct (row_eqb u (nth p deltas (0, 0))) eqn:M.
        -- rewrite orb_true_r. reflexivity.
        -- rewrite orb_false_r, (HF p Lp M). cbn.
           destruct (processed done (nth p deltas (0, 0))) eqn:P.
           ++ pose proof (C4 p Lp P). cbn. symmetry. apply Nat.eqb_neq. lia.
           ++ reflexivity.
  - intros p q Lp Lq Pp Pq Hpq Hle. rewrite processed_app in Pp, Pq.
    rewrite concat_app. cbn [concat]. rewrite app_nil_r.
    destruct (row_eqb u (nth p deltas (0, 0))) eqn:Mp;
    destruct (row_eqb u (nth q deltas (0, 0))) eqn:Mq.
    + destruct (HT p Lp Mp) as (lp & Hlp & Ep).
      destruct (HT q Lq Mq) as (lq & Hlq & Eq').
      rewrite Ep, Eq' in *. rewrite !app_nth2 by lia. rewrite <- C2.
      replace (lp + mi - mi)%nat with lp by lia.
      replace (lq + mi - mi)%nat with lq by lia.
      apply StronglySorted_nth; [assumption|lia|lia].
    + exfalso. apply row_eqb_spec in Mp.
      assert (row_eqb u (nth q deltas (0, 0)) = true) as Mq'.
      { apply row_eqb_spec. eapply row_eq_trans; eassumption. }
      congruence.
    + exfalso. apply row_eqb_spec in Mq.
      assert (row_eqb u (nth p deltas (0, 0)) = true) as Mp'.
      { apply row_eqb_spec. eapply row_eq_trans; [exact Mq|].
        apply row_eq_sym, Hpq. }
      congruence.
    + rewrite orb_false_r in Pp, Pq.
      rewrite (HF p Lp Mp), (HF q Lq Mq) in *.
      pose proof (C4 p Lp Pp). pose proof (C4 q Lq Pq).
      rewrite !app_nth1 by lia. apply C8; assumption.
Qed.

Lemma StronglySorted_app_inv {A : Type} (R : A -> A -> Prop)
    (l1 l2 : list A) (x : A) :
  StronglySorted R (l1 ++ x :: l2) -> forall y, In y l1 -> R y x.
Proof.
  induction l1 as [|z l1 IH]; cbn; intros S y Hy; [destruct Hy|].
  inversion S as [|? ? S' F]; subst. destruct Hy as [->|Hy].
  - rewrite Forall_forall in F. apply F, in_app_iff. right. left. reflexivity.
  - apply IH; assumption.
Qed.

Lemma classify_loop (bvalues : list Q) (deltas : list (Q * Q)) (t : Q)
    (todo : list (Q * Q)) :
  length bvalues = length deltas ->
  forall (done : list (Q * Q)) (si : list nat) (sbs : list (list Q))
         (mi : nat) (st' : list nat * list (list Q) * nat),
    classified bvalues deltas done si sbs mi ->
    StronglySorted row_lt (done ++ todo) ->
    foldM (classify_group bvalues deltas t) todo (si, sbs, mi) = Return st' ->
    classified bvalues deltas (done ++ todo)
      (fst (fst st')) (snd (fst st')) (snd st').
Proof.
  intros Lb. induction todo as [|u todo IH]; intros done si sbs mi st' C S H.
  - cbn in H. injection H as <-. rewrite app_nil_r. exact C.
  - cbn [foldM] in H. bind_inv H. destruct a as [[si1 sbs1] mi1].
    pose proof (classify_group_step bvalues deltas done t si sbs mi u _ Lb C
                  (StronglySorted_app_inv _ _ _ _ S) Ha) as C1.
    cbn [fst snd] in C1.
    replace (done ++ u :: todo) with ((done ++ [u]) ++ todo) in *
      by (rewrite <- app_assoc; reflexivity).
    apply (IH _ _ _ _ _ C1 S H).
Qed.

Lemma classified_start (bvalues : list Q) (deltas : list (Q * Q)) :
  length bvalues = length deltas ->
  classified bvalues deltas [] (repeat O (length bvalues)) [] O.
Proof.
  intros Lb. constructor; cbn.
  - rewrite repeat_length. exact Lb.
  - reflexivity.
  - intros p _ _. apply nth_repeat.
  - intros p _ H. discriminate.
  - intros s H. lia.
  - intros p q _ _ H. discriminate.
  - intros s H. lia.
  - intros p q _ _ H. discriminate.
Qed.

Lemma members_all (done deltas : list (Q * Q)) (si : list nat) (s : nat) :
  length si = length deltas ->
  (forall d, In d deltas -> processed done d = true) ->
  members done deltas si s = map (Nat.eqb s) si.
Proof.
  intros L H. unfold members.
  rewrite (map2_ext_in _ (fun _ x => (s =? x)%nat)).
  - clear H. revert si L. induction deltas as [|d deltas IH]; intros [|x si] L;
      cbn in *; try reflexivity; try discriminate.
    rewrite IH by lia. reflexivity.
  - intros d x Hd _. rewrite (H d Hd). reflexivity.
Qed.

(** The shell indices and shell b-values of more than one measurement. *)
Lemma classify_shells_spec (bvalues delta Delta : list Q) (t : Q)
    (si : list nat) (sb : list Q) :
  length delta = length bvalues -> length Delta = length bvalues ->
  classify_shells bvalues delta Delta t = Return (si, sb) ->
  let d := fun p => nth p (combine delta Delta) (0, 0) in
  let N := length bvalues in
  length si = N
  /\ (forall s, In s si <-> (s < length sb)%nat)
  /\ (forall p q, (p < N)%nat -> (q < N)%nat ->
        row_lt (d p) (d q) -> (nth p si O < nth q si O)%nat)
  /\ (forall s, (s < length sb)%nat -> nth s sb 0 = shell_mean bvalues si s)
  /\ (forall p q, (p < N)%nat -> (q < N)%nat ->
        row_eq (d p) (d q) -> (nth p si O <= nth q si O)%nat ->
        nth (nth p si O) sb 0 <= nth (nth q si O) sb 0).
Proof.
  intros Ld LD H d N. unfold classify_shells in H.
  set (deltas := combine delta Delta) in *.
  assert (Lb : length bvalues = length deltas).
  { unfold deltas. rewrite length_combine. lia. }
  bind_inv H. destruct a as [[si1 sbs] mi]. bind_inv H.
  injection H as <- <-.
  pose proof (classify_loop bvalues deltas t _ Lb [] _ _ _ _
                (classified_start bvalues deltas Lb)
                (np_unique_rows_sorted deltas) Ha) as C.
  cbn [app fst snd] in C.
  unfold ravel in Ha0. destruct (same_length sbs); [|discriminate].
  injection Ha0 as <-.
  destruct C as [C1 C2 C3 C4 C5 C6 C7 C8].
  assert (P : forall p, (p < length deltas)%nat ->
            processed (np_unique_rows deltas) (nth p deltas (0, 0)) = true).
  { intros p Lp. apply np_unique_rows_covers, nth_In, Lp. }
  unfold N. rewrite Lb, <- C2. repeat split.
  - exact C1.
  - intros Hs. destruct (In_nth _ _ O Hs) as (p & Lp & <-).
    rewrite C1 in Lp. apply C4; auto.
  - intros Hs. destruct (C5 s Hs) as (p & Lp & _ & <-).
    apply nth_In. lia.
  - intros p q Lp Lq. apply C6; auto.
  - intros s Hs. rewrite (C7 s Hs). unfold shell_mean. f_equal. f_equal.
    apply members_all; [exact C1|].
    intros x Hx. apply np_unique_rows_covers, Hx.
  - intros p q Lp Lq. apply C8; auto.
Qed.

(** ** The constructor, read backwards *)

Lemma init_common_inv `{SH : SphericalHarmonics}
    (b : list Q) (gd : list (list Q)) (q G d D : list Q) (t thr : Q)
    (s : self) (w : list string) :
  __init__ b gd q G d D t thr = Return (s, w) ->
  bvalues s = b /\ gradient_directions s = gd /\ qvalues s = q
  /\ gradient_strengths s = G /\ delta s = d /\ Delta s = D
  /\ tau s = map2 (fun x y => x - y / 3) D d
  /\ b0_mask s = map (fun x => Qle_bool x thr) b
  /\ number_of_b0s s = count_true (b0_mask s)
  /\ number_of_measurements s = length b
  /\ unique_dwi_indices s
     = np_unique (compress (map negb (b0_mask s)) (shell_indices s))
  /\ foldM (sh_step gd (shell_indices s) (shell_bvalues s))
       (unique_dwi_indices s) (repeat O (length (shell_bvalues s)), ∅)
     = Return (shell_sh_orders s, shell_sh_matrices s)
  /\ w = (if (number_of_b0s s =? 0)%nat then [msg_no_b0] else []).
Proof.
  unfold __init__. intros H. bind_inv H.
  destruct a as [[[[[[si sb] sm] sq] sg] sd] sD].
  bind_inv H. destruct a as [orders matrices]. injection H as <- <-.
  cbn. repeat split; assumption.
Qed.

Lemma init_many_inv `{SH : SphericalHarmonics}
    (b : list Q) (gd : list (list Q)) (q G d D : list Q) (t thr : Q)
    (s : self) (w : list string) :
  (1 < length b)%nat ->
  __init__ b gd q G d D t thr = Return (s, w) ->
  classify_shells b d D t = Return (shell_indices s, shell_bvalues s)
  /\ shell_b0_mask s = map (fun x => Qle_bool x thr) (shell_bvalues s)
  /\ take q (first_indices (shell_indices s)) = Return (shell_qvalues s)
  /\ take G (first_indices (shell_indices s))
     = Return (shell_gradient_strengths s)
  /\ take d (first_indices (shell_indices s)) = Return (shell_delta s)
  /\ take D (first_indices (shell_indices s)) = Return (shell_Delta s).
Proof.
  intros L. unfold __init__. apply Nat.ltb_lt in L. rewrite L. intros H.
  bind_inv H. destruct a as [[[[[[si sb] sm] sq] sg] sd] sD].
  bind_inv H. destruct a as [orders matrices]. injection H as <- <-. cbn.
  bind_inv Ha. destruct a as [si' sb']. bind_inv Ha. bind_inv Ha.
  bind_inv Ha. bind_inv Ha. injection Ha as <- <- <- <- <- <- <-.
  repeat split; assumption.
Qed.

Lemma classify_group_strict (bvalues : list Q) (deltas done : list (Q * Q))
    (t : Q) (si : list nat) (sbs : list (list Q)) (mi : nat) (u : Q * Q)
    (st' : list nat * list (list Q) * nat) :
  0 <= t ->
  length bvalues = length deltas ->
  classified bvalues deltas done si sbs mi ->
  strictly_sorted deltas done si sbs ->
  classify_group bvalues deltas t (si, sbs, mi) u = Return st' ->
  strictly_sorted deltas (done ++ [u]) (fst (fst st')) (snd (fst st')).
Proof.
  intros Ht Lb C SS H. unfold classify_group in H.
  set (mask := map (row_eqb u) deltas) in *.
  bind_inv H. destruct a as [si_ sb_]. injection H as <-. cbn [fst snd].
  assert (L2 : (2 <= length (compress mask bvalues))%nat).
  { destruct (le_lt_dec 2 (length (compress mask bvalues))) as [?|L];
      [assumption|].
    rewrite (calculate_shell_bvalues_and_indices_raises _ t L) in Ha.
    discriminate. }
  destruct (calculate_shell_bvalues_and_indices_spec _ t L2)
    as (si0 & sb0 & E & _ & S & _).
  pose proof Ha as Hcalc.
  rewrite E in Ha. injection Ha as -> ->.
  set (k := list_max (fcluster (compress mask bvalues) t)) in *.
  destruct S as [S1 S2 S3 _ _].
  destruct C as [C1 C2 _ C4 _ _ _ _].
  set (vals := map (fun i => (i + mi)%nat) si_) in *.
  assert (Lm : length mask = length si).
  { unfold mask. rewrite length_map. symmetry. exact C1. }
  assert (Lv : length vals = count_true mask).
  { unfold vals. rewrite length_map, S1. apply length_compress.
    unfold mask. rewrite length_map. symmetry. exact Lb. }
  set (si' := mask_assign mask vals si) in *.
  assert (HT : forall p, (p < length deltas)%nat ->
             row_eqb u (nth p deltas (0, 0)) = true ->
             exists l, (l < k)%nat /\ nth p si' O = (l + mi)%nat).
  { intros p Lp Hp. rewrite <- nth_mask in Hp by assumption.
    pose proof (mask_assign_true mask vals si p O Lv Lm) as Hin.
    rewrite C1 in Hin. specialize (Hin Lp Hp).
    apply in_map_iff in Hin. destruct Hin as (l & El & Hl).
    exists l. split; [apply S3, Hl|symmetry; exact El]. }
  assert (HF : forall p, (p < length deltas)%nat ->
             row_eqb u (nth p deltas (0, 0)) = false ->
             nth p si' O = nth p si O).
  { intros p Lp Hp. rewrite <- nth_mask in Hp by assumption.
    apply mask_assign_false, Hp. }
  intros p q Lp Lq Pp Pq Hpq Hlt. rewrite processed_app in Pp, Pq.
  rewrite concat_app. cbn [concat]. rewrite app_nil_r.
  destruct (row_eqb u (nth p deltas (0, 0))) eqn:Mp;
  destruct (row_eqb u (nth q deltas (0, 0))) eqn:Mq.
  - destruct (HT p Lp Mp) as (lp & Hlp & Ep).
    destruct (HT q Lq Mq) as (lq & Hlq & Eq').
    rewrite Ep, Eq' in *. rewrite !app_nth2 by lia. rewrite <- C2.
    replace (lp + mi - mi)%nat with lp by lia.
    replace (lq + mi - mi)%nat with lq by lia.
    apply (shell_bvalues_increase _ _ _ _ _ _ Ht Hcalc); lia.
  - exfalso. apply row_eqb_spec in Mp.
    assert (row_eqb u (nth q deltas (0, 0)) = true) as Mq'.
    { apply row_eqb_spec. eapply row_eq_trans; eassumption. }
    congruence.
  - exfalso. apply row_eqb_spec in Mq.
    assert (row_eqb u (nth p deltas (0, 0)) = true) as Mp'.
    { apply row_eqb_spec. eapply row_eq_trans; [exact Mq|].
      apply row_eq_sym, Hpq. }
    congruence.
  - rewrite orb_false_r in Pp, Pq.
    rewrite (HF p Lp Mp), (HF q Lq Mq) in *.
    pose proof (C4 p Lp Pp). pose proof (C4 q Lq Pq).
    rewrite !app_nth1 by lia. apply SS; assumption.
Qed.

Lemma classify_loop_strict (bvalues : list Q) (deltas : list (Q * Q)) (t : Q)
    (todo : list (Q * Q)) :
  0 <= t ->
  length bvalues = length deltas ->
  forall (done : list (Q * Q)) (si : list nat) (sbs : list (list Q))
         (mi : nat) (st' : list nat * list (list Q) * nat),
    classified bvalues deltas done si sbs mi ->
    strictly_sorted deltas done si sbs ->
    StronglySorted row_lt (done ++ todo) ->
    foldM (classify_group bvalues deltas t) todo (si, sbs, mi) = Return st' ->
    strictly_sorted deltas (done ++ todo) (fst (fst st')) (snd (fst st')).
Proof.
  intros Ht Lb.
  induction todo as [|u todo IH]; intros done si sbs mi st' C SS S H.
  - cbn in H. injection H as <-. rewrite app_nil_r. exact SS.
  - cbn [foldM] in H. bind_inv H. destruct a as [[si1 sbs1] mi1].
    pose proof (classify_group_step bvalues deltas done t si sbs mi u _ Lb C
                  (StronglySorted_app_inv _ _ _ _ S) Ha) as C1.
    pose proof (classify_group_strict bvalues deltas done t si sbs mi u _
                  Ht Lb C SS Ha) as SS1.
    cbn [fst snd] in C1, SS1.
    replace (done ++ u :: todo) with ((done ++ [u]) ++ todo) in *
      by (rewrite <- app_assoc; reflexivity).
    apply (IH _ _ _ _ _ C1 SS1 S H).
Qed.

(** With a distance that is not negative, two shells of one group have
    mean b-values in the strict order of their indices. *)
Lemma classify_shells_strict (bvalues delta Delta : list Q) (t : Q)
    (si : list nat) (sb : list Q) :
  0 <= t ->
  length delta = length bvalues -> length Delta = length bvalues ->
  classify_shells bvalues delta Delta t = Return (si, sb) ->
  let d := fun p => nth p (combine delta Delta) (0, 0) in
  forall p q, (p < length bvalues)%nat -> (q < length bvalues)%nat ->
    row_eq (d p) (d q) -> (nth p si O < nth q si O)%nat ->
    nth (nth p si O) sb 0 < nth (nth q si O) sb 0.
Proof.
  intros Ht Ld LD H d. unfold classify_shells in H.
  set (deltas := combine delta Delta) in *.
  assert (Lb : length bvalues = length deltas).
  { unfold deltas. rewrite length_combine. lia. }
  bind_inv H. destruct a as [[si1 sbs] mi]. bind_inv H.
  injection H as <- <-.
  assert (SS0 : strictly_sorted deltas [] (repeat O (length bvalues)) [])
    by (intros p q _ _ P; discriminate).
  pose proof (classify_loop_strict bvalues deltas t _ Ht Lb [] _ _ _ _
                (classified_start bvalues deltas Lb) SS0
                (np_unique_rows_sorted deltas) Ha) as SS.
  cbn [app fst snd] in SS.
  unfold ravel in Ha0. destruct (same_length sbs); [|discriminate].
  injection Ha0 as <-.
  intros p q Lp Lq. rewrite Lb in Lp, Lq.
  apply SS; try assumption;
    apply np_unique_rows_covers, nth_In; assumption.
Qed.

(* ================================================================== *)
(** ** Shell indices of more than one measurement *)
(* ================================================================== *)

Lemma list_max_attained (l : list nat) : l <> [] -> In (list_max l) l.
Proof.
  induction l as [|x l IH]; [congruence|]. intros _.
  destruct l as [|y l].
  - cbn. left. lia.
  - change (list_max (x :: y :: l)) with (Nat.max x (list_max (y :: l))).
    destruct (Nat.max_spec x (list_max (y :: l))) as [[_ ->]|[_ ->]].
    + right. apply IH. congruence.
    + left. reflexivity.
Qed.

(** C1, amended.  In a scheme built from more than one measurement every
    measurement has one shell index; the indices in use are 0, 1, ..., the
    largest one, without gaps; a shell lies within one (delta, Delta)
    group; the groups are numbered in ascending lexicographic order of
    (delta, Delta), which is the order of [np.unique], so that every shell
    of a smaller row has a smaller index; and within a group a shell with a
    smaller index has a mean b-value that is not larger, and that is
    smaller when [min_b_shell_distance] is not negative. *)
Theorem shell_indices_partition_sorted_groups `{SH : SphericalHarmonics}
    (b : list Q) (gd : list (list Q)) (qs Gs d D : list Q) (t thr : Q)
    (s : self) (w : list string) :
  (1 < length b)%nat -> length d = length b -> length D = length b ->
  __init__ b gd qs Gs d D t thr = Return (s, w) ->
  let si := shell_indices s in
  let row := fun p => (nth p d 0, nth p D 0) in
  length si = length b
  /\ (forall k, (k <= list_max si)%nat ->
        exists p, (p < length b)%nat /\ nth p si O = k)
  /\ (forall p q, (p < length b)%nat -> (q < length b)%nat ->
        nth p si O = nth q si O -> row_eq (row p) (row q))
  /\ (forall p q, (p < length b)%nat -> (q < length b)%nat ->
        row_lt (row p) (row q) -> (nth p si O < nth q si O)%nat)
  /\ (forall p q, (p < length b)%nat -> (q < length b)%nat ->
        row_eq (row p) (row q) -> (nth p si O < nth q si O)%nat ->
        shell_mean b si (nth p si O) <= shell_mean b si (nth q si O))
  /\ (0 <= t ->
      forall p q, (p < length b)%nat -> (q < length b)%nat ->
        row_eq (row p) (row q) -> (nth p si O < nth q si O)%nat ->
        shell_mean b si (nth p si O) < shell_mean b si (nth q si O)).
Proof.
  intros L Ld LD H si row.
  destruct (init_many_inv _ _ _ _ _ _ _ _ _ _ L H) as (C & _).
  destruct (classify_shells_spec b d D t _ _ Ld LD C)
    as (S1 & S2 & S3 & S4 & S5).
  fold si in S1, S2, S3, S4, S5.
  assert (R : forall p, nth p (combine d D) (0, 0) = row p).
  { intros p. apply combine_nth. lia. }
  assert (In_si : forall p, (p < length b)%nat -> In (nth p si O) si).
  { intros p Lp. apply nth_In. lia. }
  split; [exact S1|]. split; [|split; [|split; [|split]]].
  - intros k Hk.
    assert (In (list_max si) si) as Hm.
    { apply list_max_attained. intros E. rewrite E in S1. cbn in S1. lia. }
    apply S2 in Hm.
    assert (In k si) as Hin by (apply S2; lia).
    destruct (In_nth _ _ O Hin) as (p & Lp & Hp). exists p.
    split; [lia|exact Hp].
  - intros p q Lp Lq E.
    destruct (row_trichotomy (row p) (row q)) as [Hlt|[Heq|Hgt]].
    + rewrite <- !R in Hlt. pose proof (S3 p q Lp Lq Hlt). lia.
    + exact Heq.
    + rewrite <- !R in Hgt. pose proof (S3 q p Lq Lp Hgt). lia.
  - intros p q Lp Lq Hlt. rewrite <- !R in Hlt. apply S3; assumption.
  - intros p q Lp Lq Heq Hlt. rewrite <- !R in Heq.
    rewrite <- !S4 by (apply S2, In_si; assumption).
    apply S5; try assumption. lia.
  - intros Ht p q Lp Lq Heq Hlt. rewrite <- !R in Heq.
    rewrite <- !S4 by (apply S2, In_si; assumption).
    apply (classify_shells_strict b d D t _ _ Ht Ld LD C); assumption.
Qed.

Lemma shell_indices_partition_sorted_groups_witness :
  let b := [0; 1e9; 2e9; 0; 1.01e9; 3e9] in
  let d := [0.02; 0.02; 0.02; 0.01; 0.01; 0.01] in
  let D := [0.04; 0.04; 0.04; 0.04; 0.04; 0.04] in
  let gd := directions4 ++ directions2 in
  exists s w,
    ((1 < length b)%nat /\ length d = length b /\ length D = length b
     /\ @__init__ symbolic_sh b gd b b d D 50e6 10e6 = Return (s, w))
    /\ shell_indices s = [3; 4; 5; 0; 1; 2]%nat
    /\ length (shell_indices s) = length b
    /\ (forall p q, (p < length b)%nat -> (q < length b)%nat ->
          row_lt (nth p d 0, nth p D 0) (nth q d 0, nth q D 0) ->
          (nth p (shell_indices s) O < nth q (shell_indices s) O)%nat).
Proof.
  cbv zeta.
  destruct (@__init__ symbolic_sh [0; 1e9; 2e9; 0; 1.01e9; 3e9]
              (directions4 ++ directions2) [0; 1e9; 2e9; 0; 1.01e9; 3e9]
              [0; 1e9; 2e9; 0; 1.01e9; 3e9]
              [0.02; 0.02; 0.02; 0.01; 0.01; 0.01]
              [0.04; 0.04; 0.04; 0.04; 0.04; 0.04] 50e6 10e6)
    as [[s w]|e] eqn:E; [|vm_compute in E; discriminate].
  exists s, w.
  assert (Hsi : shell_indices s = [3; 4; 5; 0; 1; 2]%nat).
  { vm_compute in E. injection E as <- _. reflexivity. }
  pose proof (@shell_indices_partition_sorted_groups symbolic_sh
                [0; 1e9; 2e9; 0; 1.01e9; 3e9] (directions4 ++ directions2)
                [0; 1e9; 2e9; 0; 1.01e9; 3e9] [0; 1e9; 2e9; 0; 1.01e9; 3e9]
                [0.02; 0.02; 0.02; 0.01; 0.01; 0.01]
                [0.04; 0.04; 0.04; 0.04; 0.04; 0.04] 50e6 10e6 s w
                ltac:(cbn; lia) eq_refl eq_refl E) as T.
  cbv zeta in T. destruct T as (T1 & _ & _ & T4 & _).
  split; [|split; [exact Hsi|split; [exact T1|exact T4]]].
  repeat split; cbn; lia.
Defined.

(** C1 as stated fails where it says that the groups are numbered in the
    order in which they first occur in the input: the first two
    measurements below belong to the group that occurs first, and they
    receive the shells 2 and 3, after the shells 0 and 1 of the other
    group, whose row (0.01, 0.03) is the smaller one. *)
Lemma shell_indices_not_by_first_appearance :
  exists s w,
    @__init__ symbolic_sh [0; 1e9; 0; 1e9] directions4 [0; 1; 2; 3]
      [0; 1; 2; 3] [0.02; 0.02; 0.01; 0.01] [0.04; 0.04; 0.03; 0.03]
      50e6 10e6 = Return (s, w)
    /\ shell_indices s = [2; 3; 0; 1]%nat
    /\ ~ numbered_by_first_appearance
           (combine [0.02; 0.02; 0.01; 0.01] [0.04; 0.04; 0.03; 0.03])
           (shell_indices s).
Proof.
  eexists _, _. split; [vm_compute; reflexivity|]. cbn [shell_indices].
  split; [reflexivity|]. intros H.
  assert (2 < 0)%nat as F; [|lia].
  apply (H 0%nat 2%nat).
  - cbn. lia.
  - cbn. lia.
  - vm_compute. lia.
Qed.

(* ================================================================== *)
(** ** The representative values of a shell *)
(* ================================================================== *)

Lemma argmax_spec (l : list bool) :
  existsb id l = true ->
  (argmax l < length l)%nat
  /\ nth (argmax l) l false = true
  /\ forall j, (j < argmax l)%nat -> nth j l false = false.
Proof.
  induction l as [|x l IH]; cbn; [discriminate|].
  destruct x; cbn.
  - intros _. split; [lia|]. split; [reflexivity|]. intros j Hj. lia.
  - intros H. rewrite H. destruct (IH H) as (I1 & I2 & I3).
    split; [lia|]. split; [exact I2|].
    intros [|j] Hj; [reflexivity|]. apply I3. lia.
Qed.

Lemma index_Return_inv {A : Type} (a : list A) (i : nat) (x d : A) :
  index a i = Return x -> (i < length a)%nat /\ nth i a d = x.
Proof.
  unfold index. destruct (nth_error a i) eqn:E; [|discriminate].
  intros H. injection H as <-. split.
  - apply nth_error_Some. congruence.
  - apply nth_error_nth, E.
Qed.

Lemma take_Return_inv {A : Type} (a : list A) (idx : list nat) (l : list A)
    (d : A) :
  take a idx = Return l ->
  length l = length idx
  /\ forall j, (j < length idx)%nat -> nth j l d = nth (nth j idx O) a d.
Proof.
  revert l. induction idx as [|i idx IH]; intros l H; cbn in H.
  - injection H as <-. split; [reflexivity|]. cbn. intros j Hj. lia.
  - bind_inv H. bind_inv H. injection H as <-.
    destruct (IH _ Ha1) as [I1 I2].
    destruct (index_Return_inv _ _ _ d Ha0) as [_ Hx].
    split; [cbn; lia|]. intros [|j] Hj; cbn in *; [symmetry; exact Hx|].
    apply I2. lia.
Qed.

Lemma nth_first_indices (si : list nat) (k : nat) :
  (k <= list_max si)%nat ->
  nth k (first_indices si) O = argmax (map (Nat.eqb k) si).
Proof.
  intros Hk. unfold first_indices.
  rewrite (nth_indep _ O (argmax (map (Nat.eqb O) si)))
    by (rewrite length_map, length_seq; lia).
  rewrite (map_nth (fun ind => argmax (map (Nat.eqb ind) si))).
  rewrite seq_nth by lia. reflexivity.
Qed.

(** The first measurement of shell [k]. *)
Lemma first_member (si : list nat) (k : nat) :
  In k si ->
  let p := argmax (map (Nat.eqb k) si) in
  (p < length si)%nat /\ nth p si O = k
  /\ forall j, (j < p)%nat -> nth j si O <> k.
Proof.
  intros Hin p.
  assert (E : existsb id (map (Nat.eqb k) si) = true).
  { apply existsb_exists. exists true. split; [|reflexivity].
    apply in_map_iff. exists k. split; [apply Nat.eqb_refl|exact Hin]. }
  destruct (argmax_spec _ E) as (A1 & A2 & A3). fold p in A1, A2, A3.
  rewrite length_map in A1.
  assert (N : forall j, (j < length si)%nat ->
            nth j (map (Nat.eqb k) si) false = (k =? nth j si O)%nat).
  { intros j Lj. rewrite (nth_indep _ false (k =? O)%nat)
      by (rewrite length_map; exact Lj).
    apply (map_nth (Nat.eqb k)). }
  split; [exact A1|]. split.
  - rewrite N in A2 by exact A1. apply Nat.eqb_eq in A2. symmetry. exact A2.
  - intros j Hj E'. specialize (A3 j Hj). rewrite N in A3 by lia.
    apply Nat.eqb_neq in A3. congruence.
Qed.

(** C6, amended.  For every shell [k] of a scheme built from more than one
    measurement, the recorded delta, Delta, q-value and gradient strength
    are those of the first measurement, in input order, of that shell; the
    recorded b-value is the mean b-value of the measurements of the
    shell. *)
Theorem shell_representatives `{SH : SphericalHarmonics}
    (b : list Q) (gd : list (list Q)) (qs Gs d D : list Q) (t thr : Q)
    (s : self) (w : list string) :
  (1 < length b)%nat -> length d = length b -> length D = length b ->
  __init__ b gd qs Gs d D t thr = Return (s, w) ->
  forall k, (k <= list_max (shell_indices s))%nat ->
    exists p,
      (p < length b)%nat /\ nth p (shell_indices s) O = k
      /\ (forall j, (j < p)%nat -> nth j (shell_indices s) O <> k)
      /\ nth k (shell_delta s) 0 = nth p d 0
      /\ nth k (shell_Delta s) 0 = nth p D 0
      /\ nth k (shell_qvalues s) 0 = nth p qs 0
      /\ nth k (shell_gradient_strengths s) 0 = nth p Gs 0
      /\ nth k (shell_bvalues s) 0 = shell_mean b (shell_indices s) k.
Proof.
  intros L Ld LD H k Hk.
  destruct (init_many_inv _ _ _ _ _ _ _ _ _ _ L H)
    as (C & _ & Tq & TG & Td & TD).
  destruct (classify_shells_spec b d D t _ _ Ld LD C)
    as (S1 & S2 & _ & S4 & _).
  set (si := shell_indices s) in *.
  assert (Hin : In k si).
  { assert (In (list_max si) si) as Hm.
    { apply list_max_attained. intros E. rewrite E in S1. cbn in S1. lia. }
    apply S2. apply S2 in Hm. lia. }
  destruct (first_member si k Hin) as (P1 & P2 & P3).
  set (p := argmax (map (Nat.eqb k) si)) in *.
  assert (Lf : (k < length (first_indices si))%nat).
  { unfold first_indices. rewrite length_map, length_seq. lia. }
  assert (T : forall (a l : list Q),
            take a (first_indices si) = Return l -> nth k l 0 = nth p a 0).
  { intros a l Ht. destruct (take_Return_inv _ _ _ 0 Ht) as [_ Hn].
    rewrite (Hn k Lf), nth_first_indices by exact Hk. reflexivity. }
  exists p. split; [lia|]. split; [exact P2|]. split; [exact P3|].
  split; [apply T, Td|]. split; [apply T, TD|].
  split; [apply T, Tq|]. split; [apply T, TG|].
  apply S4, S2, Hin.
Qed.

Lemma shell_representatives_witness :
  let b := [0; 1000e6; 20e6; 1010e6] in
  let d := [0.01; 0.01; 0.01; 0.01] in
  let D := [0.03; 0.03; 0.03; 0.03] in
  exists s w,
    ((1 < length b)%nat /\ length d = length b /\ length D = length b
     /\ @__init__ symbolic_sh b directions4 [1; 2; 3; 4] [5; 6; 7; 8] d D
          50e6 10e6 = Return (s, w))
    /\ exists p,
         (p < length b)%nat /\ nth p (shell_indices s) O = 1%nat
         /\ (forall j, (j < p)%nat -> nth j (shell_indices s) O <> 1%nat)
         /\ nth 1 (shell_delta s) 0 = nth p d 0
         /\ nth 1 (shell_Delta s) 0 = nth p D 0
         /\ nth 1 (shell_qvalues s) 0 = nth p [1; 2; 3; 4] 0
         /\ nth 1 (shell_gradient_strengths s) 0 = nth p [5; 6; 7; 8] 0
         /\ nth 1 (shell_bvalues s) 0 = shell_mean b (shell_indices s) 1.
Proof.
  cbv zeta.
  destruct (@__init__ symbolic_sh [0; 1000e6; 20e6; 1010e6] directions4
              [1; 2; 3; 4] [5; 6; 7; 8] [0.01; 0.01; 0.01; 0.01]
              [0.03; 0.03; 0.03; 0.03] 50e6 10e6)
    as [[s w]|e] eqn:E; [|vm_compute in E; discriminate].
  exists s, w. split.
  - repeat split; cbn; lia.
  - apply (@shell_representatives symbolic_sh [0; 1000e6; 20e6; 1010e6]
             directions4 [1; 2; 3; 4] [5; 6; 7; 8] [0.01; 0.01; 0.01; 0.01]
             [0.03; 0.03; 0.03; 0.03] 50e6 10e6 s w
             ltac:(cbn; lia) eq_refl eq_refl E 1%nat).
    vm_compute in E. injection E as <- _. cbn. lia.
Defined.

(** C6 as stated fails for the b-value: shell 0 below holds the b-values 0
    and 20e6; its first measurement has b-value 0 and its recorded b-value
    is the mean 10e6. *)
Lemma shell_bvalue_is_not_first_member :
  exists s w,
    @__init__ symbolic_sh [0; 1000e6; 20e6; 1010e6] directions4 [1; 2; 3; 4]
      [5; 6; 7; 8] [0.01; 0.01; 0.01; 0.01] [0.03; 0.03; 0.03; 0.03]
      50e6 10e6 = Return (s, w)
    /\ shell_indices s = [0; 1; 0; 1]%nat
    /\ nth 0 (shell_bvalues s) 0 == 10e6
    /\ ~ nth 0 (shell_bvalues s) 0 == nth 0 [0; 1000e6; 20e6; 1010e6] 0.
Proof.
  eexists _, _. split; [vm_compute; reflexivity|]. cbn [shell_indices shell_bvalues].
  split; [reflexivity|]. split; [reflexivity|]. intros H. discriminate H.
Qed.

(* ================================================================== *)
(** ** Spherical harmonics of the shells that are not b0 *)
(* ================================================================== *)

(** A shell whose mean b-value exceeds the threshold has a measurement
    whose b-value exceeds it. *)
Lemma shell_above_threshold_has_dwi (b : list Q) (si : list nat) (k : nat)
    (thr : Q) :
  length si = length b -> In k si ->
  Qle_bool (shell_mean b si k) thr = false ->
  exists p, (p < length b)%nat /\ nth p si O = k
            /\ Qle_bool (nth p b 0) thr = false.
Proof.
  intros L Hin Hm. unfold shell_mean in Hm.
  set (l := compress (map (Nat.eqb k) si) b) in *.
  destruct (forallb (fun x => Qle_bool x thr) l) eqn:F.
  - exfalso. apply Qle_bool_false_iff in Hm.
    apply (Qlt_not_le _ _ Hm). apply np_mean_le_bound.
    + destruct (In_nth _ _ O Hin) as (p & Lp & Hp).
      intros E. assert (In (nth p b 0) l) as Hx.
      { apply In_compress; [lia|]. apply nth_map_eqb. split; assumption. }
      rewrite E in Hx. destruct Hx.
    + intros x Hx. rewrite forallb_forall in F. apply Qle_bool_iff, F, Hx.
  - assert (exists x, In x l /\ Qle_bool x thr = false) as (x & Hx & Ex).
    { clear -F. induction l as [|y l IH]; cbn in F; [discriminate|].
      destruct (Qle_bool y thr) eqn:E.
      - cbn in F. destruct (IH F) as (x & Hx & Ex). exists x.
        split; [right; exact Hx|exact Ex].
      - exists y. split; [left; reflexivity|exact E]. }
    destruct (compress_In _ _ _ 0 Hx) as (p & Lp & Hp & <-).
    apply nth_map_eqb in Hp. exists p. tauto.
Qed.
(** ** The step table of spherical-harmonics orders *)

Lemma get_sh_order_from_bval_table (bval : Q) :
  get_sh_order_from_bval bval = sh_table bval.
Proof.
  unfold get_sh_order_from_bval, sh_table, sh_bvals, sh_orders.
  cbn [map above].
  destruct (Qlt_bool bval 2.02020202e+08); [reflexivity|].
  destruct (Qlt_bool bval 7.07070707e+08); [reflexivity|].
  destruct (Qlt_bool bval 1.21212121e+09); [reflexivity|].
  destruct (Qlt_bool bval 2.52525253e+09); [reflexivity|].
  destruct (Qlt_bool bval 3.13131313e+09); [reflexivity|].
  destruct (Qlt_bool bval 5.35353535e+09); reflexivity.
Qed.

Lemma Qlt_bool_mono (b1 b2 c : Q) :
  b1 <= b2 -> Qlt_bool b2 c = true -> Qlt_bool b1 c = true.
Proof.
  rewrite !Qlt_bool_iff. intros H1 H2. eapply Qle_lt_trans; eassumption.
Qed.

Lemma get_sh_order_from_bval_range (bval : Q) :
  In (get_sh_order_from_bval bval) sh_orders.
Proof.
  rewrite get_sh_order_from_bval_table. unfold sh_table, sh_orders.
  repeat match goal with
         | |- context [if ?c then _ else _] => destruct c
         end; simpl; tauto.
Qed.

Lemma get_sh_order_from_bval_monotone (b1 b2 : Q) :
  b1 <= b2 ->
  (get_sh_order_from_bval b1 <= get_sh_order_from_bval b2)%nat.
Proof.
  intros Hle. rewrite !get_sh_order_from_bval_table. unfold sh_table.
  repeat match goal with
         | |- context [if Qlt_bool b2 ?c then _ else _] =>
             let E := fresh "E" in
             destruct (Qlt_bool b2 c) eqn:E;
             [rewrite ?(Qlt_bool_mono b1 b2 _ Hle E)|]
         end;
  repeat match goal with
         | |- context [if Qlt_bool b1 ?c then _ else _] =>
             destruct (Qlt_bool b1 c)
         end; lia.
Qed.

Lemma nth_insert_eq {A : Type} (l : list A) (i : nat) (x d : A) :
  (i < length l)%nat -> nth i (<[i := x]> l) d = x.
Proof.
  intros L. rewrite nth_lookup, list_lookup_insert_eq by exact L. reflexivity.
Qed.

Lemma nth_insert_ne {A : Type} (l : list A) (i k : nat) (x d : A) :
  i <> k -> nth k (<[i := x]> l) d = nth k l d.
Proof.
  intros N. rewrite !nth_lookup, list_lookup_insert_ne by exact N.
  reflexivity.
Qed.

Section ShLoop.
Context `{SH : SphericalHarmonics}.

Lemma sh_step_inv (gd : list (list Q)) (si : list nat) (sb : list Q)
    (orders : list nat) (matrices : gmap nat sh_matrix) (i : nat)
    (orders' : list nat) (matrices' : gmap nat sh_matrix) :
  sh_step gd si sb (orders, matrices) i = Return (orders', matrices') ->
  (i < length orders)%nat
  /\ orders' = <[i := get_sh_order_from_bval (nth i sb 0)]> orders
  /\ matrices' = <[i := sh_matrix_of gd si sb i]> matrices.
Proof.
  unfold sh_step. intros H. bind_inv H. bind_inv H. injection H as <- <-.
  destruct (index_Return_inv _ _ _ 0 Ha) as [_ <-].
  destruct (index_Return_inv _ _ _ O Ha0) as [L E].
  rewrite length_insert in L. rewrite nth_insert_eq in E by exact L.
  subst a0. repeat split. exact L.
Qed.

Lemma sh_loop (gd : list (list Q)) (si : list nat) (sb : list Q)
    (idxs : list nat) :
  forall (orders : list nat) (matrices : gmap nat sh_matrix)
         (orders' : list nat) (matrices' : gmap nat sh_matrix),
    foldM (sh_step gd si sb) idxs (orders, matrices)
    = Return (orders', matrices') ->
    forall k,
      (In k idxs ->
         nth k orders' O = get_sh_order_from_bval (nth k sb 0)
         /\ matrices' !! k = Some (sh_matrix_of gd si sb k))
      /\ (~ In k idxs ->
         nth k orders' O = nth k orders O /\ matrices' !! k = matrices !! k).
Proof.
  induction idxs as [|i idxs IH]; intros orders matrices orders' matrices' H k.
  - cbn in H. injection H as <- <-. split; [intros []|]. intros _.
    split; reflexivity.
  - cbn [foldM] in H. bind_inv H. destruct a as [o1 m1].
    destruct (sh_step_inv _ _ _ _ _ _ _ _ Ha) as (L & -> & ->).
    destruct (IH _ _ _ _ H k) as [I1 I2].
    destruct (in_dec Nat.eq_dec k idxs) as [Hk|Hk].
    + split; [intros _; apply I1, Hk|]. intros N. exfalso. apply N.
      right. exact Hk.
    + destruct (I2 Hk) as [E1 E2]. rewrite E1, E2.
      destruct (Nat.eq_dec i k) as [->|Ne].
      * split; [|intros N; exfalso; apply N; left; reflexivity].
        intros _. rewrite nth_insert_eq by exact L.
        rewrite lookup_insert_eq. split; reflexivity.
      * split; [intros [->|Hin]; [congruence|contradiction]|].
        intros _. rewrite nth_insert_ne by exact Ne.
        rewrite lookup_insert_ne by exact Ne. split; reflexivity.
Qed.

End ShLoop.

Lemma init_few_inv `{SH : SphericalHarmonics}
    (b : list Q) (gd : list (list Q)) (qs Gs d D : list Q) (t thr : Q)
    (s : self) (w : list string) :
  (length b <= 1)%nat ->
  __init__ b gd qs Gs d D t thr = Return (s, w) ->
  shell_indices s = [O] /\ shell_bvalues s = b
  /\ shell_b0_mask s
     = (if existsb id (map (fun x => Qlt_bool thr x) b)
        then [false] else [true]).
Proof.
  intros L. unfold __init__.
  assert (E : (1 <? length b)%nat = false) by (apply Nat.ltb_ge; exact L).
  rewrite E. intros H.
  bind_inv H. destruct a as [[[[[[si sb] sm] sq] sg] sd] sD].
  bind_inv H. destruct a as [orders matrices]. injection H as <- <-. cbn.
  injection Ha as <- <- <- <- <- <- <-. repeat split.
Qed.

Lemma dwi_shell_has_dwi (b : list Q) (si : list nat) (thr : Q) (k : nat) :
  (length b <= length si)%nat ->
  In k (np_unique
          (compress (map negb (map (fun x => Qle_bool x thr) b)) si))
  <-> exists p, (p < length b)%nat /\ nth p si O = k /\ thr < nth p b 0.
Proof.
  intros L. rewrite np_unique_In. split.
  - intros H. destruct (compress_In _ _ _ O H) as (p & Lp & Hm & Hp).
    assert (Lb : (p < length b)%nat).
    { destruct (lt_dec p (length b)) as [G|G]; [exact G|].
      rewrite nth_overflow in Hm by (rewrite !length_map; lia).
      discriminate. }
    exists p. split; [exact Lb|]. split; [exact Hp|].
    rewrite (nth_indep _ false (negb (Qle_bool 0 thr))) in Hm
      by (rewrite !length_map; exact Lb).
    rewrite (map_nth negb), (map_nth (fun x => Qle_bool x thr)) in Hm.
    apply negb_true_iff in Hm. apply Qle_bool_false_iff, Hm.
  - intros (p & Lp & Hp & Hb). rewrite <- Hp.
    apply In_compress; [lia|].
    rewrite (nth_indep _ false (negb (Qle_bool 0 thr)))
      by (rewrite !length_map; exact Lp).
    rewrite (map_nth negb), (map_nth (fun x => Qle_bool x thr)).
    apply negb_true_iff, Qle_bool_false_iff, Hb.
Qed.

(** C5, amended.  The shells that receive an order and a matrix are those
    of [unique_dwi_indices]: the shells holding a measurement whose b-value
    exceeds [b0_threshold].  For such a shell [k] the recorded order is the
    step table at the recorded shell b-value, which for a scheme of more
    than one measurement is the mean b-value of the shell and not the
    b-value of its first measurement, and the recorded matrix is dipy's
    function at that order and at the angles of the gradient directions of
    the measurements of shell [k].  Every other shell keeps the order 0 and
    has no matrix.  The step table is monotone and its values are the even
    numbers 2 .. 14. *)
Theorem sh_matrices_of_dwi_shells `{SH : SphericalHarmonics}
    (b : list Q) (gd : list (list Q)) (qs Gs d D : list Q) (t thr : Q)
    (s : self) (w : list string) :
  length d = length b -> length D = length b ->
  __init__ b gd qs Gs d D t thr = Return (s, w) ->
  (forall k, In k (unique_dwi_indices s) <->
     exists p, (p < length b)%nat /\ nth p (shell_indices s) O = k
               /\ thr < nth p b 0)
  /\ (forall k, In k (unique_dwi_indices s) ->
        nth k (shell_sh_orders s) O
        = get_sh_order_from_bval (nth k (shell_bvalues s) 0)
        /\ shell_sh_matrices s !! k
           = Some (real_sym_sh_mrtrix
                     (get_sh_order_from_bval (nth k (shell_bvalues s) 0))
                     (cart2sphere
                        (compress (map (Nat.eqb k) (shell_indices s)) gd))))
  /\ (forall k, ~ In k (unique_dwi_indices s) ->
        nth k (shell_sh_orders s) O = O /\ shell_sh_matrices s !! k = None)
  /\ ((1 < length b)%nat ->
      forall k, (k < length (shell_bvalues s))%nat ->
        nth k (shell_bvalues s) 0 = shell_mean b (shell_indices s) k)
  /\ (forall b1 b2, b1 <= b2 ->
        (get_sh_order_from_bval b1 <= get_sh_order_from_bval b2)%nat)
  /\ (forall bval,
        In (get_sh_order_from_bval bval) [2; 4; 6; 8; 10; 12; 14]%nat).
Proof.
  intros Ld LD H.
  destruct (init_common_inv _ _ _ _ _ _ _ _ _ _ H)
    as (Eb & _ & _ & _ & _ & _ & _ & Em & _ & _ & Eu & Ef & _).
  split; [|split; [|split; [|split; [|split;
    [apply get_sh_order_from_bval_monotone
    |apply get_sh_order_from_bval_range]]]]].
  - intros k. rewrite Eu, Em. apply dwi_shell_has_dwi.
    destruct (le_lt_dec (length b) 1) as [L1|L1].
    + destruct (init_few_inv _ _ _ _ _ _ _ _ _ _ L1 H) as (Ei & _).
      rewrite Ei. exact L1.
    + destruct (init_many_inv _ _ _ _ _ _ _ _ _ _ L1 H) as (C & _).
      destruct (classify_shells_spec b d D t _ _ Ld LD C) as (S1 & _).
      rewrite S1. apply Nat.le_refl.
  - intros k Hk. apply (sh_loop _ _ _ _ _ _ _ _ Ef k). exact Hk.
  - intros k Hk. destruct (sh_loop _ _ _ _ _ _ _ _ Ef k) as [_ N].
    destruct (N Hk) as [N1 N2]. rewrite N1, N2. split.
    + destruct (lt_dec k (length (shell_bvalues s))) as [G|G].
      * apply nth_repeat_lt. exact G.
      * apply nth_overflow. rewrite repeat_length. lia.
    + apply lookup_empty.
  - intros L1 k Lk.
    destruct (init_many_inv _ _ _ _ _ _ _ _ _ _ L1 H) as (C & _).
    destruct (classify_shells_spec b d D t _ _ Ld LD C)
      as (_ & _ & _ & S4 & _).
    apply S4, Lk.
Qed.

Lemma sh_matrices_of_dwi_shells_witness :
  let b := [0; 1000e6; 20e6; 3000e6] in
  let d := [0.01; 0.01; 0.01; 0.01] in
  let D := [0.03; 0.03; 0.03; 0.03] in
  exists s w,
    (length d = length b /\ length D = length b
     /\ @__init__ symbolic_sh b directions4 [1; 2; 3; 4] [5; 6; 7; 8] d D
          50e6 10e6 = Return (s, w))
    /\ shell_indices s = [0; 1; 0; 2]%nat
    /\ unique_dwi_indices s = [0; 1; 2]%nat
    /\ shell_sh_orders s = [2; 6; 10]%nat
    /\ forall k, In k (unique_dwi_indices s) ->
         nth k (shell_sh_orders s) O
         = get_sh_order_from_bval (nth k (shell_bvalues s) 0)
         /\ shell_sh_matrices s !! k
            = Some (@real_sym_sh_mrtrix symbolic_sh
                      (get_sh_order_from_bval (nth k (shell_bvalues s) 0))
                      (@cart2sphere symbolic_sh
                         (compress (map (Nat.eqb k) (shell_indices s))
                            directions4))).
Proof.
  cbv zeta.
  destruct (@__init__ symbolic_sh [0; 1000e6; 20e6; 3000e6] directions4
              [1; 2; 3; 4] [5; 6; 7; 8] [0.01; 0.01; 0.01; 0.01]
              [0.03; 0.03; 0.03; 0.03] 50e6 10e6)
    as [[s w]|e] eqn:E; [|vm_compute in E; discriminate].
  exists s, w. split; [repeat split; reflexivity|].
  split; [vm_compute in E; injection E as <- _; reflexivity|].
  split; [vm_compute in E; injection E as <- _; reflexivity|].
  split; [vm_compute in E; injection E as <- _; reflexivity|].
  apply (@sh_matrices_of_dwi_shells symbolic_sh [0; 1000e6; 20e6; 3000e6]
           directions4 [1; 2; 3; 4] [5; 6; 7; 8] [0.01; 0.01; 0.01; 0.01]
           [0.03; 0.03; 0.03; 0.03] 50e6 10e6 s w eq_refl eq_refl E).
Defined.

(** C5 as stated fails where it takes the order from the representative
    b-value of the shell, its first measurement in the sense of the
    specification.  Shell 1 below holds the b-values 190e6 and 230e6; the
    recorded order is 4, the step table at the mean 210e6, whereas the
    step table at the first measurement, 190e6, gives 2. *)
Lemma sh_order_is_taken_at_the_shell_mean :
  exists s w,
    @__init__ symbolic_sh [0; 0; 190e6; 230e6] directions4 [1; 2; 3; 4]
      [5; 6; 7; 8] [0.01; 0.01; 0.01; 0.01] [0.03; 0.03; 0.03; 0.03]
      50e6 10e6 = Return (s, w)
    /\ shell_indices s = [0; 0; 1; 1]%nat
    /\ nth 1 (shell_b0_mask s) true = false
    /\ first_member_bvalue [0; 0; 190e6; 230e6] (shell_indices s) 1 = 190e6
    /\ nth 1 (shell_sh_orders s) O = 4%nat
    /\ get_sh_order_from_bval
         (first_member_bvalue [0; 0; 190e6; 230e6] (shell_indices s) 1)
       = 2%nat.
Proof.
  eexists _, _. split; [vm_compute; reflexivity|].
  cbn [shell_indices shell_b0_mask shell_sh_orders].
  repeat split; reflexivity.
Qed.

(* ================================================================== *)
(** ** The stored copies of delta and Delta *)
(* ================================================================== *)

Lemma alloc_inv (h h' : Store.store) (a : ndarray) (l : Store.loc) :
  Store.alloc h a = (h', l) -> h !! l = None /\ h' = <[l := a]> h.
Proof.
  unfold Store.alloc. intros H. injection H as <- <-. split; [|reflexivity].
  apply not_elem_of_dom, is_fresh.
Qed.

Lemma deref_inv (h : Store.store) (l : Store.loc) (a : ndarray) :
  Store.deref h l = Return a -> h !! l = Some a.
Proof.
  unfold Store.deref. destruct (h !! l); [|discriminate].
  intros H. injection H as <-. reflexivity.
Qed.

Lemma unify_one_array_inv (h h' : Store.store) (r : ndarray)
    (l l' : Store.loc) :
  Store.unify_one h r (Store.PyArray l) = Return (h', l') ->
  exists a, h !! l = Some a /\ h !! l' = None /\ h' = <[l' := a]> h.
Proof.
  unfold Store.unify_one. intros H. bind_inv H.
  apply deref_inv in Ha. destruct (Store.alloc h a) as [h2 l2] eqn:A.
  injection H as <- <-. apply alloc_inv in A. exists a. tauto.
Qed.

Lemma store_init_inv `{SH : SphericalHarmonics} (h h' : Store.store)
    (lb lg lq lG ld lD : Store.loc) (t thr : Q) (refs : Store.scheme_refs)
    (s : self) (w : list string) :
  Store.__init__ h lb lg lq lG ld lD t thr = Return (h', refs, (s, w)) ->
  exists d D,
    h !! ld = Some d /\ h !! lD = Some D
    /\ delta s = data d /\ Delta s = data D
    /\ h !! Store.r_tau refs = None
    /\ h' = <[Store.r_tau refs := array1 (tau s)]> h
    /\ Store.r_bvalues refs = lb /\ Store.r_gradient_directions refs = lg
    /\ Store.r_qvalues refs = lq /\ Store.r_gradient_strengths refs = lG
    /\ Store.r_delta refs = ld /\ Store.r_Delta refs = lD.
Proof.
  unfold Store.__init__. intros H.
  bind_inv H. bind_inv H. bind_inv H. bind_inv H. bind_inv H. bind_inv H.
  bind_inv H. destruct a5 as [s' w'].
  destruct (Store.alloc h _) as [h2 ltau] eqn:A. injection H as <- <- <- <-.
  apply alloc_inv in A. destruct A as [A1 A2]. cbn [fst] in *.
  destruct (init_common_inv _ _ _ _ _ _ _ _ _ _ Ha5)
    as (_ & _ & _ & _ & Ed & ED & _).
  exists a3, a4. cbn. apply deref_inv in Ha3, Ha4. repeat split; assumption.
Qed.

Lemma copies_independent_core `{SH : SphericalHarmonics}
    (h h1 h2 h3 h4 h' : Store.store)
    (ld lD delta_ Delta_ x y lb lg lq lG : Store.loc)
    (ad aD ax ay : ndarray) (t thr : Q) (refs : Store.scheme_refs)
    (s : self) (w : list string) :
  h !! ld = Some ad -> h !! lD = Some aD ->
  h !! delta_ = None -> h1 = <[delta_ := ad]> h ->
  h1 !! Delta_ = None -> h2 = <[Delta_ := aD]> h1 ->
  h2 !! x = None -> h3 = <[x := ax]> h2 ->
  h3 !! y = None -> h4 = <[y := ay]> h3 ->
  Store.__init__ h4 lb lg lq lG delta_ Delta_ t thr
  = Return (h', refs, (s, w)) ->
  (Store.r_delta refs <> ld /\ Store.r_delta refs <> lD
   /\ Store.r_Delta refs <> ld /\ Store.r_Delta refs <> lD
   /\ Store.r_tau refs <> ld /\ Store.r_tau refs <> lD)
  /\ Store.contents h' (Store.r_delta refs) = Some (delta s)
  /\ Store.contents h' (Store.r_Delta refs) = Some (Delta s)
  /\ Store.contents h' (Store.r_tau refs) = Some (tau s)
  /\ delta s = data ad /\ Delta s = data aD.
Proof.
  intros Hld HlD F1 E1 F2 E2 F3 E3 F4 E4 H.
  destruct (store_init_inv _ _ _ _ _ _ _ _ _ _ _ _ _ H)
    as (d & D & Hd & HD & Ed & ED & Ft & E' & _ & _ & _ & _ & Rd & RD).
  subst h1 h2 h3 h4.
  repeat match goal with
         | F : <[_ := _]> _ !! _ = None |- _ =>
             apply lookup_insert_None in F;
             let N := fresh "N" in destruct F as [F N]
         end.
  assert (delta_ <> ld) by congruence. assert (delta_ <> lD) by congruence.
  assert (Delta_ <> ld) by congruence. assert (Delta_ <> lD) by congruence.
  assert (Store.r_tau refs <> ld) by congruence.
  assert (Store.r_tau refs <> lD) by congruence.
  rewrite lookup_insert_ne, lookup_insert_ne, lookup_insert_ne,
    lookup_insert_eq in Hd by congruence.
  rewrite lookup_insert_ne, lookup_insert_ne, lookup_insert_eq in HD
    by congruence.
  injection Hd as <-. injection HD as <-.
  rewrite Rd, RD. split; [tauto|]. unfold Store.contents. rewrite E'.
  rewrite lookup_insert_eq.
  rewrite (lookup_insert_ne _ (Store.r_tau refs) delta_) by congruence.
  rewrite (lookup_insert_ne _ (Store.r_tau refs) Delta_) by congruence.
  rewrite (lookup_insert_ne _ y delta_), (lookup_insert_ne _ x delta_),
    (lookup_insert_ne _ Delta_ delta_), lookup_insert_eq by congruence.
  rewrite (lookup_insert_ne _ y Delta_), (lookup_insert_ne _ x Delta_),
    lookup_insert_eq by congruence.
  cbn. rewrite Ed, ED. repeat split; reflexivity.
Qed.

Lemma store_unify_inv (h h2 : gmap nat ndarray) (r : ndarray)
    (ld lD delta_ Delta_ : nat) (ad aD : ndarray) :
  h !! ld = Some ad -> h !! lD = Some aD ->
  Store.unify_length_reference_delta_Delta h r (Store.PyArray ld)
    (Store.PyArray lD) = Return (h2, delta_, Delta_) ->
  exists h1,
    h !! delta_ = None /\ h1 = <[delta_ := ad]> h
    /\ h1 !! Delta_ = None /\ h2 = <[Delta_ := aD]> h1.
Proof.
  intros Hld HlD H. unfold Store.unify_length_reference_delta_Delta in H.
  bind_inv H. destruct a as [h1 l1]. bind_inv H. destruct a as [h2' l2].
  injection H as <- <- <-.
  destruct (unify_one_array_inv _ _ _ _ _ Ha) as (a1 & A1 & A2 & A3).
  destruct (unify_one_array_inv _ _ _ _ _ Ha0) as (a2 & B1 & B2 & B3).
  rewrite Hld in A1. injection A1 as <-.
  assert (l1 <> lD) by congruence.
  rewrite A3, lookup_insert_ne, HlD in B1 by assumption.
  injection B1 as <-. exists h1. repeat split; assumption.
Qed.

(** C10.  When delta and Delta are given as arrays, each entry point
    stores new array objects for delta, Delta and tau: whatever the
    caller writes afterwards into the arrays it passed, the scheme reads
    the same delta, Delta and tau as at construction, and these are the
    caller's values at construction. *)
Theorem stored_delta_Delta_tau_are_copies
    `{SH : SphericalHarmonics} `{GC : GradientConversions}
    `{UN : UnitNormTest}
    (h h' : gmap nat ndarray) (anchor gd ld lD : nat) (ad aD : ndarray)
    (t thr : Q) (refs : Store.scheme_refs) (s : self) (w : list string) :
  h !! ld = Some ad -> h !! lD = Some aD ->
  forall entry,
    In entry [Store.acquisition_scheme_from_bvalues;
              Store.acquisition_scheme_from_qvalues;
              Store.acquisition_scheme_from_gradient_strengths] ->
    entry h anchor gd (Store.PyArray ld) (Store.PyArray lD) t thr
    = Return (h', refs, (s, w)) ->
    delta s = data ad /\ Delta s = data aD
    /\ forall (a a' : ndarray),
         let h'' := Store.write (Store.write h' ld a) lD a' in
         Store.contents h'' (Store.r_delta refs) = Some (delta s)
         /\ Store.contents h'' (Store.r_Delta refs) = Some (Delta s)
         /\ Store.contents h'' (Store.r_tau refs) = Some (tau s).
Proof.
  intros Hld HlD entry He H.
  assert (Core : exists h1 h2 h3 h4 delta_ Delta_ x y ax ay lb lg lq lG,
             h !! delta_ = None /\ h1 = <[delta_ := ad]> h
             /\ h1 !! Delta_ = None /\ h2 = <[Delta_ := aD]> h1
             /\ h2 !! x = None /\ h3 = <[x := ax]> h2
             /\ h3 !! y = None /\ h4 = <[y := ay]> h3
             /\ Store.__init__ h4 lb lg lq lG delta_ Delta_ t thr
                = Return (h', refs, (s, w))).
  { cbn in He. destruct He as [<-|[<-|[<-|[]]]].
    - unfold Store.acquisition_scheme_from_bvalues in H.
      bind_inv H. bind_inv H. bind_inv H. destruct a1 as [[h2 delta_] Delta_].
      bind_inv H. bind_inv H. bind_inv H.
      destruct (Store.alloc h2 _) as [h3 x] eqn:A3.
      destruct (Store.alloc h3 _) as [h4 y] eqn:A4.
      destruct (store_unify_inv _ _ _ _ _ _ _ _ _ Hld HlD Ha1)
        as (h1 & U1 & U2 & U3 & U4).
      apply alloc_inv in A3, A4. destruct A3 as [A3 A3']. destruct A4 as [A4 A4'].
      exists h1, h2, h3, h4, delta_, Delta_, x, y.
      do 2 eexists. exists anchor, gd, x, y.
      repeat split; eassumption.
    - unfold Store.acquisition_scheme_from_qvalues in H.
      bind_inv H. bind_inv H. bind_inv H. destruct a1 as [[h2 delta_] Delta_].
      bind_inv H. bind_inv H. bind_inv H. bind_inv H. bind_inv H.
      destruct (Store.alloc h2 _) as [h3 x] eqn:A3.
      destruct (Store.alloc h3 _) as [h4 y] eqn:A4.
      destruct (store_unify_inv _ _ _ _ _ _ _ _ _ Hld HlD Ha1)
        as (h1 & U1 & U2 & U3 & U4).
      apply alloc_inv in A3, A4. destruct A3 as [A3 A3']. destruct A4 as [A4 A4'].
      exists h1, h2, h3, h4, delta_, Delta_, x, y.
      do 2 eexists. exists x, gd, anchor, y.
      repeat split; eassumption.
    - unfold Store.acquisition_scheme_from_gradient_strengths in H.
      bind_inv H. bind_inv H. bind_inv H. destruct a1 as [[h2 delta_] Delta_].
      bind_inv H. bind_inv H. bind_inv H. bind_inv H. bind_inv H.
      destruct (Store.alloc h2 _) as [h3 x] eqn:A3.
      destruct (Store.alloc h3 _) as [h4 y] eqn:A4.
      destruct (store_unify_inv _ _ _ _ _ _ _ _ _ Hld HlD Ha1)
        as (h1 & U1 & U2 & U3 & U4).
      apply alloc_inv in A3, A4. destruct A3 as [A3 A3']. destruct A4 as [A4 A4'].
      exists h1, h2, h3, h4, delta_, Delta_, x, y.
      do 2 eexists. exists x, gd, y, anchor.
      repeat split; eassumption. }
  destruct Core as (h1 & h2 & h3 & h4 & delta_ & Delta_ & x & y & ax & ay
                    & lb & lg & lq & lG & F1 & E1 & F2 & E2 & F3 & E3
                    & F4 & E4 & I).
  destruct (copies_independent_core h h1 h2 h3 h4 h' ld lD delta_ Delta_ x y
              lb lg lq lG ad aD ax ay t thr refs s w
              Hld HlD F1 E1 F2 E2 F3 E3 F4 E4 I)
    as ((N1 & N2 & N3 & N4 & N5 & N6) & C1 & C2 & C3 & V1 & V2).
  split; [exact V1|]. split; [exact V2|]. intros a a' h''.
  unfold h'', Store.write, Store.contents in *.
  rewrite !(lookup_insert_ne _ lD) by congruence.
  rewrite !(lookup_insert_ne _ ld) by congruence.
  repeat split; assumption.
Qed.

Lemma stored_delta_Delta_tau_are_copies_witness :
  exists h' refs s w,
    (caller_store !! 2%nat = Some (array1 [0.01; 0.01; 0.02; 0.02])
     /\ caller_store !! 3%nat = Some (array1 [0.03; 0.03; 0.04; 0.04])
     /\ @Store.acquisition_scheme_from_bvalues symbolic_sh sample_conversions
          exact_unit_norm caller_store 0%nat 1%nat (Store.PyArray 2)
          (Store.PyArray 3) 50e6 10e6 = Return (h', refs, (s, w)))
    /\ delta s = [0.01; 0.01; 0.02; 0.02]
    /\ Delta s = [0.03; 0.03; 0.04; 0.04]
    /\ forall (a a' : ndarray),
         let h'' := Store.write (Store.write h' 2%nat a) 3%nat a' in
         Store.contents h'' (Store.r_delta refs) = Some (delta s)
         /\ Store.contents h'' (Store.r_Delta refs) = Some (Delta s)
         /\ Store.contents h'' (Store.r_tau refs) = Some (tau s).
Proof.
  destruct (@Store.acquisition_scheme_from_bvalues symbolic_sh
              sample_conversions exact_unit_norm caller_store 0%nat 1%nat
              (Store.PyArray 2) (Store.PyArray 3) 50e6 10e6)
    as [[[h' refs] [s w]]|e] eqn:E; [|vm_compute in E; discriminate].
  exists h', refs, s, w.
  split; [split; [reflexivity|split; [reflexivity|reflexivity]]|].
  apply (@stored_delta_Delta_tau_are_copies symbolic_sh sample_conversions
           exact_unit_norm caller_store h' 0%nat 1%nat 2%nat 3%nat
           (array1 [0.01; 0.01; 0.02; 0.02])
           (array1 [0.03; 0.03; 0.04; 0.04]) 50e6 10e6 refs s w
           eq_refl eq_refl _ (or_introl eq_refl) E).
Defined.

(** By contrast the b-values are stored as received: the scheme reads
    what the caller writes into that array afterwards. *)
Lemma stored_bvalues_are_shared :
  exists h' refs s w,
    @Store.acquisition_scheme_from_bvalues symbolic_sh sample_conversions
      exact_unit_norm caller_store 0%nat 1%nat (Store.PyArray 2)
      (Store.PyArray 3) 50e6 10e6 = Return (h', refs, (s, w))
    /\ Store.contents h' (Store.r_bvalues refs) = Some [0; 1e9; 0; 1e9]
    /\ forall a,
         Store.contents (Store.write h' 0%nat a) (Store.r_bvalues refs)
         = Some (data a).
Proof.
  eexists _, _, _, _. split; [vm_compute; reflexivity|].
  cbn [Store.r_bvalues]. split; [reflexivity|].
  intros a. unfold Store.contents, Store.write.
  rewrite lookup_insert_eq. reflexivity.
Qed.

(** ** The store model computes the schemes of the value model *)

Lemma store_unify_one_value (h h1 : gmap nat ndarray) (r : ndarray)
    (d : Store.pyarg) (dv : float_or_array) (l1 : nat) :
  arg_value h d = Some dv ->
  Store.unify_one h r d = Return (h1, l1) ->
  exists d_, unify_one r dv = Return d_
             /\ h !! l1 = None /\ h1 = <[l1 := d_]> h.
Proof.
  unfold Store.unify_one, unify_one, arg_value. destruct d as [x|l].
  - intros E H. injection E as <-. bind_inv H.
    destruct (Store.alloc h _) as [h2 l2] eqn:A. injection H as <- <-.
    apply alloc_inv in A. rewrite Ha. cbn [bind]. eauto.
  - intros E H. bind_inv H. apply deref_inv in Ha. rewrite Ha in E.
    cbn in E. injection E as <-.
    destruct (Store.alloc h _) as [h2 l2] eqn:A. injection H as <- <-.
    apply alloc_inv in A. eauto.
Qed.

Lemma arg_value_insert (h : gmap nat ndarray) (d : Store.pyarg)
    (dv : float_or_array) (l : nat) (a : ndarray) :
  arg_value h d = Some dv -> h !! l = None ->
  arg_value (<[l := a]> h) d = Some dv.
Proof.
  unfold arg_value. destruct d as [x|l']; [tauto|].
  intros E F. destruct (h !! l') as [a'|] eqn:E'; [|discriminate].
  assert (l <> l') by congruence.
  rewrite lookup_insert_ne, E' by assumption. exact E.
Qed.

Lemma store_broadcast_value (h : gmap nat ndarray) (d : Store.pyarg)
    (dv : float_or_array) (n : nat) :
  arg_value h d = Some dv ->
  Store.broadcast h d n = Return (broadcast dv n).
Proof.
  unfold arg_value, Store.broadcast, Store.deref, broadcast.
  destruct d as [x|l].
  - intros E. injection E as <-. reflexivity.
  - destruct (h !! l); [|discriminate]. intros E. injection E as <-.
    reflexivity.
Qed.

Lemma store_init_value `{SH : SphericalHarmonics} (h h' : gmap nat ndarray)
    (lb lg lq lG ld lD : nat) (b g q G d D : ndarray) (t thr : Q)
    (refs : Store.scheme_refs) (sw : self * list string) :
  h !! lb = Some b -> h !! lg = Some g -> h !! lq = Some q ->
  h !! lG = Some G -> h !! ld = Some d -> h !! lD = Some D ->
  Store.__init__ h lb lg lq lG ld lD t thr = Return (h', refs, sw) ->
  __init__ (data b) (rows g) (data q) (data G) (data d) (data D) t thr
  = Return sw.
Proof.
  intros Hb Hg Hq HG Hd HD. unfold Store.__init__, Store.deref.
  rewrite Hb, Hg, Hq, HG, Hd, HD. cbn [bind]. intros H. bind_inv H.
  destruct (Store.alloc h _) as [h2 l2]. injection H as _ _ <-.
  exact Ha.
Qed.

Lemma lookup_preserved (h : gmap nat ndarray) (k l : nat) (v a : ndarray) :
  h !! k = Some v -> h !! l = None -> <[l := a]> h !! k = Some v.
Proof.
  intros Hk Hl. assert (l <> k) by congruence.
  rewrite lookup_insert_ne by assumption. exact Hk.
Qed.

Lemma store_unify_value (h h2 : gmap nat ndarray) (r : ndarray)
    (delta Delta : Store.pyarg) (dv Dv : float_or_array) (l1 l2 : nat) :
  arg_value h delta = Some dv -> arg_value h Delta = Some Dv ->
  Store.unify_length_reference_delta_Delta h r delta Delta
  = Return (h2, l1, l2) ->
  exists d_ D_,
    unify_length_reference_delta_Delta r dv Dv = Return (d_, D_)
    /\ h !! l1 = None /\ <[l1 := d_]> h !! l2 = None
    /\ h2 = <[l2 := D_]> (<[l1 := d_]> h)
    /\ h2 !! l1 = Some d_ /\ h2 !! l2 = Some D_
    /\ arg_value h2 delta = Some dv /\ arg_value h2 Delta = Some Dv.
Proof.
  intros Vd VD H. unfold Store.unify_length_reference_delta_Delta in H.
  bind_inv H. destruct a as [h1 k1]. bind_inv H. destruct a as [h2' k2].
  injection H as <- <- <-.
  destruct (store_unify_one_value _ _ _ _ _ _ Vd Ha) as (d_ & U1 & F1 & ->).
  pose proof (arg_value_insert _ _ _ k1 d_ VD F1) as VD1.
  pose proof (arg_value_insert _ _ _ k1 d_ Vd F1) as Vd1.
  destruct (store_unify_one_value _ _ _ _ _ _ VD1 Ha0) as (D_ & U2 & F2 & ->).
  exists d_, D_. unfold unify_length_reference_delta_Delta.
  rewrite U1. cbn [bind]. rewrite U2. cbn [bind].
  split; [reflexivity|]. split; [exact F1|]. split; [exact F2|].
  split; [reflexivity|]. split.
  - apply lookup_preserved; [apply lookup_insert_eq|exact F2].
  - split; [apply lookup_insert_eq|].
    split; apply arg_value_insert; assumption.
Qed.

(** Each entry point of the store model returns the scheme and the
    warnings that the entry point of the value model returns on the
    contents of the caller's arrays. *)
Lemma store_entry_points_agree
    `{SH : SphericalHarmonics} `{GC : GradientConversions}
    `{UN : UnitNormTest}
    (h h' : gmap nat ndarray) (anchor gd : nat) (a g : ndarray)
    (delta Delta : Store.pyarg) (dv Dv : float_or_array) (t thr : Q)
    (refs : Store.scheme_refs) (sw : self * list string) :
  h !! anchor = Some a -> h !! gd = Some g ->
  arg_value h delta = Some dv -> arg_value h Delta = Some Dv ->
  (Store.acquisition_scheme_from_bvalues h anchor gd delta Delta t thr
   = Return (h', refs, sw) ->
   acquisition_scheme_from_bvalues a g dv Dv t thr = Return sw)
  /\ (Store.acquisition_scheme_from_qvalues h anchor gd delta Delta t thr
      = Return (h', refs, sw) ->
      acquisition_scheme_from_qvalues a g dv Dv t thr = Return sw)
  /\ (Store.acquisition_scheme_from_gradient_strengths h anchor gd delta
        Delta t thr = Return (h', refs, sw) ->
      acquisition_scheme_from_gradient_strengths a g dv Dv t thr = Return sw).
Proof.
  intros Ha Hg Vd VD.
  assert (Da : Store.deref h anchor = Return a)
    by (unfold Store.deref; rewrite Ha; reflexivity).
  assert (Dg : Store.deref h gd = Return g)
    by (unfold Store.deref; rewrite Hg; reflexivity).
  split; [|split].
  - unfold Store.acquisition_scheme_from_bvalues,
      acquisition_scheme_from_bvalues.
    rewrite Da, Dg. cbn [bind]. intros H.
    bind_inv H. destruct a0 as [[h2 l1] l2].
    destruct (store_unify_value _ _ _ _ _ _ _ _ _ Vd VD Ha0)
      as (d_ & D_ & U & F1 & F2 & E2 & L1 & L2 & _).
    rewrite U. cbn [bind]. unfold Store.deref in H. rewrite L1, L2 in H.
    cbn [bind] in H. bind_inv H. destruct a0. rewrite Ha1. cbn [bind].
    destruct (Store.alloc h2 _) as [h3 x] eqn:A3.
    destruct (Store.alloc h3 _) as [h4 y] eqn:A4.
    apply alloc_inv in A3, A4. destruct A3 as [A3 ->]. destruct A4 as [A4 ->].
    assert (Ha2 : h2 !! anchor = Some a).
    { rewrite E2. repeat apply lookup_preserved; assumption. }
    assert (Hg2 : h2 !! gd = Some g).
    { rewrite E2. repeat apply lookup_preserved; assumption. }
    eapply (store_init_value _ _ _ _ _ _ _ _ a g (array1 _) (array1 _) d_ D_) in H.
    + exact H.
    + repeat apply lookup_preserved; assumption.
    + repeat apply lookup_preserved; assumption.
    + apply lookup_preserved; [apply lookup_insert_eq|exact A4].
    + apply lookup_insert_eq.
    + repeat apply lookup_preserved; assumption.
    + repeat apply lookup_preserved; assumption.
  - unfold Store.acquisition_scheme_from_qvalues,
      acquisition_scheme_from_qvalues.
    rewrite Da, Dg. cbn [bind]. intros H.
    bind_inv H. destruct a0 as [[h2 l1] l2].
    destruct (store_unify_value _ _ _ _ _ _ _ _ _ Vd VD Ha0)
      as (d_ & D_ & U & F1 & F2 & E2 & L1 & L2 & Vd2 & VD2).
    rewrite U. cbn [bind]. unfold Store.deref in H. rewrite L1, L2 in H.
    cbn [bind] in H. bind_inv H. destruct a0. rewrite Ha1. cbn [bind].
    rewrite (store_broadcast_value _ _ _ _ Vd2),
      (store_broadcast_value _ _ _ _ VD2) in H. cbn [bind] in H.
    destruct (Store.alloc h2 _) as [h3 x] eqn:A3.
    destruct (Store.alloc h3 _) as [h4 y] eqn:A4.
    apply alloc_inv in A3, A4. destruct A3 as [A3 ->]. destruct A4 as [A4 ->].
    assert (Ha2 : h2 !! anchor = Some a).
    { rewrite E2. repeat apply lookup_preserved; assumption. }
    assert (Hg2 : h2 !! gd = Some g).
    { rewrite E2. repeat apply lookup_preserved; assumption. }
    eapply (store_init_value _ _ _ _ _ _ _ _ (array1 _) g a (array1 _) d_ D_) in H.
    + exact H.
    + apply lookup_preserved; [apply lookup_insert_eq|exact A4].
    + repeat apply lookup_preserved; assumption.
    + repeat apply lookup_preserved; assumption.
    + apply lookup_insert_eq.
    + repeat apply lookup_preserved; assumption.
    + repeat apply lookup_preserved; assumption.
  - unfold Store.acquisition_scheme_from_gradient_strengths,
      acquisition_scheme_from_gradient_strengths.
    rewrite Da, Dg. cbn [bind]. intros H.
    bind_inv H. destruct a0 as [[h2 l1] l2].
    destruct (store_unify_value _ _ _ _ _ _ _ _ _ Vd VD Ha0)
      as (d_ & D_ & U & F1 & F2 & E2 & L1 & L2 & Vd2 & VD2).
    rewrite U. cbn [bind]. unfold Store.deref in H. rewrite L1, L2 in H.
    cbn [bind] in H. bind_inv H. destruct a0. rewrite Ha1. cbn [bind].
    rewrite (store_broadcast_value _ _ _ _ Vd2),
      (store_broadcast_value _ _ _ _ VD2) in H. cbn [bind] in H.
    destruct (Store.alloc h2 _) as [h3 x] eqn:A3.
    destruct (Store.alloc h3 _) as [h4 y] eqn:A4.
    apply alloc_inv in A3, A4. destruct A3 as [A3 ->]. destruct A4 as [A4 ->].
    assert (Ha2 : h2 !! anchor = Some a).
    { rewrite E2. repeat apply lookup_preserved; assumption. }
    assert (Hg2 : h2 !! gd = Some g).
    { rewrite E2. repeat apply lookup_preserved; assumption. }
    eapply (store_init_value _ _ _ _ _ _ _ _ (array1 _) g (array1 _) a d_ D_) in H.
    + exact H.
    + apply lookup_preserved; [apply lookup_insert_eq|exact A4].
    + repeat apply lookup_preserved; assumption.
    + apply lookup_insert_eq.
    + repeat apply lookup_preserved; assumption.
    + repeat apply lookup_preserved; assumption.
    + repeat apply lookup_preserved; assumption.
Qed.

(* ================================================================== *)
(** ** Validation comes first; what can still fail afterwards *)
(* ================================================================== *)

(** When the check raises, each entry point raises the same exception:
    the conversions and the constructor are never reached. *)
Lemma invalid_input_raises_the_validation_failure
    `{SH : SphericalHarmonics} `{GC : GradientConversions}
    `{UN : UnitNormTest}
    (anchor gd : ndarray) (delta Delta : float_or_array) (t thr : Q)
    (d_ D_ : ndarray) (e : exn) :
  unify_length_reference_delta_Delta anchor delta Delta = Return (d_, D_) ->
  check_acquisition_scheme anchor gd d_ D_ = Raise e ->
  forall entry,
    In entry [acquisition_scheme_from_bvalues;
              acquisition_scheme_from_qvalues;
              acquisition_scheme_from_gradient_strengths] ->
    entry anchor gd delta Delta t thr = Raise e.
Proof.
  intros U C entry He. cbn in He. destruct He as [<-|[<-|[<-|[]]]].
  - unfold acquisition_scheme_from_bvalues. rewrite U. cbn [bind].
    rewrite C. reflexivity.
  - unfold acquisition_scheme_from_qvalues. rewrite U. cbn [bind].
    rewrite C. reflexivity.
  - unfold acquisition_scheme_from_gradient_strengths. rewrite U.
    cbn [bind]. rewrite C. reflexivity.
Qed.

Lemma valid_input_decided `{UN : UnitNormTest} (anchor gd : ndarray)
    (delta Delta : float_or_array) :
  forallb clear_row (rows gd) = true ->
  valid_input anchor gd delta Delta
  = @valid_input exact_unit_norm anchor gd delta Delta.
Proof.
  intros H. unfold valid_input.
  destruct (unify_length_reference_delta_Delta anchor delta Delta)
    as [[d_ D_]|]; [|reflexivity].
  rewrite (check_acquisition_scheme_decided _ _ _ _ H). reflexivity.
Qed.

Lemma acquisition_scheme_from_bvalues_decided
    `{SH : SphericalHarmonics} `{GC : GradientConversions}
    `{UN : UnitNormTest}
    (anchor gd : ndarray) (delta Delta : float_or_array) (t thr : Q) :
  forallb clear_row (rows gd) = true ->
  acquisition_scheme_from_bvalues anchor gd delta Delta t thr
  = @acquisition_scheme_from_bvalues SH GC exact_unit_norm anchor gd delta
      Delta t thr.
Proof.
  intros H. unfold acquisition_scheme_from_bvalues.
  destruct (unify_length_reference_delta_Delta anchor delta Delta)
    as [[d_ D_]|]; [|reflexivity].
  cbn [bind]. rewrite (check_acquisition_scheme_decided _ _ _ _ H).
  reflexivity.
Qed.

(** C3 fails on valid input.  Two measurements with different delta form
    two (delta, Delta) groups of one measurement each; the check accepts
    the input, and the classifier, called on a group of one, raises the
    [ValueError] of scipy's [linkage].  The constructor has a branch for a
    scheme of one measurement but none for a group of one. *)
Theorem valid_input_with_group_of_one_raises
    `{SH : SphericalHarmonics} `{GC : GradientConversions}
    `{UN : UnitNormTest} :
  valid_input (array1 [0; 1e9]) (array2 3 directions2)
    (Array (array1 [0.01; 0.02])) (Float 0.03) = true
  /\ check_acquisition_scheme (array1 [0; 1e9]) (array2 3 directions2)
       (array1 [0.01; 0.02]) (array1 [0.03; 0.03]) = Return tt
  /\ acquisition_scheme_from_bvalues (array1 [0; 1e9]) (array2 3 directions2)
       (Array (array1 [0.01; 0.02])) (Float 0.03)
       default_min_b_shell_distance default_b0_threshold
     = Raise (ValueError msg_linkage).
Proof.
  rewrite valid_input_decided, check_acquisition_scheme_decided,
    acquisition_scheme_from_bvalues_decided by reflexivity.
  split; [reflexivity|]. split; reflexivity.
Qed.

(** The same for groups with different numbers of shells: the list of
    per-group shell b-values does not form a numeric array. *)
Lemma valid_input_with_uneven_groups_raises
    `{SH : SphericalHarmonics} `{GC : GradientConversions}
    `{UN : UnitNormTest} :
  valid_input (array1 [0; 1e9; 0; 0]) (array2 3 directions4)
    (Array (array1 [0.02; 0.02; 0.01; 0.01])) (Float 0.03) = true
  /\ acquisition_scheme_from_bvalues (array1 [0; 1e9; 0; 0])
       (array2 3 directions4) (Array (array1 [0.02; 0.02; 0.01; 0.01]))
       (Float 0.03) default_min_b_shell_distance default_b0_threshold
     = Raise (ValueError msg_ragged).
Proof.
  rewrite valid_input_decided, acquisition_scheme_from_bvalues_decided
    by reflexivity.
  split; reflexivity.
Qed.

(* ================================================================== *)
(** ** b0 measurements and the warning *)
(* ================================================================== *)

Lemma count_true_all (l : list bool) :
  forallb id l = true -> count_true l = length l.
Proof.
  unfold count_true. intros H. rewrite filter_all by exact H. reflexivity.
Qed.

Lemma count_true_none (l : list bool) :
  existsb id l = false -> count_true l = O.
Proof.
  unfold count_true. induction l as [|x l IH]; cbn; [reflexivity|].
  destruct x; cbn; [discriminate|]. exact IH.
Qed.

(** In a constructed scheme whose b-values are all at most the threshold,
    every measurement is a b0 measurement. *)
Lemma all_b0_counts_every_measurement `{SH : SphericalHarmonics}
    (b : list Q) (gd : list (list Q)) (qs Gs d D : list Q) (t thr : Q)
    (s : self) (w : list string) :
  __init__ b gd qs Gs d D t thr = Return (s, w) ->
  (forall x, In x b -> x <= thr) ->
  number_of_b0s s = number_of_measurements s.
Proof.
  intros H A.
  destruct (init_common_inv _ _ _ _ _ _ _ _ _ _ H)
    as (_ & _ & _ & _ & _ & _ & _ & Em & En & El & _).
  rewrite En, El, Em. rewrite count_true_all; [apply length_map|].
  apply forallb_forall. intros m Hm. apply in_map_iff in Hm.
  destruct Hm as (x & <- & Hx). apply Qle_bool_iff, A, Hx.
Qed.

(** In a constructed scheme without a b-value at or below the threshold
    the warning has been emitted, and only then; the b0 mask is empty. *)
Lemma no_b0_warns `{SH : SphericalHarmonics}
    (b : list Q) (gd : list (list Q)) (qs Gs d D : list Q) (t thr : Q)
    (s : self) (w : list string) :
  __init__ b gd qs Gs d D t thr = Return (s, w) ->
  ((forall x, In x b -> thr < x) ->
     w = [msg_no_b0] /\ number_of_b0s s = O
     /\ forall m, In m (b0_mask s) -> m = false)
  /\ ((exists x, In x b /\ x <= thr) -> w = []).
Proof.
  intros H.
  destruct (init_common_inv _ _ _ _ _ _ _ _ _ _ H)
    as (_ & _ & _ & _ & _ & _ & _ & Em & En & _ & _ & _ & Ew).
  split.
  - intros A.
    assert (F : forall m, In m (b0_mask s) -> m = false).
    { intros m Hm. rewrite Em in Hm. apply in_map_iff in Hm.
      destruct Hm as (x & <- & Hx). apply Qle_bool_false_iff, A, Hx. }
    assert (Z : number_of_b0s s = O).
    { rewrite En. apply count_true_none.
      destruct (existsb id (b0_mask s)) eqn:E; [|reflexivity].
      apply existsb_exists in E. destruct E as (m & Hm & Tm).
      rewrite (F m Hm) in Tm. discriminate. }
    rewrite Ew, Z. repeat split. exact F.
  - intros (x & Hx & Lx). rewrite Ew.
    destruct (number_of_b0s s =? 0)%nat eqn:E; [|reflexivity].
    apply Nat.eqb_eq in E. rewrite En, Em in E. exfalso.
    unfold count_true in E. apply length_zero_iff_nil in E.
    assert (In true (List.filter id (map (fun y => Qle_bool y thr) b))) as I.
    { apply filter_In. split; [|reflexivity]. apply in_map_iff.
      exists x. split; [apply Qle_bool_iff, Lx|exact Hx]. }
    rewrite E in I. destruct I.
Qed.

(** C7 fails on valid input without b0 measurements when a (delta, Delta)
    group has one measurement: construction raises, from the call of the
    classifier on a group of one that also breaks C3, and neither warns
    nor returns. *)
Theorem no_b0_input_with_group_of_one_raises
    `{SH : SphericalHarmonics} `{GC : GradientConversions}
    `{UN : UnitNormTest} :
  valid_input (array1 [1e9; 2e9]) (array2 3 directions2)
    (Array (array1 [0.01; 0.02])) (Float 0.03) = true
  /\ forallb (fun x => Qlt_bool default_b0_threshold x) [1e9; 2e9] = true
  /\ acquisition_scheme_from_bvalues (array1 [1e9; 2e9]) (array2 3 directions2)
       (Array (array1 [0.01; 0.02])) (Float 0.03)
       default_min_b_shell_distance default_b0_threshold
     = Raise (ValueError msg_linkage).
Proof.
  rewrite valid_input_decided, acquisition_scheme_from_bvalues_decided
    by reflexivity.
  split; [reflexivity|]. split; reflexivity.
Qed.

(* ================================================================== *)
(** ** When the constructor returns *)
(* ================================================================== *)

(** The b-values of the group of row [u]. *)
Lemma classify_group_returns (b : list Q) (deltas : list (Q * Q)) (t : Q)
    (si : list nat) (sbs : list (list Q)) (mi : nat) (u : Q * Q) :
  (2 <= length (compress (map (row_eqb u) deltas) b))%nat ->
  exists si' mi',
    classify_group b deltas t (si, sbs, mi) u
    = Return (si',
              sbs ++ [snd (relabel_clusters
                             (compress (map (row_eqb u) deltas) b)
                             (fcluster (compress (map (row_eqb u) deltas) b)
                                t))],
              mi').
Proof.
  intros L. unfold classify_group.
  destruct (calculate_shell_bvalues_and_indices_spec _ t L)
    as (si_ & sb_ & E & R & _).
  rewrite E. cbn [bind]. rewrite <- R. cbn [snd]. eauto.
Qed.

Lemma classify_loop_returns (b : list Q) (deltas : list (Q * Q)) (t : Q)
    (todo : list (Q * Q)) :
  (forall u, In u todo ->
     (2 <= length (compress (map (row_eqb u) deltas) b))%nat) ->
  forall si sbs mi,
  exists si' mi',
    foldM (classify_group b deltas t) todo (si, sbs, mi)
    = Return (si',
              sbs ++ map (fun u =>
                            snd (relabel_clusters
                                   (compress (map (row_eqb u) deltas) b)
                                   (fcluster
                                      (compress (map (row_eqb u) deltas) b)
                                      t))) todo,
              mi').
Proof.
  induction todo as [|u todo IH]; intros H si sbs mi.
  - cbn. rewrite app_nil_r. eauto.
  - cbn [foldM map].
    destruct (classify_group_returns b deltas t si sbs mi u
                (H u (or_introl eq_refl))) as (si1 & mi1 & E).
    rewrite E. cbn [bind].
    destruct (IH (fun v Hv => H v (or_intror Hv)) si1
                (sbs ++ [snd (relabel_clusters
                                (compress (map (row_eqb u) deltas) b)
                                (fcluster
                                   (compress (map (row_eqb u) deltas) b) t))])
                mi1) as (si' & mi' & E').
    rewrite E'. rewrite <- app_assoc. cbn [app]. eauto.
Qed.

Lemma take_returns {A : Type} (a : list A) (idx : list nat) :
  (forall i, In i idx -> (i < length a)%nat) ->
  exists l, take a idx = Return l.
Proof.
  induction idx as [|i idx IH]; intros H; cbn.
  - eauto.
  - unfold index. destruct (nth_error a i) as [x|] eqn:E.
    + cbn [bind].
      destruct (IH (fun j Hj => H j (or_intror Hj))) as (l & ->).
      cbn [bind]. eauto.
    + apply nth_error_None in E.
      pose proof (H i (or_introl eq_refl)). lia.
Qed.

Lemma argmax_lt (l : list bool) : l <> [] -> (argmax l < length l)%nat.
Proof.
  intros N. destruct (existsb id l) eqn:E.
  - apply argmax_spec, E.
  - destruct l as [|x l]; [congruence|]. cbn in *.
    destruct x; cbn in E; [discriminate|]. rewrite E. lia.
Qed.

Lemma first_indices_lt (si : list nat) (i : nat) :
  si <> [] -> In i (first_indices si) -> (i < length si)%nat.
Proof.
  intros N H. unfold first_indices in H. apply in_map_iff in H.
  destruct H as (ind & <- & _).
  rewrite <- (length_map (Nat.eqb ind) si). apply argmax_lt.
  destruct si; [congruence|discriminate].
Qed.

Lemma sh_loop_returns `{SH : SphericalHarmonics} (gd : list (list Q))
    (si : list nat) (sb : list Q) (idxs : list nat) :
  forall (orders : list nat) (matrices : gmap nat sh_matrix),
    length orders = length sb ->
    (forall k, In k idxs -> (k < length sb)%nat) ->
    exists st', foldM (sh_step gd si sb) idxs (orders, matrices) = Return st'.
Proof.
  induction idxs as [|k idxs IH]; intros orders matrices L H; cbn [foldM].
  - eauto.
  - pose proof (H k (or_introl eq_refl)) as Lk.
    unfold sh_step. unfold index at 1.
    destruct (nth_error sb k) as [x|] eqn:E;
      [|apply nth_error_None in E; lia].
    cbn [bind]. unfold index.
    destruct (nth_error (<[k := get_sh_order_from_bval x]> orders) k)
      as [o|] eqn:E2.
    + cbn [bind]. apply IH.
      * rewrite length_insert. exact L.
      * intros j Hj. apply H. right. exact Hj.
    + apply nth_error_None in E2. rewrite length_insert in E2. lia.
Qed.

Lemma classify_shells_returns (b d D : list Q) (t : Q) :
  groups_classifiable b d D t = true ->
  exists si sb, classify_shells b d D t = Return (si, sb).
Proof.
  unfold groups_classifiable, group_bvalues. rewrite andb_true_iff.
  intros [G1 G2]. unfold classify_shells.
  rewrite forallb_forall in G1.
  destruct (classify_loop_returns b (combine d D) t
              (np_unique_rows (combine d D))
              (fun u Hu => proj1 (Nat.leb_le _ _) (G1 u Hu))
              (repeat O (length b)) [] O) as (si & mi & E).
  rewrite E. cbn [bind app]. unfold ravel. rewrite G2. cbn [bind]. eauto.
Qed.

(** The constructor returns on arrays of one length when there is one
    measurement, or several whose groups can be classified. *)
Lemma init_returns `{SH : SphericalHarmonics}
    (b : list Q) (gd : list (list Q)) (qs Gs d D : list Q) (t thr : Q) :
  length qs = length b -> length Gs = length b ->
  length d = length b -> length D = length b ->
  length b = 1%nat
  \/ ((1 < length b)%nat /\ groups_classifiable b d D t = true) ->
  exists s w, __init__ b gd qs Gs d D t thr = Return (s, w).
Proof.
  intros Lq LG Ld LD [L1|[L G]].
  - destruct (length_1_inv _ L1) as [x ->].
    destruct (init_single_measurement x gd qs Gs d D t thr)
      as (s & w & E & _). eauto.
  - destruct (classify_shells_returns b d D t G) as (si & sb & C).
    destruct (classify_shells_spec b d D t si sb Ld LD C)
      as (S1 & S2 & _).
    assert (Nsi : si <> []).
    { intros E. rewrite E in S1. cbn in S1. lia. }
    assert (T : forall (a : list Q), length a = length b ->
              exists l, take a (first_indices si) = Return l).
    { intros a La. apply take_returns. intros i Hi.
      apply first_indices_lt in Hi; [|exact Nsi]. lia. }
    destruct (T qs Lq) as (sq & Tq). destruct (T Gs LG) as (sG & TG).
    destruct (T d Ld) as (sd & Td). destruct (T D LD) as (sD & TD).
    destruct (sh_loop_returns gd si sb
                (np_unique (compress
                              (map negb (map (fun x => Qle_bool x thr) b)) si))
                (repeat O (length sb)) ∅ (repeat_length _ _))
      as ([orders matrices] & F).
    { intros k Hk. apply (proj1 (np_unique_In _ _)) in Hk.
      destruct (compress_In _ _ _ O Hk) as (p & Lp & _ & <-).
      apply S2, nth_In, Lp. }
    unfold __init__. apply Nat.ltb_lt in L. rewrite L, C. cbn [bind].
    rewrite Tq. cbn [bind]. rewrite TG. cbn [bind]. rewrite Td. cbn [bind].
    rewrite TD. cbn [bind]. rewrite F. cbn [bind]. eauto.
Qed.

(** Each entry point returns a scheme on a valid input whose groups can be
    classified: the two failures above are the only ones. *)
Lemma valid_input_is_constructed
    `{SH : SphericalHarmonics} `{GC : GradientConversions}
    `{UN : UnitNormTest}
    (anchor gd : ndarray) (delta Delta : float_or_array) (t thr : Q) :
  valid_input anchor gd delta Delta = true ->
  let n := first_axis anchor in
  let d := broadcast delta n in
  let D := broadcast Delta n in
  (forall b, length b = n ->
     n = 1%nat \/ ((1 < n)%nat /\ groups_classifiable b d D t = true) ->
     (b = data anchor ->
        exists s w, acquisition_scheme_from_bvalues anchor gd delta Delta t thr
                    = Return (s, w))
     /\ (b = map3 b_from_q (data anchor) d D ->
        exists s w, acquisition_scheme_from_qvalues anchor gd delta Delta t thr
                    = Return (s, w))
     /\ (b = map3 b_from_g (data anchor) d D ->
        exists s w,
          acquisition_scheme_from_gradient_strengths anchor gd delta Delta
            t thr = Return (s, w))).
Proof.
  intros V n d D b Lb Hc.
  destruct (valid_input_inv _ _ _ _ V)
    as (d_ & D_ & n' & U & C & Sa & Sg & La & Ld & LD & Bd & BD).
  assert (En : n' = n) by (unfold n, first_axis; rewrite Sa; reflexivity).
  rewrite En in La, Ld, LD, Bd, BD. clear En Sa Sg n'.
  subst d D. rewrite Bd, BD in Hc |- *.
  assert (L3 : forall (f : Q -> Q -> Q -> Q),
            length (map3 f (data anchor) (data d_) (data D_)) = n).
  { intros f. clear -La Ld LD.
    generalize dependent (data D_). generalize dependent (data d_).
    generalize dependent n. induction (data anchor) as [|x l IH];
      intros n La [|y ld] Ld [|z lD] LD; cbn in *; try lia.
    destruct n; [discriminate|]. f_equal. apply IH; lia. }
  assert (L2 : forall (f : Q -> Q -> Q),
            length (map2 f (data anchor) (data d_)) = n).
  { intros f. rewrite length_map2; [exact La|]. lia. }
  assert (Hc' : length b = 1%nat
                \/ ((1 < length b)%nat
                    /\ groups_classifiable b (data d_) (data D_) t = true))
    by (rewrite Lb; exact Hc).
  repeat split; intros ->.
  - unfold acquisition_scheme_from_bvalues. rewrite U. cbn [bind].
    rewrite C. cbn [bind].
    apply init_returns; try assumption; rewrite ?L3; lia.
  - unfold acquisition_scheme_from_qvalues. rewrite U. cbn [bind].
    rewrite C. cbn [bind]. cbv zeta. rewrite La, Bd, BD.
    apply init_returns; try assumption; rewrite ?L3, ?L2; lia.
  - unfold acquisition_scheme_from_gradient_strengths. rewrite U.
    cbn [bind]. rewrite C. cbn [bind]. cbv zeta. rewrite La, Bd, BD.
    apply init_returns; try assumption; rewrite ?L3, ?L2; lia.
Qed.

(* ================================================================== *)
(** * Further properties of the shell classifier *)
(* ================================================================== *)










(* ================================================================== *)
(** * The step table of the spherical-harmonics order *)
(* ================================================================== *)



(* ================================================================== *)
(** * Further properties of the constructor *)
(* ================================================================== *)







